(** * AIStore target-local storage core: mountpaths and bucket transactions

    A shallow embedding of [fs/mountfs.go] (mountpath registry, path
    composer, bucket-directory lifecycle, capacity monitor) and of
    [ais/tgttxn.go] (target side of the two-phase bucket transactions),
    with the properties the specification states about them. *)

From Stdlib Require Import ZArith Lia Bool.
From stdpp Require Import base tactics option list gmap strings pretty.

Local Open Scope Z_scope.

(* set_solver clears hypotheses it has already used up *)
#[local] Set Warnings "-clear-no-such-hyp".

(** ** Machine integers

    Go's fixed-width integers are carried as [Z], the wrap-around written
    out at every operation that can overflow. *)

Definition wrap_u64 (x : Z) : Z := x mod 2 ^ 64.
Definition wrap_s (bits : Z) (x : Z) : Z :=
  (x + 2 ^ (bits - 1)) mod 2 ^ bits - 2 ^ (bits - 1).
Definition wrap_i32 : Z -> Z := wrap_s 32.
Definition wrap_i64 : Z -> Z := wrap_s 64.

(** ** Errors *)

(** The [syscall.Errno] values the code distinguishes. *)
Inductive Errno := ENOENT | EEXIST | ENOTEMPTY | EIO | EACCES | EROFS | ENOSPC.

#[global] Instance Errno_eq_dec : EqDecision Errno.
Proof. solve_decision. Defined.

(** [os.IsNotExist] and [os.IsExist]. *)
Definition IsNotExist (e : Errno) : bool :=
  match e with ENOENT => true | _ => false end.
Definition IsExist (e : Errno) : bool :=
  match e with EEXIST | ENOTEMPTY => true | _ => false end.

(** ** Buckets ([cmn.Bck]) *)

Record MirrorConf := mkMirrorConf {
  Mirror_Copies  : Z;       (* int64 *)
  Mirror_Enabled : bool }.

Record ECConf := mkECConf { EC_Enabled : bool }.

Record BucketProps := mkBucketProps {
  Mirror : MirrorConf;
  EC     : ECConf;
  BID    : N }.             (* uint64 *)

Record Ns := mkNs { Ns_UUID : string; Ns_Name : string }.

Record Bck := mkBck {
  Bck_Name     : string;
  Bck_Provider : string;
  Bck_Ns       : Ns;
  Bck_Props    : option BucketProps }.   (* *BucketProps, nil = None *)

#[global] Instance MirrorConf_eq_dec : EqDecision MirrorConf.
Proof. solve_decision. Defined.
#[global] Instance ECConf_eq_dec : EqDecision ECConf.
Proof. solve_decision. Defined.
#[global] Instance BucketProps_eq_dec : EqDecision BucketProps.
Proof. solve_decision. Defined.
#[global] Instance Ns_eq_dec : EqDecision Ns.
Proof. solve_decision. Defined.
#[global] Instance Bck_eq_dec : EqDecision Bck.
Proof. solve_decision. Defined.

Definition nonempty (s : string) : bool :=
  match s with EmptyString => false | _ => true end.

(** Modelled from the spec: [Ns.IsGlobal] and [Ns.IsRemote] (package [cmn])
    are not among the sources; the namespace prefix is absent for the global
    namespace, [@<uuid>#<name>] for a remote one and [#<name>] for a local
    one that is not global. *)
Definition Ns_IsGlobal (n : Ns) : bool :=
  negb (nonempty (Ns_UUID n)) && negb (nonempty (Ns_Name n)).
Definition Ns_IsRemote (n : Ns) : bool := nonempty (Ns_UUID n).

(** Modelled from the spec: the separator and the one-character prefixes of
    the on-disk layout [<root>/@<provider>/[<ns>/]<bucket>/%<ct>/<object>],
    the two-character content types and the name of the workfile type
    (declared in [fs/content.go] and [fs/fqn.go], not among the sources). *)
Definition Separator    : string := "/".
Definition prefProvider : string := "@".
Definition prefNsUUID   : string := "@".
Definition prefNsName   : string := "#".
Definition prefCT       : string := "%".
Definition contentTypeLen : nat := 2.
Definition ObjectType   : string := "ob".
Definition WorkfileType : string := "wk".
Definition ECSliceType  : string := "ec".

(** ** Mountpaths *)

Record Capacity := mkCapacity {
  Used    : Z;     (* uint64, bytes *)
  Avail   : Z;     (* uint64, bytes *)
  PctUsed : Z }.   (* int32 *)

#[global] Instance Capacity_eq_dec : EqDecision Capacity.
Proof. solve_decision. Defined.

(** [MountpathInfo]: the cleaned path, the per-bucket-id path cache
    [bpc.m] and the last sampled capacity.  The locks, the LOM caches, the
    filesystem identity and the digest play no role in what follows. *)
Record MountpathInfo := mkMountpathInfo {
  Path     : string;
  bpc      : gmap N string;
  capacity : Capacity }.

Definition set_bpc (m : gmap N string) (mi : MountpathInfo) : MountpathInfo :=
  {| Path := Path mi; bpc := m; capacity := capacity mi |}.
Definition set_capacity (c : Capacity) (mi : MountpathInfo) : MountpathInfo :=
  {| Path := Path mi; bpc := bpc mi; capacity := c |}.

(** ** Path composer *)

Definition len (s : string) : nat := String.length s.

(** [makePathBuf] builds the byte buffer of the path.  [extra] only sizes the
    buffer, so it is not a parameter here.  The lengths are computed as in the
    source because which segments are appended is decided by them. *)
Definition makePathBuf (mi : MountpathInfo) (bck : Bck) (contentType : string)
  : string :=
  let ctLen := if nonempty contentType then (1 + 1 + contentTypeLen)%nat else 0%nat in
  let ct (buf : string) :=
    if (0 <? ctLen)%nat then buf +:+ Separator +:+ prefCT +:+ contentType else buf in
  let cached :=
    if nonempty contentType then
      match Bck_Props bck with
      | Some props =>
          if negb (BID props =? 0)%N then bpc mi !! BID props else None
      | None => None
      end
    else None in
  match cached with
  | Some bdir => ct bdir
  | None =>
      let nsLen :=
        if negb (Ns_IsGlobal (Bck_Ns bck)) then
          ((1 + (if Ns_IsRemote (Bck_Ns bck) then 1 + len (Ns_UUID (Bck_Ns bck)) else 0))
             + (1 + len (Ns_Name (Bck_Ns bck))))%nat
        else 0%nat in
      let bckNameLen :=
        if nonempty (Bck_Name bck) then (1 + len (Bck_Name bck))%nat else 0%nat in
      let buf := Path mi in
      let buf := buf +:+ Separator +:+ prefProvider in
      let buf := buf +:+ Bck_Provider bck in
      let buf :=
        if (0 <? nsLen)%nat then
          let buf := buf +:+ Separator in
          let buf :=
            if Ns_IsRemote (Bck_Ns bck)
            then (buf +:+ prefNsUUID) +:+ Ns_UUID (Bck_Ns bck) else buf in
          let buf := buf +:+ prefNsName in
          buf +:+ Ns_Name (Bck_Ns bck)
        else buf in
      let buf :=
        if (0 <? bckNameLen)%nat then (buf +:+ Separator) +:+ Bck_Name bck else buf in
      ct buf
  end.

(** [MakePathBck]: the bucket directory, memoised under the bucket id when the
    bucket carries its properties.  [debug.Assert(bid != 0)] is compiled out
    of production builds and is not modelled. *)
Definition MakePathBck (mi : MountpathInfo) (bck : Bck) : string * MountpathInfo :=
  match Bck_Props bck with
  | None => (makePathBuf mi bck "", mi)
  | Some props =>
      let bid := BID props in
      match bpc mi !! bid with
      | Some dir => (dir, mi)
      | None =>
          let dir := makePathBuf mi bck "" in
          (dir, set_bpc (<[bid := dir]> (bpc mi)) mi)
      end
  end.

Definition MakePathCT (mi : MountpathInfo) (bck : Bck) (contentType : string)
  : string := makePathBuf mi bck contentType.

Definition MakePathFQN (mi : MountpathInfo) (bck : Bck) (contentType objName : string)
  : string := (makePathBuf mi bck contentType +:+ Separator) +:+ objName.

(** [makeDelPathBck]: drop the cached entry of [bid] if there is one and
    return it; compose the path through [MakePathBck] otherwise. *)
Definition makeDelPathBck (mi : MountpathInfo) (bck : Bck) (bid : N)
  : string * MountpathInfo :=
  match bpc mi !! bid with
  | Some dir => (dir, set_bpc (delete bid (bpc mi)) mi)
  | None => MakePathBck mi bck
  end.

(** The path of the specification, [<mi.path>/@<provider>[/<ns-prefix>]/<bucket>],
    written after its words; [makePathBuf_bucket_dir] below compares it with
    what the code composes. *)
Definition ns_prefix (n : Ns) : string :=
  if Ns_IsGlobal n then ""
  else if Ns_IsRemote n then "/@" +:+ Ns_UUID n +:+ "#" +:+ Ns_Name n
  else "/#" +:+ Ns_Name n.

Definition spec_bucket_dir (path : string) (bck : Bck) : string :=
  path +:+ "/@" +:+ Bck_Provider bck +:+ ns_prefix (Bck_Ns bck)
       +:+ (if nonempty (Bck_Name bck) then "/" +:+ Bck_Name bck else "").

(** ** The operating system

    The filesystem the target runs on, as far as the code looks at it:
    which directories exist and what they hold, the statfs figures of the
    mounted filesystems, a monotonic clock, and a schedule of faults so
    that any call can fail the way a disk or a permission makes it fail.
    A directory is identified by its full path and its entries are a list
    of names; every call is appended to [journal] in the order issued.
    [dirs] holds the directories the operations below name, each as one
    piece: the ancestors that [os.MkdirAll] makes on its way, and the
    directories nested below one that is renamed or removed, which go
    where it goes, are not recorded as entries of their own. *)

Inductive Fault := FaultEIO | FaultEACCES | FaultEROFS | FaultENOSPC.

Definition Fault_errno (f : Fault) : Errno :=
  match f with
  | FaultEIO => EIO | FaultEACCES => EACCES
  | FaultEROFS => EROFS | FaultENOSPC => ENOSPC
  end.

Inductive Syscall :=
| SysAccess    (path : string)
| SysMkdirAll  (path : string)
| SysRename    (oldpath newpath : string)
| SysRemoveAll (path : string)
| SysReadDir   (path : string)
| SysStatfs    (path : string).

#[global] Instance Syscall_eq_dec : EqDecision Syscall.
Proof. solve_decision. Defined.

Record Statfs_t := mkStatfs {
  Blocks : Z;    (* uint64 *)
  Bavail : Z;    (* uint64 *)
  Bsize  : Z }.  (* int64 *)

(** Go [error] values of package [fs]. *)
Inductive error :=
| ErrNoMountpaths
| ErrOS (e : Errno)
| ErrBckDirNotEmpty (bck : Bck) (dir : string) (names : list string)
| ErrBckCreateDir (bck : Bck) (dir : string) (e : Errno)
| ErrBckDestroy (bck : Bck) (failed count : nat)
| ErrCapacityExceeded (high : Z) (pctMax : Z) (used total : Z) (oos : bool).

#[global] Instance error_eq_dec : EqDecision error.
Proof. solve_decision. Defined.

(** Lines written through [glog], by call site. *)
Inductive LogEntry :=
| WarnTrashExists     (tmpDir : string)
| ErrorDestroyFailed  (op dir : string) (e : Errno)
| ErrorRollback       (e : Errno)
| ErrorDirExistsNilBMD (bck : Bck) (dir : string)
| ErrorLogged         (e : error)
| InfoCreateBucket    (op : string) (bck : Bck) (num : nat).

Record World := mkWorld {
  dirs    : gmap string (list string);
  statfs  : gmap string Statfs_t;
  faults  : list (option Fault);
  clock   : Z;
  journal : list Syscall;
  glog    : list LogEntry }.

Definition set_dirs (d : gmap string (list string)) (w : World) : World :=
  {| dirs := d; statfs := statfs w; faults := faults w; clock := clock w;
     journal := journal w; glog := glog w |}.

Definition glog_write (l : LogEntry) (w : World) : World :=
  {| dirs := dirs w; statfs := statfs w; faults := faults w; clock := clock w;
     journal := journal w; glog := glog w ++ [l] |}.

(** Entering the kernel: the call is journalled and the next scheduled fault,
    if any, is consumed. *)
Definition enter (c : Syscall) (w : World) : option Errno * World :=
  (match faults w with
   | Some f :: _ => Some (Fault_errno f)
   | _ => None
   end,
   {| dirs := dirs w; statfs := statfs w; faults := tail (faults w);
      clock := clock w; journal := journal w ++ [c]; glog := glog w |}).

(** [mono.NanoTime]: two readings never coincide. *)
Definition NanoTime (w : World) : Z * World :=
  (clock w,
   {| dirs := dirs w; statfs := statfs w; faults := faults w;
      clock := clock w + 1; journal := journal w; glog := glog w |}).

(** [fs.Access] *)
Definition Access (path : string) (w : World) : option Errno * World :=
  match enter (SysAccess path) w with
  | (Some e, w) => (Some e, w)
  | (None, w) =>
      match dirs w !! path with
      | Some _ => (None, w)
      | None => (Some ENOENT, w)
      end
  end.

(** [cos.CreateDir], that is [os.MkdirAll]: no error on an existing
    directory.  The directory named is recorded; the ancestors made on the
    way to it and the name added to the listing of its parent are not. *)
Definition CreateDir (path : string) (w : World) : option Errno * World :=
  match enter (SysMkdirAll path) w with
  | (Some e, w) => (Some e, w)
  | (None, w) =>
      match dirs w !! path with
      | Some _ => (None, w)
      | None => (None, set_dirs (<[path := []]> (dirs w)) w)
      end
  end.

(** [os.Rename] of a directory: the source must exist and the destination
    must not.  Go's [os.Rename] looks at the destination before it calls
    rename(2), and refuses one that is a directory, empty or not, and be it
    the source itself, with [EEXIST]; with the source missing the error is
    [ENOENT] either way.  The directory moves as one piece.  The refusals
    of rename(2) that depend on where the two paths lie, a destination
    inside the source and a destination whose parent is missing, are not
    recorded. *)
Definition os_Rename (oldpath newpath : string) (w : World) : option Errno * World :=
  match enter (SysRename oldpath newpath) w with
  | (Some e, w) => (Some e, w)
  | (None, w) =>
      match dirs w !! oldpath with
      | None => (Some ENOENT, w)
      | Some entries =>
          match dirs w !! newpath with
          | Some _ => (Some EEXIST, w)
          | None => (None, set_dirs (<[newpath := entries]> (delete oldpath (dirs w))) w)
          end
      end
  end.

(** [os.RemoveAll]: no error when the path does not exist.  The directory
    named is removed as one piece, with what is nested below it. *)
Definition os_RemoveAll (path : string) (w : World) : option Errno * World :=
  match enter (SysRemoveAll path) w with
  | (Some e, w) => (Some e, w)
  | (None, w) => (None, set_dirs (delete path (dirs w)) w)
  end.

(** [fs.IsDirEmpty]: some of the names found, and whether there are none. *)
Definition IsDirEmpty (dir : string) (w : World)
  : (list string * bool * option Errno) * World :=
  match enter (SysReadDir dir) w with
  | (Some e, w) => (([], false, Some e), w)
  | (None, w) =>
      match dirs w !! dir with
      | None => (([], false, Some ENOENT), w)
      | Some entries =>
          ((entries, match entries with [] => true | _ => false end, None), w)
      end
  end.

(** [syscall.Statfs] *)
Definition Statfs (path : string) (w : World) : (option Statfs_t * option Errno) * World :=
  match enter (SysStatfs path) w with
  | (Some e, w) => ((None, Some e), w)
  | (None, w) =>
      match statfs w !! path with
      | Some s => ((Some s, None), w)
      | None => ((None, Some ENOENT), w)
      end
  end.

(** [filepath.Join] of two clean, non-empty operands. *)
Definition Join (a b : string) : string := a +:+ Separator +:+ b.

(** ** Bucket-directory lifecycle *)

Definition TrashDir : string := "$trash".

Definition MakePathTrash (mi : MountpathInfo) : string := Join (Path mi) TrashDir.

(** The [Retry:] loop of [MoveToTrash].  A round is repeated only when the
    freshly named directory is already taken; [fuel] bounds the rounds and
    [None] means it ran out ([MoveToTrash_returns] shows it never does).
    The removal of [tmpDir] inside [debug.Func] exists in debug builds only. *)
Fixpoint MoveToTrash_retry (fuel : nat) (mi : MountpathInfo) (dir : string) (w : World)
  : option (option Errno * World) :=
  match fuel with
  | O => None
  | S fuel =>
      let trashDir := MakePathTrash mi in
      let '(now, w) := NanoTime w in
      let tmpDir := Join trashDir ("$dir-" +:+ pretty now) in
      match CreateDir trashDir w with
      | (Some e, w) => Some (Some e, w)
      | (None, w) =>
          match os_Rename dir tmpDir w with
          | (Some e, w) =>
              if IsExist e then
                MoveToTrash_retry fuel mi dir (glog_write (WarnTrashExists tmpDir) w)
              else if IsNotExist e then Some (None, w)
              else Some (Some e, w)
          | (None, w) => Some (None, w)
          end
      end
  end.

(** Rounds that are always enough: one per directory that could be in the
    way, plus the trash directory itself and the round that succeeds. *)
Definition trash_rounds (w : World) : nat := S (S (size (dirs w))).

Definition MoveToTrash (mi : MountpathInfo) (dir : string) (w : World)
  : option (option Errno * World) :=
  match Access dir w with
  | (Some e, w') =>
      if IsNotExist e then Some (None, w')
      else MoveToTrash_retry (trash_rounds w') mi dir w'
  | (None, w') => MoveToTrash_retry (trash_rounds w') mi dir w'
  end.

(** [createBckDirs]: the loop over the registered content types, in the order
    [cts] in which the range over [CSM.RegisteredContentTypes] yields them. *)
Fixpoint createBckDirs_range (cts : list string) (mi : MountpathInfo) (bck : Bck)
    (nilbmd : bool) (num : nat) (w : World) : (nat * option error) * World :=
  match cts with
  | [] => ((num, None), w)
  | contentType :: cts =>
      let dir := MakePathCT mi bck contentType in
      match Access dir w with
      | (None, w) =>
          if nilbmd then
            createBckDirs_range cts mi bck nilbmd (S num)
              (glog_write (ErrorDirExistsNilBMD bck dir) w)
          else
            match IsDirEmpty dir w with
            | ((_, _, Some errEmpty), w) => ((num, Some (ErrOS errEmpty)), w)
            | ((names, empty, None), w) =>
                if negb empty then
                  let err := ErrBckDirNotEmpty bck dir names in
                  if negb (String.eqb contentType WorkfileType) then ((num, Some err), w)
                  else createBckDirs_range cts mi bck nilbmd (S num)
                         (glog_write (ErrorLogged err) w)
                else createBckDirs_range cts mi bck nilbmd (S num) w
            end
      | (Some _, w) =>
          match CreateDir dir w with
          | (Some e, w) => ((num, Some (ErrBckCreateDir bck dir e)), w)
          | (None, w) => createBckDirs_range cts mi bck nilbmd (S num) w
          end
      end
  end.

Definition createBckDirs (cts : list string) (mi : MountpathInfo) (bck : Bck)
    (nilbmd : bool) (w : World) : (nat * option error) * World :=
  createBckDirs_range cts mi bck nilbmd 0 w.

(** [CreateBucket]: [availablePaths] is the available mountpaths in the order
    the range over the map yields them.  The verbose-level info line is
    not modelled. *)
Fixpoint CreateBucket_range (cts : list string) (availablePaths : list MountpathInfo)
    (bck : Bck) (nilbmd : bool) (errs : list error) (totalCreatedDirs : nat) (w : World)
  : (list error * nat) * World :=
  match availablePaths with
  | [] => ((errs, totalCreatedDirs), w)
  | mi :: rest =>
      match createBckDirs cts mi bck nilbmd w with
      | ((_, Some err), w) =>
          CreateBucket_range cts rest bck nilbmd (errs ++ [err]) totalCreatedDirs w
      | ((num, None), w) =>
          CreateBucket_range cts rest bck nilbmd errs (totalCreatedDirs + num) w
      end
  end.

Definition CreateBucket (cts : list string) (availablePaths : list MountpathInfo)
    (bck : Bck) (nilbmd : bool) (w : World) : list error * World :=
  let '((errs, _), w) := CreateBucket_range cts availablePaths bck nilbmd [] 0 w in
  (errs, w).

(** [DestroyBucket]: the loop; [n] counts the mountpaths whose bucket directory
    went to the trash (or was not there). *)
Fixpoint DestroyBucket_range (op : string) (availablePaths : list MountpathInfo)
    (bck : Bck) (bid : N) (n : nat) (w : World)
  : option (list MountpathInfo * nat * World) :=
  match availablePaths with
  | [] => Some ([], n, w)
  | mi :: rest =>
      let '(dir, mi) := makeDelPathBck mi bck bid in
      match MoveToTrash mi dir w with
      | None => None
      | Some (Some err, w) =>
          '(rest, n, w) ← DestroyBucket_range op rest bck bid n
                            (glog_write (ErrorDestroyFailed op dir err) w);
          Some (mi :: rest, n, w)
      | Some (None, w) =>
          '(rest, n, w) ← DestroyBucket_range op rest bck bid (S n) w;
          Some (mi :: rest, n, w)
      end
  end.

Definition DestroyBucket (op : string) (availablePaths : list MountpathInfo)
    (bck : Bck) (bid : N) (w : World)
  : option (option error * list MountpathInfo * World) :=
  '(mis, n, w) ← DestroyBucket_range op availablePaths bck bid 0 w;
  let count := length availablePaths in
  if (n <? count)%nat
  then Some (Some (ErrBckDestroy bck (count - n) count), mis, w)
  else Some (None, mis, w).

(** [RenameBucketDirs], first loop: stops at the first rename that fails.
    Returns the mountpaths renamed so far (in the order they were appended to
    [renamed]), the mountpaths from the failing one on, and the error. *)
Fixpoint RenameBucketDirs_range (availablePaths : list MountpathInfo) (bidFrom : N)
    (bckFrom bckTo : Bck) (renamed : list MountpathInfo) (w : World)
  : (list MountpathInfo * list MountpathInfo * option Errno) * World :=
  match availablePaths with
  | [] => ((renamed, [], None), w)
  | mi :: rest =>
      let '(fromPath, mi) := makeDelPathBck mi bckFrom bidFrom in
      let '(toPath, mi) := MakePathBck mi bckTo in
      let '(_, w) := os_RemoveAll toPath w in
      match os_Rename fromPath toPath w with
      | (Some err, w) => ((renamed, mi :: rest, Some err), w)
      | (None, w) =>
          RenameBucketDirs_range rest bidFrom bckFrom bckTo (renamed ++ [mi]) w
      end
  end.

(** [RenameBucketDirs], second loop: [for _, mi := range renamed]. *)
Fixpoint RenameBucketDirs_rollback (renamed : list MountpathInfo)
    (bckFrom bckTo : Bck) (w : World) : list MountpathInfo * World :=
  match renamed with
  | [] => ([], w)
  | mi :: rest =>
      let '(fromPath, mi) := MakePathBck mi bckTo in
      let '(toPath, mi) := MakePathBck mi bckFrom in
      let w := match os_Rename fromPath toPath w with
               | (Some erd, w) => glog_write (ErrorRollback erd) w
               | (None, w) => w
               end in
      let '(rest, w) := RenameBucketDirs_rollback rest bckFrom bckTo w in
      (mi :: rest, w)
  end.

Definition RenameBucketDirs (availablePaths : list MountpathInfo) (bidFrom : N)
    (bckFrom bckTo : Bck) (w : World)
  : option Errno * list MountpathInfo * World :=
  match RenameBucketDirs_range availablePaths bidFrom bckFrom bckTo [] w with
  | ((renamed, _, None), w) => (None, renamed, w)
  | ((renamed, rest, Some err), w) =>
      let '(renamed, w) := RenameBucketDirs_rollback renamed bckFrom bckTo w in
      (Some err, renamed ++ rest, w)
  end.


(** ** Capacity monitor *)

Record Config := mkConfig {
  LRU_HighWM          : Z;    (* int64 *)
  LRU_LowWM           : Z;    (* int64 *)
  LRU_OOS             : Z;    (* int64 *)
  LRU_CapacityUpdTime : Z;    (* time.Duration *)
  Periodic_StatsTime  : Z }.  (* time.Duration *)

Record CapStatus := mkCapStatus {
  TotalUsed  : Z;             (* uint64 *)
  TotalAvail : Z;             (* uint64 *)
  PctAvg     : Z;             (* int32 *)
  PctMax     : Z;             (* int32 *)
  Err        : option error;
  OOS        : bool }.

Definition CapStatus_zero : CapStatus := mkCapStatus 0 0 0 0 None false.

(** The capacity part of [MountedFS]: [capTime.curr], [capTime.next] and
    [capStatus]. *)
Record CapCache := mkCapCache {
  capTime_curr : Z;
  capTime_next : Z;
  capStatus    : CapStatus }.

(** Outcome of a call that can return normally or raise a run-time panic
    (integer division by zero, nil dereference, failed assertion). *)
Inductive outcome (A : Type) := Returns (a : A) | Panics.
Arguments Returns {A} a.
Arguments Panics {A}.

Definition ceil_div (a b : Z) : Z := - ((- a) / b).

(** [getCapacity].  With [refresh] the figures come from statfs.  The
    [math.Ceil] of the float64 quotient is taken as the exact ceiling, which
    it is for block counts below 2^53/100. *)
Definition getCapacity (mi : MountpathInfo) (config : Config) (refresh : bool) (w : World)
  : outcome ((Capacity * option Errno) * MountpathInfo * World) :=
  if negb refresh then Returns ((capacity mi, None), mi, w)
  else
    match Statfs (Path mi) w with
    | ((_, Some err), w) => Returns ((mkCapacity 0 0 0, Some err), mi, w)
    | ((None, None), w) => Returns ((mkCapacity 0 0 0, Some ENOENT), mi, w)
    | ((Some st, None), w) =>
        let bused := wrap_u64 (Blocks st - Bavail st) in
        if Blocks st =? 0 then Panics
        else
          let pct := wrap_u64 (bused * 100) / Blocks st in
          let pct :=
            if wrap_u64 (wrap_u64 (LRU_HighWM config) - 1) <=? pct
            then wrap_u64 (ceil_div (bused * 100) (Blocks st))
            else pct in
          let c := mkCapacity (wrap_u64 (bused * wrap_u64 (Bsize st)))
                              (wrap_u64 (Bavail st * wrap_u64 (Bsize st)))
                              (wrap_i32 pct) in
          Returns ((c, None), set_capacity c mi, w)
    end.

Definition MaxI32 (a b : Z) : Z := if a <? b then b else a.
Definition MaxI64 (a b : Z) : Z := if a <? b then b else a.

(** Go's integer division truncates toward zero. *)
Definition go_div (a b : Z) : Z := Z.quot a b.

(** [nextRefresh]: reads the cached [capStatus]. *)
Definition nextRefresh (cache : CapCache) (config : Config) : Z :=
  let util := PctAvg (capStatus cache) in
  let umin := MaxI64 (wrap_i64 (LRU_HighWM config - 10)) (LRU_LowWM config) in
  let umax := LRU_OOS config in
  let tmax := LRU_CapacityUpdTime config in
  let tmin := Periodic_StatsTime config in
  if util <=? umin then tmax
  else if umax <=? util then tmin
  else
    let ratio := go_div (wrap_i64 ((util - umin) * 100)) (wrap_i64 (umax - umin)) in
    wrap_i64 (go_div (wrap_i64 (ratio * wrap_i64 (tmax - tmin))) 100 + tmin).

(** The loop of [RefreshCapStatus] over the available mountpaths. *)
Fixpoint RefreshCapStatus_range (availablePaths : list MountpathInfo) (config : Config)
    (mpcap : option (gmap string Capacity)) (cs : CapStatus) (w : World)
  : outcome ((CapStatus * option Errno) * list MountpathInfo
             * option (gmap string Capacity) * World) :=
  match availablePaths with
  | [] => Returns ((cs, None), [], mpcap, w)
  | mi :: rest =>
      match getCapacity mi config true w with
      | Panics => Panics
      | Returns ((_, Some err), mi, w) =>
          Returns ((cs, Some err), mi :: rest, mpcap,
                   glog_write (ErrorLogged (ErrOS err)) w)
      | Returns ((c, None), mi, w) =>
          let cs := {| TotalUsed  := wrap_u64 (TotalUsed cs + Used c);
                       TotalAvail := wrap_u64 (TotalAvail cs + Avail c);
                       PctAvg     := wrap_i32 (PctAvg cs + PctUsed c);
                       PctMax     := MaxI32 (PctMax cs) (PctUsed c);
                       Err        := Err cs;
                       OOS        := OOS cs |} in
          let mpcap := (λ m, <[Path mi := c]> m) <$> mpcap in
          match RefreshCapStatus_range rest config mpcap cs w with
          | Panics => Panics
          | Returns (r, rest, mpcap, w) => Returns (r, mi :: rest, mpcap, w)
          end
      end
  end.

(** [RefreshCapStatus].  [config] is [None] for a nil pointer, replaced by the
    global configuration [gco].  The result is the pair [(cs, err)] with the
    state left behind: mountpaths, [mpcap], the capacity cache and the world. *)
Definition RefreshCapStatus (gco : Config) (availablePaths : list MountpathInfo)
    (config : option Config) (mpcap : option (gmap string Capacity))
    (cache : CapCache) (w : World)
  : outcome ((CapStatus * option error) * list MountpathInfo
             * option (gmap string Capacity) * CapCache * World) :=
  if (length availablePaths =? 0)%nat
  then Returns ((CapStatus_zero, Some ErrNoMountpaths), availablePaths, mpcap, cache, w)
  else
    let config := default gco config in
    let high := LRU_HighWM config in
    let oos := LRU_OOS config in
    match RefreshCapStatus_range availablePaths config mpcap CapStatus_zero w with
    | Panics => Panics
    | Returns ((cs, Some err), mis, mpcap, w) =>
        Returns ((cs, Some (ErrOS err)), mis, mpcap, cache, w)
    | Returns ((cs, None), mis, mpcap, w) =>
        let n := wrap_i32 (Z.of_nat (length availablePaths)) in
        if n =? 0 then Panics
        else
          let pctAvg := wrap_i32 (go_div (PctAvg cs) n) in
          let isOOS := oos <? PctMax cs in
          let err :=
            if isOOS || (high <? PctMax cs)
            then Some (ErrCapacityExceeded high (PctMax cs) (TotalUsed cs)
                         (wrap_u64 (TotalAvail cs + TotalUsed cs)) isOOS)
            else None in
          let cs := {| TotalUsed := TotalUsed cs; TotalAvail := TotalAvail cs;
                       PctAvg := pctAvg; PctMax := PctMax cs;
                       Err := err; OOS := isOOS |} in
          let cache1 := {| capTime_curr := capTime_curr cache;
                           capTime_next := capTime_next cache;
                           capStatus := cs |} in
          let '(now, w) := NanoTime w in
          let cache2 := {| capTime_curr := now;
                           capTime_next := wrap_i64 (now + nextRefresh cache1 config);
                           capStatus := cs |} in
          Returns ((cs, None), mis, mpcap, cache2, w)
    end.

(** ** Mountpath registry: the two atomic pointers

    [MountedFS.available] and [MountedFS.disabled] are two [atomic.Pointer]s.
    [updatePaths] stores one and then the other; [Get] loads one and then
    the other.  Each load and each store is one atomic step; steps of a
    writer and of a reader interleave freely.  Writers call [updatePaths]
    holding [mfs.mu], so at most one of them is between its two stores. *)

#[global] Instance MountpathInfo_eq_dec : EqDecision MountpathInfo.
Proof. solve_decision. Defined.

Definition MPI := gmap string MountpathInfo.

Inductive WriterPC :=
| WIdle                                (* not inside updatePaths *)
| WStoredAvailable (disabled : MPI).   (* available stored, disabled still to store *)

Inductive ReaderPC :=
| RIdle                                (* not inside Get *)
| RLoadedAvailable (availablePaths : option MPI)
| RReturned (availablePaths disabledPaths : MPI).

(** The pointers are nil ([None]) until the first [updatePaths]; [epochs] is
    the history of the pairs passed to [updatePaths], oldest first, after
    the pair of empty maps that [Get] makes of two nil pointers. *)
Record Registry := mkRegistry {
  available : option MPI;
  disabled  : option MPI;
  writer    : WriterPC;
  reader    : ReaderPC;
  epochs    : list (MPI * MPI) }.

Definition Registry_init : Registry :=
  mkRegistry None None WIdle RIdle [(∅, ∅)].

(** [updatePaths(available, disabled)], first statement:
    [mfs.available.Store(unsafe.Pointer(&available))]. *)
Definition updatePaths_store_available (a d : MPI) (r : Registry) : Registry :=
  mkRegistry (Some a) (disabled r) (WStoredAvailable d) (reader r) (epochs r ++ [(a, d)]).

(** [updatePaths], second statement:
    [mfs.disabled.Store(unsafe.Pointer(&disabled))]. *)
Definition updatePaths_store_disabled (d : MPI) (r : Registry) : Registry :=
  mkRegistry (available r) (Some d) WIdle (reader r) (epochs r).

(** [Get]: [availablePaths] is what [mfs.available.Load()] points to. *)
Definition Get_load_available (r : Registry) : Registry :=
  mkRegistry (available r) (disabled r) (writer r)
             (RLoadedAvailable (available r)) (epochs r).

(** [Get]: [disabledPaths] is what [mfs.disabled.Load()] points to; the two nil checks
    (a nil pointer reads as an empty map) and the return. *)
Definition Get_load_disabled (a : option MPI) (r : Registry) : Registry :=
  mkRegistry (available r) (disabled r) (writer r)
             (RReturned (default ∅ a) (default ∅ (disabled r))) (epochs r).

(** The caller is done with the pair; the next [Get] can start. *)
Definition Get_done (r : Registry) : Registry :=
  mkRegistry (available r) (disabled r) (writer r) RIdle (epochs r).

Inductive Registry_step : Registry -> Registry -> Prop :=
| step_store_available r a d :
    writer r = WIdle -> Registry_step r (updatePaths_store_available a d r)
| step_store_disabled r d :
    writer r = WStoredAvailable d -> Registry_step r (updatePaths_store_disabled d r)
| step_load_available r :
    reader r = RIdle -> Registry_step r (Get_load_available r)
| step_load_disabled r a :
    reader r = RLoadedAvailable a -> Registry_step r (Get_load_disabled a r)
| step_get_done r a d :
    reader r = RReturned a d -> Registry_step r (Get_done r).

Inductive Registry_reachable : Registry -> Prop :=
| reach_init : Registry_reachable Registry_init
| reach_step r r' :
    Registry_reachable r -> Registry_step r r' -> Registry_reachable r'.

(** What [Get] returned comes from one mutation epoch. *)
Definition Get_untorn (r : Registry) : Prop :=
  ∀ a d, reader r = RReturned a d → (a, d) ∈ epochs r.

(** ** Transaction coordinator ([ais/tgttxn.go]) *)

(** The phase in the URL; [ActOther] is any string that is none of the three. *)
Inductive Phase := ActBegin | ActCommit | ActAbort | ActOther.

(** Transaction records, one variant per bucket action. *)
Inductive TxnPayload :=
| txnCreateBucket
| txnMakeNCopies (curCopies newCopies : Z)
| txnSetBucketProps (bprops nprops : BucketProps)
| txnRenameBucket (bckFrom bckTo : Bck).

Record Txn := mkTxn {
  txn_uuid    : string;
  txn_phase   : Phase;
  txn_smapVer : Z;
  txn_bmdVer  : Z;
  txn_caller  : string;
  txn_bck     : Bck;
  txn_payload : TxnPayload }.

(** Errors of package [ais]. [Errorf_txn] is
    [fmt.Errorf("%s %s: %v", t.si, txn, err)]: the error of the transaction
    table annotated with the node and the record. *)
Inductive aerror :=
| ErrFs (e : error)
| ErrTxnNotFound (uuid : string)
| ErrTxnBmdTimeout (uuid : string)
| ErrBucketNotFound (bck : Bck)
| ErrBucketAlreadyExists (bck : Bck)
| ErrUnmarshal
| ErrInvalidNCopies (copies : Z)
| ErrInsufficientMountpaths (si : string) (mpathCount : Z) (bck : Bck) (copies : Z)
| ErrDirExistsNotEmpty (path : string) (names : list string)
| ErrXaction (msg : string)
| ErrUnknownAction
| Errorf_txn (si : string) (txn : option Txn) (err : aerror).

(** The error an annotated error was made from. *)
Fixpoint cause (e : aerror) : aerror :=
  match e with
  | Errorf_txn _ _ err => cause err
  | _ => e
  end.

(** The decoded [Value] of the action message. *)
Inductive MsgValue :=
| ValueNCopies (copies : Z)
| ValueProps (nprops : BucketProps)
| ValueBck (bTo : Bck)
| ValueOther.

Record actionMsgInternal := mkMsg {
  Value      : MsgValue;
  TxnID      : string;
  RMDVersion : Z }.

Record txnServerCtx := mkCtx {
  c_uuid    : string;
  c_timeout : Z;              (* time.Duration *)
  c_phase   : Phase;
  c_smapVer : Z;
  c_bmdVer  : Z;
  c_msgInt  : actionMsgInternal;
  c_caller  : string;
  c_bck     : Bck }.

Definition set_c_bck (bck : Bck) (c : txnServerCtx) : txnServerCtx :=
  {| c_uuid := c_uuid c; c_timeout := c_timeout c; c_phase := c_phase c;
     c_smapVer := c_smapVer c; c_bmdVer := c_bmdVer c; c_msgInt := c_msgInt c;
     c_caller := c_caller c; c_bck := bck |}.

(** Bucket metadata: the version and the buckets with their properties,
    keyed by name, provider and namespace. *)
Definition BckKey : Type := string * string * (string * string).
Definition Bck_key (b : Bck) : BckKey :=
  (Bck_Name b, Bck_Provider b, (Ns_UUID (Bck_Ns b), Ns_Name (Bck_Ns b))).

Record BMD := mkBMD {
  BMD_version : Z;
  BMD_buckets : gmap BckKey BucketProps }.

Definition BMD_Get (bmd : BMD) (bck : Bck) : option BucketProps :=
  BMD_buckets bmd !! Bck_key bck.

(** The action names of package [cmn] that occur here; [ActUnknown] is any
    other string. *)
Inductive Action :=
| ActCreateLB | ActRegisterCB | ActMakeNCopies | ActSetBprops | ActRenameLB
| ActPutCopies | ActUnknown.

(** Calls into the collaborators of the coordinator, in the order made. *)
Inductive Effect :=
| DoAbort (kind : Action) (bck : Bck)
| RenewBckMakeNCopies (bck : Bck) (copies : Z)
| RenewBckFastRename (bckFrom bckTo : Bck)
| GfnLocalActivate
| GfnGlobalActivateTimed
| XactRun (globalRebID : Z)
| Sleep (d : Z).

#[global] Instance Action_eq_dec : EqDecision Action.
Proof. solve_decision. Defined.
#[global] Instance Effect_eq_dec : EqDecision Effect.
Proof. solve_decision. Defined.

(** The target as the handlers see it.  [t_incoming] is the BMDs that will
    arrive, each with its arrival time; [t_capInfoErr] is the [Err] of
    [t.AvgCapUsed]; [t_fastRenameErr] is what [RenewBckFastRename] returns;
    [t_available] is the available mountpaths in range order. *)
Record Target := mkTarget {
  t_si            : string;
  t_transactions  : gmap string Txn;
  t_bmd           : BMD;
  t_smapVer       : Z;
  t_now           : Z;
  t_incoming      : list (Z * BMD);
  t_capInfoErr    : option error;
  t_fastRenameErr : option aerror;
  t_available     : list MountpathInfo;
  t_world         : World;
  t_effects       : list Effect }.

Definition set_transactions (m : gmap string Txn) (t : Target) : Target :=
  {| t_si := t_si t; t_transactions := m; t_bmd := t_bmd t; t_smapVer := t_smapVer t;
     t_now := t_now t; t_incoming := t_incoming t; t_capInfoErr := t_capInfoErr t;
     t_fastRenameErr := t_fastRenameErr t; t_available := t_available t;
     t_world := t_world t; t_effects := t_effects t |}.

Definition set_bmd_clock (bmd : BMD) (now : Z) (incoming : list (Z * BMD)) (t : Target)
  : Target :=
  {| t_si := t_si t; t_transactions := t_transactions t; t_bmd := bmd;
     t_smapVer := t_smapVer t; t_now := now; t_incoming := incoming;
     t_capInfoErr := t_capInfoErr t; t_fastRenameErr := t_fastRenameErr t;
     t_available := t_available t; t_world := t_world t; t_effects := t_effects t |}.

Definition set_fs (mis : list MountpathInfo) (w : World) (t : Target) : Target :=
  {| t_si := t_si t; t_transactions := t_transactions t; t_bmd := t_bmd t;
     t_smapVer := t_smapVer t; t_now := t_now t; t_incoming := t_incoming t;
     t_capInfoErr := t_capInfoErr t; t_fastRenameErr := t_fastRenameErr t;
     t_available := mis; t_world := w; t_effects := t_effects t |}.

Definition effect (e : Effect) (t : Target) : Target :=
  {| t_si := t_si t; t_transactions := t_transactions t; t_bmd := t_bmd t;
     t_smapVer := t_smapVer t; t_now := t_now t; t_incoming := t_incoming t;
     t_capInfoErr := t_capInfoErr t; t_fastRenameErr := t_fastRenameErr t;
     t_available := t_available t; t_world := t_world t;
     t_effects := t_effects t ++ [e] |}.

(** Modelled from the spec: the transaction table [t.transactions] (its
    [begin], [find] and [wait] are defined in [ais/txn.go], not among the
    sources).  A begin creates the record keyed by its UUID, and a begin with
    a UUID already there is a no-op returning success. *)
Definition transactions_begin (txn : Txn) (t : Target) : option aerror * Target :=
  match t_transactions t !! txn_uuid txn with
  | Some _ => (None, t)
  | None => (None, set_transactions (<[txn_uuid txn := txn]> (t_transactions t)) t)
  end.

(** Modelled from the spec: [find] looks the record up, fails with
    [ErrTxnNotFound] when it is missing, and removes it when asked to. *)
Definition transactions_find (uuid : string) (remove : bool) (t : Target)
  : (Txn + aerror) * Target :=
  match t_transactions t !! uuid with
  | None => (inr (ErrTxnNotFound uuid), t)
  | Some txn =>
      (inl txn,
       if remove then set_transactions (delete uuid (t_transactions t)) t else t)
  end.

(** Modelled from the spec: [wait] blocks until the locally installed BMD
    version is at least the version of the record, for at most [timeout];
    [ErrTxnBmdTimeout] otherwise.  A BMD that arrives is installed when its
    version is newer.  Once the version is there the record is discarded. *)
Fixpoint wait_bmd (need : Z) (deadline : Z) (bmd : BMD) (now : Z)
    (incoming : list (Z * BMD)) : bool * BMD * Z * list (Z * BMD) :=
  if need <=? BMD_version bmd then (true, bmd, now, incoming)
  else
    match incoming with
    | [] => (false, bmd, Z.max now deadline, [])
    | (at_time, newBMD) :: rest =>
        if at_time <=? deadline then
          wait_bmd need deadline
            (if BMD_version bmd <? BMD_version newBMD then newBMD else bmd)
            (Z.max now at_time) rest
        else (false, bmd, Z.max now deadline, incoming)
    end.

Definition transactions_wait (txn : Txn) (timeout : Z) (t : Target)
  : option aerror * Target :=
  let '(ok, bmd, now, incoming) :=
    wait_bmd (txn_bmdVer txn) (t_now t + timeout) (t_bmd t) (t_now t) (t_incoming t) in
  let t := set_bmd_clock bmd now incoming t in
  if ok then (None, set_transactions (delete (txn_uuid txn) (t_transactions t)) t)
  else (Some (ErrTxnBmdTimeout (txn_uuid txn)), t).

(** Modelled from the spec: [Bck.Init] (package [cluster], not among the
    sources) binds the bucket to its properties in the BMD; a bucket the BMD
    does not list is the precondition failure [ErrBucketNotFound]. *)
Definition Bck_Init (bmd : BMD) (bck : Bck) : Bck + aerror :=
  match BMD_Get bmd bck with
  | Some props => inl (mkBck (Bck_Name bck) (Bck_Provider bck) (Bck_Ns bck) (Some props))
  | None => inr (ErrBucketNotFound bck)
  end.

(** Modelled from the spec: the constructors of the records
    ([newTxnCreateBucket] and the like, in [ais/txn.go], not among the
    sources): a record takes its uuid, phase, smap version, BMD version and
    caller from the context, and carries the payload of its action. *)
Definition newTxn (c : txnServerCtx) (payload : TxnPayload) : Txn :=
  mkTxn (c_uuid c) (c_phase c) (c_smapVer c) (c_bmdVer c) (c_caller c) (c_bck c) payload.

(** [createBucket] *)
Definition createBucket (c : txnServerCtx) (t : Target)
  : outcome (option aerror * Target) :=
  match c_phase c with
  | ActBegin =>
      let txn := newTxn c txnCreateBucket in
      match transactions_begin txn t with
      | (Some err, t) => Returns (Some err, t)
      | (None, t) => Returns (None, t)
      end
  | ActAbort =>
      let '(_, t) := transactions_find (c_uuid c) true t in Returns (None, t)
  | ActCommit =>
      match transactions_find (c_uuid c) false t with
      | (inr err, t) => Returns (Some (Errorf_txn (t_si t) None err), t)
      | (inl txn, t) =>
          (* wait for newBMD w/timeout *)
          match transactions_wait txn (c_timeout c) t with
          | (Some err, t) => Returns (Some (Errorf_txn (t_si t) (Some txn) err), t)
          | (None, t) => Returns (None, t)
          end
      end
  | ActOther => Panics      (* cmn.Assert(false) *)
  end.

(** [parseNCopies]: the value decoded as a number of copies. *)
Definition parseNCopies (v : MsgValue) : Z * option aerror :=
  match v with
  | ValueNCopies copies => (copies, None)
  | _ => (0, Some ErrUnmarshal)
  end.

(** Modelled from the spec: [mirror.ValidateNCopies] (not among the sources):
    the proposed copy count is valid when it is at least one and no more than
    the number of available mountpaths. *)
Definition ValidateNCopies (mpathCount : Z) (copies : Z) : option aerror :=
  if (copies <? 1) || (mpathCount <? copies) then Some (ErrInvalidNCopies copies)
  else None.

(** [validateMakeNCopies]; dereferencing a nil [bck.Props] panics. *)
Definition validateMakeNCopies (t : Target) (bck : Bck) (msgInt : actionMsgInternal)
  : outcome (Z * Z * option aerror) :=
  match Bck_Props bck with
  | None => Panics
  | Some props =>
      let curCopies := Mirror_Copies (Mirror props) in
      let '(newCopies, err) := parseNCopies (Value msgInt) in
      let err :=
        match err with
        | None => ValidateNCopies (Z.of_nat (length (t_available t))) newCopies
        | Some _ => err
        end in
      match err with
      | Some _ => Returns (curCopies, newCopies, err)
      | None =>
          (* don't allow increasing num-copies when used cap is above high wm *)
          if curCopies <? newCopies
          then Returns (curCopies, newCopies, ErrFs <$> t_capInfoErr t)
          else Returns (curCopies, newCopies, None)
      end
  end.

(** [makeNCopies] *)
Definition makeNCopies (c : txnServerCtx) (t : Target)
  : outcome (option aerror * Target) :=
  match Bck_Init (t_bmd t) (c_bck c) with
  | inr err => Returns (Some err, t)
  | inl bck =>
      let c := set_c_bck bck c in
      match c_phase c with
      | ActBegin =>
          match validateMakeNCopies t (c_bck c) (c_msgInt c) with
          | Panics => Panics
          | Returns (_, _, Some err) => Returns (Some err, t)
          | Returns (curCopies, newCopies, None) =>
              let txn := newTxn c (txnMakeNCopies curCopies newCopies) in
              match transactions_begin txn t with
              | (Some err, t) => Returns (Some err, t)
              | (None, t) => Returns (None, t)
              end
          end
      | ActAbort =>
          let '(_, t) := transactions_find (c_uuid c) true t in Returns (None, t)
      | ActCommit =>
          let '(copies, _) := parseNCopies (Value (c_msgInt c)) in
          match transactions_find (c_uuid c) false t with
          | (inr err, t) => Returns (Some (Errorf_txn (t_si t) None err), t)
          | (inl txn, t) =>
              match txn_payload txn with
              | txnMakeNCopies _ newCopies =>
                  if negb (newCopies =? copies) then Panics     (* cmn.Assert *)
                  else
                    (* wait for newBMD w/timeout *)
                    match transactions_wait txn (c_timeout c) t with
                    | (Some err, t) =>
                        Returns (Some (Errorf_txn (t_si t) (Some txn) err), t)
                    | (None, t) =>
                        (* do the work in xaction *)
                        let t := effect (DoAbort ActPutCopies (c_bck c)) t in
                        let t := effect (RenewBckMakeNCopies (c_bck c) copies) t in
                        Returns (None, t)
                    end
              | _ => Panics                                     (* type assertion *)
              end
          end
      | ActOther => Panics
      end
  end.

Definition BucketProps_zero : BucketProps :=
  mkBucketProps (mkMirrorConf 0 false) (mkECConf false) 0%N.

(** [validateNprops]; the body of the message decodes into [nprops], and a
    body of another shape is an error of the decoder.  Dereferencing a nil
    [bck.Props] panics. *)
Definition validateNprops (t : Target) (bck : Bck) (msgInt : actionMsgInternal)
  : outcome (BucketProps * option aerror) :=
  let capInfoErr := t_capInfoErr t in
  match Value msgInt with
  | ValueProps nprops =>
      let ec (_ : unit) : outcome (BucketProps * option aerror) :=
        if EC_Enabled (EC nprops) then
          match Bck_Props bck with
          | None => Panics
          | Some props =>
              if negb (EC_Enabled (EC props))
              then Returns (nprops, ErrFs <$> capInfoErr)
              else Returns (nprops, None)
          end
        else Returns (nprops, None) in
      if Mirror_Enabled (Mirror nprops) then
        let mpathCount := Z.of_nat (length (t_available t)) in
        if mpathCount <? Mirror_Copies (Mirror nprops) then
          Returns (nprops,
                   Some (ErrInsufficientMountpaths (t_si t) mpathCount bck
                           (Mirror_Copies (Mirror nprops))))
        else
          match Bck_Props bck with
          | None => Panics
          | Some props =>
              if (Mirror_Copies (Mirror props) <? Mirror_Copies (Mirror nprops))
                 && bool_decide (is_Some capInfoErr)
              then Returns (nprops, ErrFs <$> capInfoErr)
              else ec ()
          end
      else ec ()
  | _ => Returns (BucketProps_zero, Some ErrUnmarshal)
  end.

(** [remirror] *)
Definition remirror (bprops nprops : BucketProps) : bool :=
  if negb (Mirror_Enabled (Mirror bprops)) && Mirror_Enabled (Mirror nprops) then true
  else if Mirror_Enabled (Mirror bprops) && Mirror_Enabled (Mirror nprops)
  then negb (Mirror_Copies (Mirror bprops) =? Mirror_Copies (Mirror nprops))
  else false.

(** [setBucketProps] *)
Definition setBucketProps (c : txnServerCtx) (t : Target)
  : outcome (option aerror * Target) :=
  match Bck_Init (t_bmd t) (c_bck c) with
  | inr err => Returns (Some err, t)
  | inl bck =>
      let c := set_c_bck bck c in
      match c_phase c with
      | ActBegin =>
          match validateNprops t (c_bck c) (c_msgInt c) with
          | Panics => Panics
          | Returns (_, Some err) => Returns (Some err, t)
          | Returns (nprops, None) =>
              match Bck_Props (c_bck c) with
              | None => Panics
              | Some bprops =>
                  let txn := newTxn c (txnSetBucketProps bprops nprops) in
                  match transactions_begin txn t with
                  | (Some err, t) => Returns (Some err, t)
                  | (None, t) => Returns (None, t)
                  end
              end
          end
      | ActAbort =>
          let '(_, t) := transactions_find (c_uuid c) true t in Returns (None, t)
      | ActCommit =>
          match transactions_find (c_uuid c) false t with
          | (inr err, t) => Returns (Some (Errorf_txn (t_si t) None err), t)
          | (inl txn, t) =>
              match txn_payload txn with
              | txnSetBucketProps bprops nprops =>
                  (* wait for newBMD w/timeout *)
                  match transactions_wait txn (c_timeout c) t with
                  | (Some err, t) =>
                      Returns (Some (Errorf_txn (t_si t) (Some txn) err), t)
                  | (None, t) =>
                      if remirror bprops nprops then
                        let t := effect (DoAbort ActPutCopies (c_bck c)) t in
                        let t := effect (RenewBckMakeNCopies (c_bck c)
                                           (Mirror_Copies (Mirror nprops))) t in
                        Returns (None, t)
                      else Returns (None, t)
                  end
              | _ => Panics                                 (* type assertion *)
              end
          end
      | ActOther => Panics
      end
  end.

(** The loop of [validateBckRenTxn] over the available mountpaths. *)
Fixpoint validateBckRenTxn_range (availablePaths : list MountpathInfo) (bckTo : Bck)
    (w : World) : option aerror * World :=
  match availablePaths with
  | [] => (None, w)
  | mpathInfo :: rest =>
      let path := MakePathCT mpathInfo bckTo ObjectType in
      match Access path w with
      | (Some err, w) =>
          if negb (IsNotExist err) then (Some (ErrFs (ErrOS err)), w)
          else validateBckRenTxn_range rest bckTo w
      | (None, w) =>
          match IsDirEmpty path w with
          | ((_, _, Some err), w) => (Some (ErrFs (ErrOS err)), w)
          | ((names, empty, None), w) =>
              if negb empty then (Some (ErrDirExistsNotEmpty path names), w)
              else validateBckRenTxn_range rest bckTo w
          end
      end
  end.

(** [validateBckRenTxn]; the destination comes back [None] (nil) only
    together with an error. *)
Definition validateBckRenTxn (t : Target) (bckFrom : Bck) (msgInt : actionMsgInternal)
  : (option Bck * option aerror) * Target :=
  match Value msgInt with
  | ValueBck bTo =>
      match t_capInfoErr t with
      | Some err => ((None, Some (ErrFs err)), t)
      | None =>
          let bckTo := mkBck (Bck_Name bTo) (Bck_Provider bTo) (Bck_Ns bTo) None in
          let bmd := t_bmd t in
          match BMD_Get bmd bckFrom with
          | None => ((Some bckTo, Some (ErrBucketNotFound bckFrom)), t)
          | Some _ =>
              match BMD_Get bmd bckTo with
              | Some _ => ((Some bckTo, Some (ErrBucketAlreadyExists bckTo)), t)
              | None =>
                  let '(err, w) :=
                    validateBckRenTxn_range (t_available t) bckTo (t_world t) in
                  ((Some bckTo, err), set_fs (t_available t) w t)
              end
          end
      end
  | _ => ((None, Some ErrUnmarshal), t)
  end.

Definition Millisecond : Z := 1000000.

(** The bucket id [RenameBucketDirs] is given: the one of the source bucket. *)
Definition bid_of (bck : Bck) : N :=
  match Bck_Props bck with Some props => BID props | None => 0%N end.

Definition sleep (d : Z) (t : Target) : Target :=
  set_bmd_clock (t_bmd t) (t_now t + d) (t_incoming t) (effect (Sleep d) t).

(** [renameBucket] *)
Definition renameBucket (c : txnServerCtx) (t : Target)
  : outcome (option aerror * Target) :=
  match Bck_Init (t_bmd t) (c_bck c) with
  | inr err => Returns (Some err, t)
  | inl bck =>
      let c := set_c_bck bck c in
      match c_phase c with
      | ActBegin =>
          let bckFrom := c_bck c in
          match validateBckRenTxn t bckFrom (c_msgInt c) with
          | ((_, Some err), t) => Returns (Some err, t)
          | ((None, None), t) => Panics
          | ((Some bckTo, None), t) =>
              let txn := newTxn c (txnRenameBucket bckFrom bckTo) in
              match transactions_begin txn t with
              | (Some err, t) => Returns (Some err, t)
              | (None, t) => Returns (None, t)
              end
          end
      | ActAbort =>
          let '(_, t) := transactions_find (c_uuid c) true t in Returns (None, t)
      | ActCommit =>
          match transactions_find (c_uuid c) false t with
          | (inr err, t) => Returns (Some (Errorf_txn (t_si t) None err), t)
          | (inl txn, t) =>
              match txn_payload txn with
              | txnRenameBucket bckFrom bckTo =>
                  (* wait for newBMD w/timeout *)
                  match transactions_wait txn (c_timeout c) t with
                  | (Some err, t) =>
                      Returns (Some (Errorf_txn (t_si t) (Some txn) err), t)
                  | (None, t) =>
                      let t := effect (RenewBckFastRename bckFrom bckTo) t in
                      match t_fastRenameErr t with
                      | Some err => Returns (Some err, t)  (* must not happen at commit time *)
                      | None =>
                          let '(err, mis, w) :=
                            RenameBucketDirs (t_available t) (bid_of bckFrom)
                                             bckFrom bckTo (t_world t) in
                          let t := set_fs mis w t in
                          match err with
                          | Some err => Returns (Some (ErrFs (ErrOS err)), t)   (* ditto *)
                          | None =>
                              let globalRebID := RMDVersion (c_msgInt c) in
                              if negb (0 <? globalRebID) then Panics    (* cmn.Assert *)
                              else
                                let t := effect GfnLocalActivate t in
                                let t := effect GfnGlobalActivateTimed t in
                                let t := effect (XactRun globalRebID) t in
                                let t := sleep (200 * Millisecond) t in
                                Returns (None, t)
                          end
                      end
                  end
              | _ => Panics                                 (* type assertion *)
              end
          end
      | ActOther => Panics
      end
  end.

(** Step 3 of [txnHandler]: the switch on the action of the message. *)
Definition txnHandler_do (action : Action) (c : txnServerCtx) (t : Target)
  : outcome (option aerror * Target) :=
  match action with
  | ActCreateLB | ActRegisterCB => createBucket c t
  | ActMakeNCopies => makeNCopies c t
  | ActSetBprops => setBucketProps c t
  | ActRenameLB => renameBucket c t
  | _ => Returns (Some ErrUnknownAction, t)
  end.

(** What a handler did besides keeping the transaction table: the calls to
    the collaborators, what is on the filesystem, and the path caches. *)
Definition side_effects (t : Target)
  : list Effect * list MountpathInfo * gmap string (list string) :=
  (t_effects t, t_available t, dirs (t_world t)).

(** ** Further operations of [fs/mountfs.go] *)

(** [CreateMissingBckDirs]: as [createBckDirs] but a directory that is
    there is left alone, whatever it holds.  [err] is nil whenever the loop
    runs to its end. *)
Fixpoint CreateMissingBckDirs (cts : list string) (mi : MountpathInfo) (bck : Bck)
    (w : World) : option Errno * World :=
  match cts with
  | [] => (None, w)
  | contentType :: cts =>
      let dir := MakePathCT mi bck contentType in
      match Access dir w with
      | (None, w) => CreateMissingBckDirs cts mi bck w
      | (Some _, w) =>
          match CreateDir dir w with
          | (Some err, w) => (Some err, w)
          | (None, w) => CreateMissingBckDirs cts mi bck w
          end
      end
  end.

(** [GetCapStatus]: the cached status. *)
Definition GetCapStatus (cache : CapCache) : CapStatus := capStatus cache.

(** [CapPeriodic], called at every [config.Periodic.StatsTime] tick with the
    global configuration [gco]: the tick is added to [capTime.curr], and the
    capacity is refreshed only when that reaches [capTime.next].  The result
    is [(cs, updated, err)] with the state left behind. *)
Definition CapPeriodic (gco : Config) (availablePaths : list MountpathInfo)
    (mpcap : option (gmap string Capacity)) (cache : CapCache) (w : World)
  : outcome ((CapStatus * bool * option error) * list MountpathInfo
             * option (gmap string Capacity) * CapCache * World) :=
  let config := gco in
  let cache := {| capTime_curr := wrap_i64 (capTime_curr cache + Periodic_StatsTime config);
                  capTime_next := capTime_next cache;
                  capStatus := capStatus cache |} in
  if capTime_curr cache <? capTime_next cache
  then Returns ((CapStatus_zero, false, None), availablePaths, mpcap, cache, w)
  else
    match RefreshCapStatus gco availablePaths (Some config) mpcap cache w with
    | Panics => Panics
    | Returns ((cs, err), mis, mpcap, cache, w) =>
        Returns ((cs, true, err), mis, mpcap, cache, w)
    end.

(** The capacity [makePathBuf] gives the buffer it allocates, from the lengths
    it computes: [len(bdir)+ctLen+extra] when the bucket directory comes from
    the cache, [len(mi.Path)+provLen+nsLen+bckNameLen+ctLen+extra]
    otherwise. *)
Definition makePathBuf_cap (mi : MountpathInfo) (bck : Bck) (contentType : string)
    (extra : nat) : nat :=
  let ctLen := if nonempty contentType then (1 + 1 + contentTypeLen)%nat else 0%nat in
  let cached :=
    if nonempty contentType then
      match Bck_Props bck with
      | Some props =>
          if negb (BID props =? 0)%N then bpc mi !! BID props else None
      | None => None
      end
    else None in
  match cached with
  | Some bdir => (len bdir + ctLen + extra)%nat
  | None =>
      let nsLen :=
        if negb (Ns_IsGlobal (Bck_Ns bck)) then
          ((1 + (if Ns_IsRemote (Bck_Ns bck) then 1 + len (Ns_UUID (Bck_Ns bck)) else 0))
             + (1 + len (Ns_Name (Bck_Ns bck))))%nat
        else 0%nat in
      let bckNameLen :=
        if nonempty (Bck_Name bck) then (1 + len (Bck_Name bck))%nat else 0%nat in
      let provLen := (1 + 1 + len (Bck_Provider bck))%nat in
      (len (Path mi) + provLen + nsLen + bckNameLen + ctLen + extra)%nat
  end.

(** ** Mountpath registry: membership

    [Add], [Enable], [Disable] and [Remove] run under [mfs.mu]: each clones
    the two maps, changes the clones and publishes them with [updatePaths].
    They are modelled as they run under the lock, one at a time. *)

Definition FsID : Type := (Z * Z)%type.          (* cos.FsID, [2]int32 *)

(** A mountpath as the registry reads it: [MountpathInfo] with the embedded
    [FilesystemInfo] (filesystem name and id) and the disks. *)
Record Mpath := mkMpath {
  mp_info  : MountpathInfo;
  mp_Fs    : string;
  mp_FsID  : FsID;
  mp_Disks : list string }.

Definition mp_Path (mi : Mpath) : string := Path (mp_info mi).

Definition set_Disks (disks : list string) (mi : Mpath) : Mpath :=
  {| mp_info := mp_info mi; mp_Fs := mp_Fs mi; mp_FsID := mp_FsID mi; mp_Disks := disks |}.

#[global] Instance Mpath_eq_dec : EqDecision Mpath.
Proof. solve_decision. Defined.

Definition daemonIDXattr : string := "user.ais.daemon_id".

(** The errors of the registry operations; [ErrExternal] is an error handed
    up from a collaborator. *)
Inductive RegError :=
| ErrAlreadyExists (mi existingMi : Mpath)
| ErrFsidShared (fsid : FsID) (mi : Mpath) (existingPath : string)
| ErrNoMountpath (mpath : string)
| ErrRemoveNonExisting (mpath : string)
| ErrMpathIDMismatch (tid mpathDaeID path : string)
| ErrNotFound (tid mpath : string)             (* cmn.NewNotFoundError *)
| ErrMpathNoDisks (mi : Mpath)
| ErrExternal (msg : string).

(** The lines the registry operations log. *)
Inductive RegLog :=
| LogRemovedLast (mi : Mpath)
| LogRemoved (mi : Mpath) (remain : nat)
| LogDisabledLast (mi : Mpath)
| LogDisabled (mi : Mpath) (remain : nat)
| LogCleanPath (mi : Mpath) (mpath : string).

(** What the registry calls that is not among the sources, over a state
    [Env] of its own (the I/O statistics, the extended attributes, the
    files): the [ios.IOStater] interface, the xattr helpers, [fs.Access] and
    [makeFsInfo] on a mountpath root, [cmn.ValidateMpath] and two
    configuration flags.  [moveMarkers] is in
    [fs/mountfs.go]; it copies marker files with [cos.CopyFile] and clears the
    metadata listed in [mdFilesDirs], neither of which is among the sources,
    and it reads no registry state but its arguments, so it stands here as a
    function on [Env]. *)
Class Collaborators (Env : Type) := {
  ios_AddMpath      : string → string → Env → (list string + string) * Env;
  ios_RemoveMpath   : string → Env → Env;
  loadDaemonIDXattr : string → Env → (string + string) * Env;
  SetXattr          : string → string → string → Env → option string * Env;
  removeXattr       : string → string → Env → option string * Env;
  moveMarkers       : gmap string Mpath → Mpath → Env → Env;
  fs_Access         : string → Env → option string * Env;
  makeFsInfo        : string → Env → (string * FsID + string) * Env;
  ValidateMpath     : string → string + string;
  MDWrite_never     : bool;
  TestingEnv        : bool }.

(** [MountedFS]: the two atomic pointers (nil until the first
    [updatePaths]), the filesystem ids in use and the check flag. *)
Record MountedFS (Env : Type) := mkMountedFS {
  mfs_available : option (gmap string Mpath);
  mfs_disabled  : option (gmap string Mpath);
  mfs_fsIDs     : gmap FsID string;
  mfs_checkFsID : bool;
  mfs_env       : Env;
  mfs_glog      : list RegLog }.
Arguments mkMountedFS {Env} _ _ _ _ _ _.
Arguments mfs_available {Env} _.
Arguments mfs_disabled {Env} _.
Arguments mfs_fsIDs {Env} _.
Arguments mfs_checkFsID {Env} _.
Arguments mfs_env {Env} _.
Arguments mfs_glog {Env} _.

Section Membership.
Context {Env : Type} `{Collaborators Env}.

Definition set_env (env : Env) (m : MountedFS Env) : MountedFS Env :=
  mkMountedFS (mfs_available m) (mfs_disabled m) (mfs_fsIDs m) (mfs_checkFsID m)
              env (mfs_glog m).

Definition set_fsIDs (ids : gmap FsID string) (m : MountedFS Env) : MountedFS Env :=
  mkMountedFS (mfs_available m) (mfs_disabled m) ids (mfs_checkFsID m)
              (mfs_env m) (mfs_glog m).

Definition mfs_log (l : RegLog) (m : MountedFS Env) : MountedFS Env :=
  mkMountedFS (mfs_available m) (mfs_disabled m) (mfs_fsIDs m) (mfs_checkFsID m)
              (mfs_env m) (mfs_glog m ++ [l]).

(** [updatePaths], both stores. *)
Definition updatePaths (available disabled : gmap string Mpath) (m : MountedFS Env)
  : MountedFS Env :=
  mkMountedFS (Some available) (Some disabled) (mfs_fsIDs m) (mfs_checkFsID m)
              (mfs_env m) (mfs_glog m).

(** [Get], both loads: a nil pointer reads as an empty map. *)
Definition Get (m : MountedFS Env) : gmap string Mpath * gmap string Mpath :=
  (default ∅ (mfs_available m), default ∅ (mfs_disabled m)).

(** [cloneMPI]: copies of what [Get] returns. *)
Definition cloneMPI (m : MountedFS Env) : gmap string Mpath * gmap string Mpath := Get m.

(** [NumAvail] dereferences the pointer without the nil check of [Get]. *)
Definition NumAvail (m : MountedFS Env) : outcome nat :=
  match mfs_available m with
  | None => Panics
  | Some availablePaths => Returns (size availablePaths)
  end.

(** [DisableFsIDCheck] *)
Definition DisableFsIDCheck (m : MountedFS Env) : MountedFS Env :=
  mkMountedFS (mfs_available m) (mfs_disabled m) (mfs_fsIDs m) false
              (mfs_env m) (mfs_glog m).

(** [SetDaemonIDXattr] *)
Definition SetDaemonIDXattr (mi : Mpath) (tid : string) (env : Env)
  : outcome (option RegError * Env) :=
  if negb (nonempty tid) then Panics                    (* cos.Assert(tid != "") *)
  else
    (* Validate if mountpath already has daemon ID set. *)
    match loadDaemonIDXattr (mp_Path mi) env with
    | (inr err, env) => Returns (Some (ErrExternal err), env)
    | (inl mpathDaeID, env) =>
        if String.eqb mpathDaeID tid then Returns (None, env)
        else if nonempty mpathDaeID && negb (String.eqb mpathDaeID tid)
        then Returns (Some (ErrMpathIDMismatch tid mpathDaeID (mp_Path mi)), env)
        else
          let '(err, env) := SetXattr (mp_Path mi) daemonIDXattr tid env in
          Returns (ErrExternal <$> err, env)
    end.

(** [_checkExists] *)
Definition _checkExists (mi : Mpath) (availablePaths : gmap string Mpath) (m : MountedFS Env)
  : option RegError :=
  match availablePaths !! mp_Path mi with
  | Some existingMi => Some (ErrAlreadyExists mi existingMi)
  | None =>
      match mfs_fsIDs m !! mp_FsID mi with
      | Some existingPath =>
          if mfs_checkFsID m then Some (ErrFsidShared (mp_FsID mi) mi existingPath)
          else None
      | None => None
      end
  end.

(** [_addEnabled]: returns the error, the mountpath with its disks set, and
    the map with the mountpath in it.  [mi._string()] only fills the cached
    description and is not modelled. *)
Definition _addEnabled (mi : Mpath) (tid : string) (availablePaths : gmap string Mpath)
    (m : MountedFS Env) : outcome (option RegError * Mpath * gmap string Mpath * MountedFS Env) :=
  match ios_AddMpath (mp_Path mi) (mp_Fs mi) (mfs_env m) with
  | (inr err, env) => Returns (Some (ErrExternal err), mi, availablePaths, set_env env m)
  | (inl disks, env) =>
      let m := set_env env m in
      let add (m : MountedFS Env) :=
        let mi := set_Disks disks mi in
        Returns (None, mi, <[mp_Path mi := mi]> availablePaths, m) in
      if nonempty tid && negb MDWrite_never then
        match SetDaemonIDXattr mi tid (mfs_env m) with
        | Panics => Panics
        | Returns (Some err, env) => Returns (Some err, mi, availablePaths, set_env env m)
        | Returns (None, env) => add (set_env env m)
        end
      else add m
  end.

(** [addEnabledDisabled], with cloning. *)
Definition addEnabledDisabled (mi : Mpath) (tid : string) (enabled : bool)
    (m : MountedFS Env) : outcome (option RegError * Mpath * MountedFS Env) :=
  let '(availablePaths, disabledPaths) := cloneMPI m in
  let publish (mi : Mpath) (availablePaths disabledPaths : gmap string Mpath) (m : MountedFS Env) :=
    let m := set_fsIDs (<[mp_FsID mi := mp_Path mi]> (mfs_fsIDs m)) m in
    Returns (None, mi, updatePaths availablePaths disabledPaths m) in
  if enabled then
    match _checkExists mi availablePaths m with
    | Some err => Returns (Some err, mi, m)
    | None =>
        match _addEnabled mi tid availablePaths m with
        | Panics => Panics
        | Returns (Some err, mi, _, m) => Returns (Some err, mi, m)
        | Returns (None, mi, availablePaths, m) => publish mi availablePaths disabledPaths m
        end
    end
  else publish mi availablePaths (<[mp_Path mi := mi]> disabledPaths) m.

(** [newMountpath]: the mountpath of a path that is valid, accessible and on
    a filesystem that can be probed, with an empty bucket path cache.  The
    path digest is not modelled. *)
Definition newMountpath (mpath tid : string) (env : Env)
  : option Mpath * option RegError * Env :=
  match ValidateMpath mpath with
  | inr err => (None, Some (ErrExternal err), env)
  | inl cleanMpath =>
      match fs_Access cleanMpath env with
      | (Some _, env) => (None, Some (ErrNotFound tid mpath), env)
      | (None, env) =>
          match makeFsInfo cleanMpath env with
          | (inr err, env) => (None, Some (ErrExternal err), env)
          | (inl (fs, fsid), env) =>
              (Some (mkMpath (mkMountpathInfo cleanMpath ∅ (mkCapacity 0 0 0)) fs fsid []),
               None, env)
          end
      end
  end.

(** [Add] (used only in tests) *)
Definition Add (mpath tid : string) (m : MountedFS Env)
  : outcome (option Mpath * option RegError * MountedFS Env) :=
  match newMountpath mpath tid (mfs_env m) with
  | (_, Some err, env) => Returns (None, Some err, set_env env m)
  | (None, None, env) => Panics                        (* nil dereference *)
  | (Some mi, None, env) =>
      match addEnabledDisabled mi tid true (set_env env m) with
      | Panics => Panics
      | Returns (err, mi, m) => Returns (Some mi, err, m)
      end
  end.

(** [AddMpath]: the mountpath comes back also when adding it failed. *)
Definition AddMpath (mpath tid : string) (cb : Env → Env) (m : MountedFS Env)
  : outcome (option Mpath * option RegError * MountedFS Env) :=
  match newMountpath mpath tid (mfs_env m) with
  | (_, Some err, env) => Returns (None, Some err, set_env env m)
  | (None, None, env) => Panics                        (* nil dereference *)
  | (Some mi, None, env) =>
      match addEnabledDisabled mi tid true (set_env env m) with
      | Panics => Panics
      | Returns (err, mi, m) =>
          let err :=
            match err, mp_Disks mi with
            | None, [] => if negb TestingEnv then Some (ErrMpathNoDisks mi) else None
            | _, _ => err
            end in
          let m := match err with
                   | None => set_env (cb (mfs_env m)) m
                   | Some _ => m
                   end in
          let m := if negb (String.eqb (mp_Path mi) mpath)
                   then mfs_log (LogCleanPath mi mpath) m else m in
          Returns (Some mi, err, m)
      end
  end.

(** [enable]: [enabledMpath] is nil ([None]) when there was nothing to do and
    when it fails. *)
Definition enable (mpath cleanMpath tid : string) (m : MountedFS Env)
  : outcome (option Mpath * option RegError * MountedFS Env) :=
  let '(availablePaths, disabledPaths) := cloneMPI m in
  match availablePaths !! cleanMpath with
  | Some _ => Returns (None, None, m)                     (* nothing to do *)
  | None =>
      match disabledPaths !! cleanMpath with
      | None => Returns (None, Some (ErrNoMountpath mpath), m)
      | Some mi =>
          match _checkExists mi availablePaths m with
          | Some err => Returns (None, Some err, m)
          | None =>
              match _addEnabled mi tid availablePaths m with
              | Panics => Panics
              | Returns (Some err, _, _, m) => Returns (None, Some err, m)
              | Returns (None, mi, availablePaths, m) =>
                  let enabledMpath := mi in
                  let disabledPaths := delete cleanMpath disabledPaths in
                  let m := set_fsIDs (<[mp_FsID mi := mp_Path mi]> (mfs_fsIDs m)) m in
                  Returns (Some enabledMpath, None,
                           updatePaths availablePaths disabledPaths m)
              end
          end
      end
  end.

(** [Enable] (used only in tests) *)
Definition Enable (mpath : string) (m : MountedFS Env)
  : outcome (option Mpath * option RegError * MountedFS Env) :=
  match ValidateMpath mpath with
  | inr err => Returns (None, Some (ErrExternal err), m)
  | inl cleanMpath => enable mpath cleanMpath "" m
  end.

(** [EnableMpath]; [cb] runs under the lock when the mountpath was enabled
    or there was nothing to do. *)
Definition EnableMpath (mpath tid : string) (cb : Env → Env) (m : MountedFS Env)
  : outcome (option Mpath * option RegError * MountedFS Env) :=
  match ValidateMpath mpath with
  | inr err => Returns (None, Some (ErrExternal err), m)
  | inl cleanMpath =>
      match enable mpath cleanMpath tid m with
      | Panics => Panics
      | Returns (enabledMpath, None, m) =>
          Returns (enabledMpath, None, set_env (cb (mfs_env m)) m)
      | Returns (enabledMpath, Some err, m) => Returns (enabledMpath, Some err, m)
      end
  end.

(** [Remove]: searches [available] and, if not found, [disabled]. *)
Definition Remove (mpath : string) (cb : option (Env → Env)) (m : MountedFS Env)
  : option Mpath * option RegError * MountedFS Env :=
  match ValidateMpath mpath with
  | inr err => (None, Some (ErrExternal err), m)
  | inl cleanMpath =>
      (* Clear daemonID xattr if set *)
      match removeXattr cleanMpath daemonIDXattr (mfs_env m) with
      | (Some err, env) => (None, Some (ErrExternal err), set_env env m)
      | (None, env) =>
          let m := set_env env m in
          let '(availablePaths, disabledPaths) := cloneMPI m in
          match availablePaths !! cleanMpath with
          | None =>
              match disabledPaths !! cleanMpath with
              | None => (None, Some (ErrRemoveNonExisting mpath), m)
              | Some mpathInfo =>
                  let disabledPaths := delete cleanMpath disabledPaths in
                  let m := set_fsIDs (delete (mp_FsID mpathInfo) (mfs_fsIDs m)) m in
                  (Some mpathInfo, None, updatePaths availablePaths disabledPaths m)
              end
          | Some mpathInfo =>
              let m := set_env (ios_RemoveMpath cleanMpath (mfs_env m)) m in
              let availablePaths := delete cleanMpath availablePaths in
              let m := set_fsIDs (delete (mp_FsID mpathInfo) (mfs_fsIDs m)) m in
              let availCnt := size availablePaths in
              let m := mfs_log (if (availCnt =? 0)%nat then LogRemovedLast mpathInfo
                                else LogRemoved mpathInfo availCnt) m in
              let m := set_env (moveMarkers availablePaths mpathInfo (mfs_env m)) m in
              let m := updatePaths availablePaths disabledPaths m in
              let m := match cb with
                       | Some cb0 => if (0 <? availCnt)%nat
                                     then set_env (cb0 (mfs_env m)) m else m
                       | None => m
                       end in
              (Some mpathInfo, None, m)
          end
      end
  end.

(** [Disable]: returns the mountpath if it was moved from available to
    disabled, nil if it was disabled already. *)
Definition Disable (mpath : string) (cb : option (Env → Env)) (m : MountedFS Env)
  : option Mpath * option RegError * MountedFS Env :=
  match ValidateMpath mpath with
  | inr err => (None, Some (ErrExternal err), m)
  | inl cleanMpath =>
      let '(availablePaths, disabledPaths) := cloneMPI m in
      match availablePaths !! cleanMpath with
      | Some mpathInfo =>
          let disabledPaths := <[cleanMpath := mpathInfo]> disabledPaths in
          let m := set_env (ios_RemoveMpath cleanMpath (mfs_env m)) m in
          let availablePaths := delete cleanMpath availablePaths in
          let m := set_env (moveMarkers availablePaths mpathInfo (mfs_env m)) m in
          let m := updatePaths availablePaths disabledPaths m in
          let l := size availablePaths in
          let m :=
            if (l =? 0)%nat then mfs_log (LogDisabledLast mpathInfo) m
            else
              let m := match cb with
                       | Some cb0 => set_env (cb0 (mfs_env m)) m
                       | None => m
                       end in
              mfs_log (LogDisabled mpathInfo l) m in
          (Some mpathInfo, None, m)
      | None =>
          match disabledPaths !! cleanMpath with
          | Some _ => (None, None, m)
          | None => (None, Some (ErrNoMountpath mpath), m)
          end
      end
  end.

End Membership.

(** ** Statements and sample data *)

(** Sample buckets and mountpaths used in the worked examples. *)
Definition props_of (bid : N) : BucketProps :=
  mkBucketProps (mkMirrorConf 1 false) (mkECConf false) bid.
Definition bucket (name : string) (props : option BucketProps) : Bck :=
  mkBck name "ais" (mkNs "" "") props.
Definition mountpath (path : string) : MountpathInfo :=
  mkMountpathInfo path ∅ (mkCapacity 0 0 0).

(** What the specification says of [makeDelPathBck] followed by
    [MakePathBck]: the entry of [bid] is gone from the cache, the bucket
    directory is returned, and the next [MakePathBck] composes the path anew. *)
Definition evicts_and_recomputes (mi : MountpathInfo) (bck : Bck) (bid : N) : Prop :=
  bpc (makeDelPathBck mi bck bid).2 !! bid = None
  ∧ (makeDelPathBck mi bck bid).1 = spec_bucket_dir (Path mi) bck
  ∧ (MakePathBck (makeDelPathBck mi bck bid).2 bck).1 = spec_bucket_dir (Path mi) bck.

(** The mirror configuration changes materially: mirroring is switched on, or
    stays on with another number of copies. *)
Definition mirror_changed (bprops nprops : BucketProps) : Prop :=
  (Mirror_Enabled (Mirror bprops) = false ∧ Mirror_Enabled (Mirror nprops) = true)
  ∨ (Mirror_Enabled (Mirror bprops) = true ∧ Mirror_Enabled (Mirror nprops) = true
     ∧ Mirror_Copies (Mirror bprops) ≠ Mirror_Copies (Mirror nprops)).

(** The used percentages sampled by a refresh, one per mountpath. *)
Definition pcts_used (mis : list MountpathInfo) : list Z :=
  (λ mi, PctUsed (capacity mi)) <$> mis.

(** Statfs figures as a filesystem reports them: no more blocks available
    than there are, and a block count whose hundredfold fits 64 bits. *)
Definition Statfs_sane (st : Statfs_t) : Prop :=
  0 ≤ Bavail st ≤ Blocks st ∧ Blocks st * 100 < 2 ^ 64.

(** Scenario C of the specification: two mountpaths used at 92% and 96%,
    high watermark 90, out-of-space threshold 95. *)
Definition config_C : Config := mkConfig 90 75 95 600000000000 10000000000.
Definition world_C : World :=
  mkWorld ∅ {[ "/m1" := mkStatfs 1000 80 4096; "/m2" := mkStatfs 1000 40 4096 ]}
          [] 0 [] [].
Definition cache_0 : CapCache := mkCapCache 0 0 CapStatus_zero.

(** The actions [txnHandler] hands to one of the four handlers. *)
Definition txn_action (action : Action) : Prop :=
  action ∈ [ActCreateLB; ActRegisterCB; ActMakeNCopies; ActSetBprops; ActRenameLB].

(** The bucket of the request is bound to the BMD wherever the handler asks
    for it ([createBucket] does not). *)
Definition bucket_bound (action : Action) (c : txnServerCtx) (t : Target) : Prop :=
  action = ActCreateLB ∨ action = ActRegisterCB
  ∨ is_Some (BMD_Get (t_bmd t) (c_bck c)).

(** The record found is of the variant the handler asserts (and, for
    make-n-copies, carries the copy count of the message). *)
Definition record_fits (action : Action) (c : txnServerCtx) (txn : Txn) : Prop :=
  match action with
  | ActCreateLB | ActRegisterCB => True
  | ActMakeNCopies =>
      ∃ cur, txn_payload txn = txnMakeNCopies cur (parseNCopies (Value (c_msgInt c))).1
  | ActSetBprops => ∃ bprops nprops, txn_payload txn = txnSetBucketProps bprops nprops
  | ActRenameLB => ∃ bckFrom bckTo, txn_payload txn = txnRenameBucket bckFrom bckTo
  | _ => False
  end.

(** The BMD version the record waits for is installed before the timeout. *)
Definition bmd_arrives (txn : Txn) (timeout : Z) (t : Target) : bool :=
  (wait_bmd (txn_bmdVer txn) (t_now t + timeout) (t_bmd t) (t_now t)
            (t_incoming t)).1.1.1.

(** The time a commit spends asleep on its own account: a rename that has
    succeeded sleeps 200 milliseconds before it returns. *)
Definition slept (action : Action) (r : option aerror) : Z :=
  match action, r with
  | ActRenameLB, None => 200 * Millisecond
  | _, _ => 0
  end.

(** The first sentence of the commit rule as the specification words it: a
    commit whose UUID has no record returns [ErrTxnNotFound]. *)
Definition commit_without_record_is_not_found
    (action : Action) (c : txnServerCtx) (t : Target) : Prop :=
  c_phase c = ActCommit → t_transactions t !! c_uuid c = None →
  ∃ e t', txnHandler_do action c t = Returns (Some e, t')
          ∧ cause e = ErrTxnNotFound (c_uuid c).

(** A target with nothing on it: no bucket, no record, no mountpath. *)
Definition world_0 : World := mkWorld ∅ ∅ [] 0 [] [].
Definition target_0 : Target :=
  mkTarget "t1" ∅ (mkBMD 1 ∅) 1 0 [] None None [] world_0 [].
Definition ctx (uuid : string) (phase : Phase) (v : MsgValue) (bck : Bck) : txnServerCtx :=
  mkCtx uuid 1000 phase 1 1 (mkMsg v uuid 1) "p1" bck.

(** Bucket [b1], mirroring off, known to the BMD at version 1; the proposal
    to mirror it twice. *)
Definition mirror_off : BucketProps := mkBucketProps (mkMirrorConf 1 false) (mkECConf false) 7.
Definition mirror_2 : BucketProps := mkBucketProps (mkMirrorConf 2 true) (mkECConf false) 7.
Definition bmd_b1 : BMD := mkBMD 1 {[ Bck_key (bucket "b1" None) := mirror_off ]}.
Definition target_b1 (txns : gmap string Txn) (incoming : list (Z * BMD)) : Target :=
  mkTarget "t1" txns bmd_b1 1 0 incoming None None
           [mountpath "/m1"; mountpath "/m2"] world_0 [].
Definition txn_setprops (bmdVer : Z) : Txn :=
  mkTxn "u" ActBegin 1 bmdVer "p1" (bucket "b1" (Some mirror_off))
        (txnSetBucketProps mirror_off mirror_2).
Definition mirror_3 : BucketProps := mkBucketProps (mkMirrorConf 3 true) (mkECConf false) 7.

(** Two available mountpaths, then [/m1] is disabled; a [Get] that loads the
    available map between the two stores of the second [updatePaths]. *)
Definition both_available : MPI :=
  {[ "/m1" := mountpath "/m1"; "/m2" := mountpath "/m2" ]}.
Definition m2_available : MPI := {[ "/m2" := mountpath "/m2" ]}.
Definition m1_disabled : MPI := {[ "/m1" := mountpath "/m1" ]}.

Definition registry_torn : Registry :=
  Get_load_disabled (Some m2_available)
    (Get_load_available
       (updatePaths_store_available m2_available m1_disabled
          (updatePaths_store_disabled ∅
             (updatePaths_store_available both_available ∅ Registry_init)))).

(** What holds of the registry in every reachable state: the available
    pointer shows the last epoch; the disabled pointer shows the last epoch
    too, or the one before while a writer is between its two stores; and what
    the reader holds was published by some epoch, the disabled map by an epoch
    no more than one behind that of the available map. *)
Definition Registry_inv (r : Registry) : Prop :=
  ∃ n aN dN,
    epochs r !! n = Some (aN, dN) ∧ length (epochs r) = S n
    ∧ default ∅ (available r) = aN
    ∧ match writer r with
      | WIdle => default ∅ (disabled r) = dN
      | WStoredAvailable d =>
          d = dN ∧ ∃ m aM, n = S m ∧ epochs r !! m = Some (aM, default ∅ (disabled r))
      end
    ∧ match reader r with
      | RIdle => True
      | RLoadedAvailable a => ∃ i d', epochs r !! i = Some (default ∅ a, d')
      | RReturned a d =>
          ∃ i j a' d', epochs r !! i = Some (a, d') ∧ epochs r !! j = Some (a', d)
                       ∧ (i ≤ S j)%nat
      end.

(** The world after the calls [cs], as far as they left the directories
    alone: they are in the journal and have used up their turns of the fault
    schedule. *)
Definition called (cs : list Syscall) (w : World) : World :=
  mkWorld (dirs w) (statfs w) (drop (length cs) (faults w)) (clock w)
          (journal w ++ cs) (glog w).

(** What the specification says of an existing, non-empty directory when the
    BMD is there: creating the bucket directories fails. *)
Definition nonempty_dir_is_refused (cts : list string) (mi : MountpathInfo) (bck : Bck)
    (w : World) : Prop :=
  ∀ contentType name names,
    contentType ∈ cts →
    dirs w !! MakePathCT mi bck contentType = Some (name :: names) →
    is_Some (createBckDirs cts mi bck false w).1.2.

(** The registered content types, in some range order. *)
Definition content_types : list string := [ObjectType; WorkfileType; ECSliceType].

(** Mountpath [/m1] with a leftover workfile in the workfile directory of
    bucket [b1]. *)
Definition world_wk : World :=
  mkWorld {[ "/m1/@ais/b1/%wk" := ["put.tmp"] ]} ∅ [] 0 [] [].

(** Mountpath [/m1] with an object left in the object directory of [b1]. *)
Definition world_ob : World :=
  mkWorld {[ "/m1/@ais/b1/%ob" := ["obj1"] ]} ∅ [] 0 [] [].

(** The name [MoveToTrash] gives the trashed directory at clock reading
    [now]: [<mi.path>/$trash/$dir-<now>]. *)
Definition trash_name (mi : MountpathInfo) (now : Z) : string :=
  Join (MakePathTrash mi) ("$dir-" +:+ pretty now).

(** The lines [DestroyBucket] logs, one per mountpath that failed. *)
Definition is_destroy_failure (l : LogEntry) : bool :=
  match l with ErrorDestroyFailed _ _ _ => true | _ => false end.
Definition destroy_failures (log : list LogEntry) : nat :=
  length (filter (λ l, is_destroy_failure l = true) log).

(** What [MoveToTrash] returns on the mountpaths taken in turn: for each,
    the bucket directory it is given and its error, if any.  Each call is
    made in the world the calls before it have left, a failure having been
    logged under [op]; the world after the last is returned with the
    results. *)
Fixpoint trash_results (op : string) (mis : list MountpathInfo) (bck : Bck) (bid : N)
    (w : World) : option (list (string * option Errno) * World) :=
  match mis with
  | [] => Some ([], w)
  | mi :: mis =>
      let dir := (makeDelPathBck mi bck bid).1 in
      match MoveToTrash (makeDelPathBck mi bck bid).2 dir w with
      | None => None
      | Some (r, w) =>
          let w := match r with
                   | Some e => glog_write (ErrorDestroyFailed op dir e) w
                   | None => w
                   end in
          match trash_results op mis bck bid w with
          | None => None
          | Some (results, w) => Some ((dir, r) :: results, w)
          end
      end
  end.

(** The bucket directories that could not be moved to the trash, each with
    the error [MoveToTrash] returned for it, and the lines they are logged
    with. *)
Definition trash_failures (results : list (string * option Errno))
  : list (string * Errno) :=
  omap (λ dr, pair dr.1 <$> dr.2) results.
Definition failure_lines (op : string) (failed : list (string * Errno)) : list LogEntry :=
  (λ de, ErrorDestroyFailed op de.1 de.2) <$> failed.
Definition destroy_lines (log : list LogEntry) : list LogEntry :=
  filter (λ l, is_destroy_failure l = true) log.

(** The next call is not scheduled to fail. *)
Definition next_call_clean (w : World) : Prop :=
  match faults w with Some _ :: _ => False | _ => True end.

(** What the specification says of [DestroyBucket]: an error exactly when a
    majority of the mountpaths failed. *)
Definition destroy_fails_iff_majority (op : string) (mis : list MountpathInfo)
    (bck : Bck) (bid : N) (w : World) : Prop :=
  ∀ err mis' w',
    DestroyBucket op mis bck bid w = Some (err, mis', w') →
    (is_Some err
     ↔ (length mis < 2 * destroy_failures (drop (length (glog w)) (glog w')))%nat).

(** Bucket [b1] on three mountpaths; the third call of the run, the rename on
    the first mountpath, meets an I/O error. *)
Definition three_mountpaths : list MountpathInfo :=
  [mountpath "/m1"; mountpath "/m2"; mountpath "/m3"].
Definition world_b1_eio : World :=
  mkWorld {[ "/m1/@ais/b1" := ["%ob"]; "/m2/@ais/b1" := ["%ob"]; "/m3/@ais/b1" := ["%ob"] ]}
          ∅ [None; None; Some FaultEIO] 0 [] [].

(** The paths [RenameBucketDirs] works with on a mountpath, and the
    mountpath (its path cache) as each step leaves it. *)
Section RenamePaths.
Variables (bidFrom : N) (bckFrom bckTo : Bck).









End RenamePaths.


(** Renaming [b1] to [b2] on the three mountpaths, the third of which does not
    have [b1]. *)
Definition b1_7 : Bck := bucket "b1" (Some (props_of 7)).
Definition b2 : Bck := bucket "b2" None.

(** Scenario B of the specification: [b1] on [/m1] and [/m2], and the rename
    on [/m2] (the fourth call) made to fail; and the same with the rename back
    on [/m1] (the fifth call) failing too. *)
Definition world_B (faults : list (option Fault)) : World :=
  mkWorld {[ "/m1/@ais/b1" := ["%ob"]; "/m2/@ais/b1" := ["%ob"] ]} ∅ faults 0 [] [].
Definition two_mountpaths : list MountpathInfo := [mountpath "/m1"; mountpath "/m2"].



(** ** Statements about the further operations *)

(** Nothing was taken away: every directory that was there is there, and
    lists at least the names it listed. *)
Definition dirs_kept (d d' : gmap string (list string)) : Prop :=
  ∀ p entries, d !! p = Some entries →
               ∃ entries', d' !! p = Some entries' ∧ entries ⊆ entries'.

(** The path [p] lies below the directory [parent]. *)
Definition below (parent p : string) : Prop :=
  ∃ rest, rest ≠ "" ∧ p = Join parent rest.

(** Mountpath [/m1] holding bucket [b1] with two objects. *)
Definition world_b1 : World :=
  mkWorld {[ "/m1/@ais/b1" := ["obj1"; "obj2"] ]} ∅ [] 0 [] [].

(** The same when the second call, the one that makes the trash directory,
    fails on a read-only filesystem. *)
Definition world_b1_rofs : World :=
  mkWorld {[ "/m1/@ais/b1" := ["obj1"; "obj2"] ]} ∅ [None; Some FaultEROFS] 0 [] [].

(** What [DestroyBucket] does to the path cache of a mountpath: the entry of
    the bucket id is dropped where there was one, the other entries that
    were there stay, and the mountpath is where it was. *)
Definition bid_evicted (bid : N) (mi mi' : MountpathInfo) : Prop :=
  Path mi' = Path mi
  ∧ (is_Some (bpc mi !! bid) → bpc mi' !! bid = None)
  ∧ (∀ b, b ≠ bid → is_Some (bpc mi !! b) → bpc mi' !! b = bpc mi !! b).

(** Mountpath [/m1] with the directory of bucket id 7 cached, and another. *)
Definition m1_cached : MountpathInfo :=
  set_bpc {[ 7%N := "/m1/@ais/b1"; 9%N := "/m1/@ais/b9" ]} (mountpath "/m1").

(** Configuration figures as they are set: watermarks that are percentages
    and periods that are not negative, the refresh period at least the
    statistics period, both far below the range of [time.Duration]. *)
Definition Config_sane (config : Config) : Prop :=
  0 ≤ LRU_LowWM config ≤ 100 ∧ 0 ≤ LRU_HighWM config ≤ 100
  ∧ 0 ≤ LRU_OOS config ≤ 100
  ∧ 0 ≤ Periodic_StatsTime config ≤ LRU_CapacityUpdTime config
  ∧ LRU_CapacityUpdTime config < 2 ^ 55.

(** The capacities a refresh has left in the mountpaths. *)
Definition used_bytes (mis : list MountpathInfo) : list Z :=
  (λ mi, Used (capacity mi)) <$> mis.
Definition avail_bytes (mis : list MountpathInfo) : list Z :=
  (λ mi, Avail (capacity mi)) <$> mis.

(** Two mountpaths, the second on a filesystem that reports no blocks. *)
Definition world_noblocks : World :=
  mkWorld ∅ {[ "/m1" := mkStatfs 1000 80 4096; "/m2" := mkStatfs 0 0 4096 ]}
          [] 0 [] [].

(** Scenario C when the statfs of the second mountpath fails. *)
Definition world_C_eio : World :=
  mkWorld ∅ {[ "/m1" := mkStatfs 1000 80 4096; "/m2" := mkStatfs 1000 40 4096 ]}
          [None; Some FaultEIO] 0 [] [].

(** Scenario C after its refresh: the status, the mountpaths and the cache. *)
Definition cs_C : CapStatus :=
  mkCapStatus 7700480 491520 94 96
    (Some (ErrCapacityExceeded 90 96 7700480 8192000 true)) true.
Definition mis_C : list MountpathInfo :=
  [set_capacity (mkCapacity 3768320 327680 92) (mountpath "/m1");
   set_capacity (mkCapacity 3932160 163840 96) (mountpath "/m2")].
Definition cache_C : CapCache := mkCapCache 0 558700000000 cs_C.
Definition world_C' : World :=
  (NanoTime (called [SysStatfs "/m1"; SysStatfs "/m2"] world_C)).2.

(** A directory that is missing or empty. *)
Definition absent_or_empty (d : gmap string (list string)) (p : string) : Prop :=
  d !! p = None ∨ d !! p = Some [].

(** When [validateNprops] lets a proposal through, for a bucket with the
    properties [props] on a target with [mpathCount] available mountpaths and
    the capacity error [capErr]. *)
Definition nprops_acceptable (mpathCount : Z) (capErr : option error)
    (props nprops : BucketProps) : Prop :=
  (Mirror_Enabled (Mirror nprops) = true →
     Mirror_Copies (Mirror nprops) ≤ mpathCount
     ∧ (Mirror_Copies (Mirror props) < Mirror_Copies (Mirror nprops) → capErr = None))
  ∧ (EC_Enabled (EC nprops) = true → EC_Enabled (EC props) = false → capErr = None).

(** Every entry of a map of mountpaths is under the path of its mountpath. *)
Definition MPIx_keyed (a : gmap string Mpath) : Prop :=
  ∀ p mi, a !! p = Some mi → mp_Path mi = p.

(** The registry is well formed: both maps are keyed by path and no path is
    available and disabled at once. *)
Definition mfs_wf {Env : Type} (m : MountedFS Env) : Prop :=
  MPIx_keyed (Get m).1 ∧ MPIx_keyed (Get m).2 ∧ dom (Get m).1 ## dom (Get m).2.

(** The paths the registry knows, available or disabled. *)
Definition mfs_known {Env : Type} (m : MountedFS Env) : gset string :=
  dom (Get m).1 ∪ dom (Get m).2.

(** Collaborators for the examples: nothing to keep ([Env] is [unit]), paths
    that are clean as written, every mountpath on the disk [sda], no
    daemon id on any mountpath. *)
#[global] Instance collaborators_0 : Collaborators unit := {|
  ios_AddMpath := λ _ _ env, (inl ["sda"], env);
  ios_RemoveMpath := λ _ env, env;
  loadDaemonIDXattr := λ _ env, (inl "", env);
  SetXattr := λ _ _ _ env, (None, env);
  removeXattr := λ _ _ env, (None, env);
  moveMarkers := λ _ _ env, env;
  fs_Access := λ _ env, (None, env);
  makeFsInfo := λ path env, (inl ("ext4", (Z.of_nat (String.length path), 0)), env);
  ValidateMpath := λ mpath, inl mpath;
  MDWrite_never := false;
  TestingEnv := false |}.

(** The same on a machine whose I/O statistics find no disk under any
    mountpath. *)
Definition collaborators_nodisks : Collaborators unit := {|
  ios_AddMpath := λ _ _ env, (inl [], env);
  ios_RemoveMpath := λ _ env, env;
  loadDaemonIDXattr := λ _ env, (inl "", env);
  SetXattr := λ _ _ _ env, (None, env);
  removeXattr := λ _ _ env, (None, env);
  moveMarkers := λ _ _ env, env;
  fs_Access := λ _ env, (None, env);
  makeFsInfo := λ path env, (inl ("ext4", (Z.of_nat (String.length path), 0)), env);
  ValidateMpath := λ mpath, inl mpath;
  MDWrite_never := false;
  TestingEnv := false |}.

(** Two mountpaths on two filesystems, and a registry with both available. *)
Definition mpath_1 : Mpath := mkMpath (mountpath "/m1") "ext4" (1, 1) ["sda"].
Definition mpath_2 : Mpath := mkMpath (mountpath "/m2") "ext4" (2, 2) ["sdb"].
Definition mfs_12 (checkFsID : bool) : MountedFS unit :=
  mkMountedFS (Some {[ "/m1" := mpath_1; "/m2" := mpath_2 ]}) (Some ∅)
              {[ (1, 1) := "/m1"; (2, 2) := "/m2" ]} checkFsID () [].
(** The registry before anything was added. *)
Definition mfs_0 : MountedFS unit := mkMountedFS None None ∅ true () [].

(** A new mountpath [/m3] as [newMountpath] makes it. *)
Definition mpath_3 : Mpath :=
  mkMpath (mkMountpathInfo "/m3" ∅ (mkCapacity 0 0 0)) "ext4" (3, 0) [].



(** * Properties *)

(** ** Path composer *)

Lemma append_assoc (a b c : string) : (a +:+ b) +:+ c = a +:+ (b +:+ c).
Proof.
  induction a as [|x a IH]; [done|].
  change (String x ((a +:+ b) +:+ c) = String x (a +:+ (b +:+ c))). by rewrite IH.
Qed.

Lemma append_empty_r (a : string) : a +:+ "" = a.
Proof.
  induction a as [|x a IH]; [done|].
  change (String x (a +:+ "") = String x a). by rewrite IH.
Qed.

(** Without a content type the composer never reads the cache: the bucket
    directory is a function of the mountpath's path and of the bucket, and it
    is the path of the specification. *)
Lemma makePathBuf_bucket_dir (mi : MountpathInfo) (bck : Bck) :
  makePathBuf mi bck "" = spec_bucket_dir (Path mi) bck.
Proof.
  unfold makePathBuf, spec_bucket_dir, ns_prefix, Separator, prefProvider,
    prefNsUUID, prefNsName.
  cbn [nonempty Nat.ltb Nat.leb].
  destruct (Ns_IsGlobal (Bck_Ns bck)), (Ns_IsRemote (Bck_Ns bck)),
    (nonempty (Bck_Name bck)); cbn [negb Nat.ltb Nat.leb Nat.add];
    rewrite ?append_assoc, ?append_empty_r; reflexivity.
Qed.

Lemma MakePathBck_cached (mi : MountpathInfo) (bck : Bck) (props : BucketProps) (d : string) :
  Bck_Props bck = Some props → bpc mi !! BID props = Some d →
  MakePathBck mi bck = (d, mi).
Proof. intros Hp Hd. unfold MakePathBck. by rewrite Hp, Hd. Qed.

Lemma MakePathBck_uncached (mi : MountpathInfo) (bck : Bck) (props : BucketProps) :
  Bck_Props bck = Some props → bpc mi !! BID props = None →
  MakePathBck mi bck
  = (spec_bucket_dir (Path mi) bck,
     set_bpc (<[BID props := spec_bucket_dir (Path mi) bck]> (bpc mi)) mi).
Proof.
  intros Hp Hd. unfold MakePathBck. by rewrite Hp, Hd, makePathBuf_bucket_dir.
Qed.

Lemma MakePathBck_Path (mi : MountpathInfo) (bck : Bck) :
  Path (MakePathBck mi bck).2 = Path mi.
Proof.
  unfold MakePathBck. destruct (Bck_Props bck); [|done].
  by destruct (bpc mi !! _).
Qed.

Lemma makeDelPathBck_Path (mi : MountpathInfo) (bck : Bck) (bid : N) :
  Path (makeDelPathBck mi bck bid).2 = Path mi.
Proof.
  unfold makeDelPathBck. destruct (bpc mi !! bid); [done|]. apply MakePathBck_Path.
Qed.

(** C6, as amended: for a bucket that carries its bucket id, [makeDelPathBck]
    returns the cached directory and removes the entry when there is one, and
    returns the composed bucket directory when there is none; either way the
    next [MakePathBck] on the mountpath returns the path composed from its
    inputs, not a value cached before the call. *)
Theorem makeDelPathBck_then_MakePathBck
    (mi : MountpathInfo) (bck : Bck) (props : BucketProps) :
  Bck_Props bck = Some props →
  (MakePathBck (makeDelPathBck mi bck (BID props)).2 bck).1
    = spec_bucket_dir (Path mi) bck
  ∧ (∀ d, bpc mi !! BID props = Some d →
          (makeDelPathBck mi bck (BID props)).1 = d
          ∧ bpc (makeDelPathBck mi bck (BID props)).2 !! BID props = None)
  ∧ (bpc mi !! BID props = None →
     (makeDelPathBck mi bck (BID props)).1 = spec_bucket_dir (Path mi) bck).
Proof.
  intros Hp. unfold makeDelPathBck.
  destruct (bpc mi !! BID props) as [d|] eqn:Hd.
  - split_and!.
    + cbn [snd]. erewrite MakePathBck_uncached; [done..|].
      cbn. apply lookup_delete_eq.
    + intros d' [= <-]. split; [done|]. cbn. apply lookup_delete_eq.
    + done.
  - rewrite (MakePathBck_uncached _ _ _ Hp Hd). cbn [fst snd]. split_and!.
    + erewrite MakePathBck_cached; [done..|]. cbn. apply lookup_insert_eq.
    + done.
    + done.
Qed.

Lemma makeDelPathBck_then_MakePathBck_witness :
  let mi := mkMountpathInfo "/m1" {[ 7%N := "/m1/@ais/old" ]} (mkCapacity 0 0 0) in
  let bck := bucket "b1" (Some (props_of 7)) in
  (MakePathBck (makeDelPathBck mi bck 7%N).2 bck).1 = "/m1/@ais/b1"
  ∧ (makeDelPathBck mi bck 7%N).1 = "/m1/@ais/old".
Proof.
  pose proof (makeDelPathBck_then_MakePathBck
                (mkMountpathInfo "/m1" {[ 7%N := "/m1/@ais/old" ]} (mkCapacity 0 0 0))
                (bucket "b1" (Some (props_of 7))) (props_of 7) eq_refl) as (H1 & H2 & _).
  split; [exact H1|]. exact (proj1 (H2 "/m1/@ais/old" eq_refl)).
Defined.

(** C6, as stated, fails on a mountpath that has not cached the bucket: the
    call goes through [MakePathBck], which memoises the path, so that the
    entry of the bucket id is in the cache after [makeDelPathBck]. *)
Lemma makeDelPathBck_caches_when_absent :
  ¬ evicts_and_recomputes (mountpath "/m1") (bucket "b1" (Some (props_of 7))) 7.
Proof. intros (H & _). vm_compute in H. discriminate. Qed.

(** ** Capacity monitor *)

(** C9: with no available mountpath [RefreshCapStatus] returns
    [ErrNoMountpaths] and nothing else happens: it does not panic on the
    division by the number of mountpaths, it issues no statfs (the world and
    its journal are as before), and the cached status and the refresh times
    are left as they were.  It is the only way for it to return
    [ErrNoMountpaths]. *)
Theorem RefreshCapStatus_no_mountpaths
    (gco : Config) (config : option Config) (mpcap : option (gmap string Capacity))
    (cache : CapCache) (w : World) :
  RefreshCapStatus gco [] config mpcap cache w
  = Returns ((CapStatus_zero, Some ErrNoMountpaths), [], mpcap, cache, w)
  ∧ ∀ mis cs mis' mpcap' cache' w',
      RefreshCapStatus gco mis config mpcap cache w
      = Returns ((cs, Some ErrNoMountpaths), mis', mpcap', cache', w') →
      mis = [] ∧ cache' = cache ∧ w' = w ∧ journal w' = journal w.
Proof.
  split; [reflexivity|].
  intros mis cs mis' mpcap' cache' w' H. unfold RefreshCapStatus in H.
  destruct mis as [|mi mis].
  { cbn [length Nat.eqb] in H. by simplify_eq. }
  cbn [length Nat.eqb] in H. cbv zeta in H.
  destruct (RefreshCapStatus_range _ _ _ _ _) as [[[[[cs1 [e|]] mis1] mpcap1] w1]|];
    [discriminate| |discriminate].
  destruct (_ =? 0); [discriminate|]. by destruct (NanoTime w1).
Qed.

Lemma wrap_i32_small (x : Z) : - 2 ^ 31 ≤ x < 2 ^ 31 → wrap_i32 x = x.
Proof.
  intros H. unfold wrap_i32, wrap_s. change (2 ^ (32 - 1)) with (2 ^ 31).
  rewrite Z.mod_small; lia.
Qed.

Lemma getCapacity_refresh (mi : MountpathInfo) (config : Config) (w : World)
    (c : Capacity) (mi' : MountpathInfo) (w' : World) :
  getCapacity mi config true w = Returns ((c, None), mi', w') →
  mi' = set_capacity c mi ∧ statfs w' = statfs w
  ∧ ∃ st, statfs w !! Path mi = Some st ∧ Blocks st ≠ 0
          ∧ PctUsed c = wrap_i32
              (let pct := wrap_u64 (wrap_u64 (Blocks st - Bavail st) * 100) / Blocks st in
               if wrap_u64 (wrap_u64 (LRU_HighWM config) - 1) <=? pct
               then wrap_u64 (ceil_div (wrap_u64 (Blocks st - Bavail st) * 100) (Blocks st))
               else pct).
Proof.
  unfold getCapacity, Statfs, enter. cbn [negb].
  destruct (faults w) as [|[f|] fs]; cbn [dirs statfs faults];
    try (destruct (statfs w !! Path mi) as [st|] eqn:Hst); try discriminate;
    (destruct (Blocks st =? 0) eqn:Hb; [discriminate|]);
    intros [= <- <- <-]; (split; [done|]); (split; [done|]);
    exists st; (split; [done|]); (split; [lia|]); done.
Qed.

(** The loop accumulates the sampled figures of every mountpath. *)
Lemma RefreshCapStatus_range_acc (mis : list MountpathInfo) :
  ∀ (config : Config) (mpcap : option (gmap string Capacity)) (cs0 : CapStatus) (w : World)
    (cs : CapStatus) (mis' : list MountpathInfo) (mpcap' : option (gmap string Capacity))
    (w' : World),
  RefreshCapStatus_range mis config mpcap cs0 w = Returns ((cs, None), mis', mpcap', w') →
  length mis' = length mis
  ∧ PctAvg cs = foldl (λ a p, wrap_i32 (a + p)) (PctAvg cs0) (pcts_used mis')
  ∧ PctMax cs = foldl MaxI32 (PctMax cs0) (pcts_used mis')
  ∧ statfs w' = statfs w.
Proof.
  induction mis as [|mi mis IH]; intros config mpcap cs0 w cs mis' mpcap' w' H.
  - cbn in H. by simplify_eq.
  - cbn [RefreshCapStatus_range] in H.
    destruct (getCapacity mi config true w) as [[[[c [e|]] mi1] w1]|] eqn:Hg;
      try discriminate.
    destruct (RefreshCapStatus_range mis _ _ _ _)
      as [[[[[cs2 e2] mis2] mpcap2] w2]|] eqn:Hr; try discriminate.
    simplify_eq.
    apply IH in Hr as (Hlen & Havg & Hmax & Hst).
    apply getCapacity_refresh in Hg as (-> & Hst1 & _).
    cbn [length pcts_used fmap list_fmap foldl capacity set_capacity] in *.
    split_and!; [congruence|done|done|congruence].
Qed.

Lemma foldl_wrap_i32_sum (pcts : list Z) :
  ∀ a, 0 ≤ a → Forall (λ p, 0 ≤ p ≤ 100) pcts →
       a + 100 * Z.of_nat (length pcts) < 2 ^ 31 →
       foldl (λ a p, wrap_i32 (a + p)) a pcts = a + foldr Z.add 0 pcts
       ∧ 0 ≤ foldr Z.add 0 pcts ≤ 100 * Z.of_nat (length pcts).
Proof.
  induction pcts as [|p pcts IH]; intros a Ha Hall Hb; cbn [foldl foldr length] in *.
  - lia.
  - inversion Hall as [|? ? Hp Hall']; subst.
    rewrite wrap_i32_small by lia.
    destruct (IH (a + p)) as [-> ?]; [lia|done|lia|]. lia.
Qed.

Lemma foldl_MaxI32_ub (pcts : list Z) :
  ∀ a, a ≤ foldl MaxI32 a pcts ∧ ∀ p, p ∈ pcts → p ≤ foldl MaxI32 a pcts.
Proof.
  induction pcts as [|q pcts IH]; intros a; cbn [foldl].
  - split; [lia|]. intros p Hp. by apply elem_of_nil in Hp.
  - destruct (IH (MaxI32 a q)) as [H1 H2].
    assert (a ≤ MaxI32 a q ∧ q ≤ MaxI32 a q) as [? ?]
      by (unfold MaxI32; destruct (a <? q) eqn:E; lia).
    split; [lia|]. intros p [->|Hp]%elem_of_cons; [lia|]. by apply H2.
Qed.

Lemma foldl_MaxI32_elem (pcts : list Z) :
  ∀ a, foldl MaxI32 a pcts = a ∨ foldl MaxI32 a pcts ∈ pcts.
Proof.
  induction pcts as [|q pcts IH]; intros a; cbn [foldl]; [by left|].
  destruct (IH (MaxI32 a q)) as [->|H].
  - unfold MaxI32. destruct (a <? q); [right; left|by left].
  - right. by right.
Qed.

(** C3: after a refresh that succeeds, with the sampled used percentages
    [pct_used_i] of the [n] available mountpaths (each between 0 and 100, and
    [n] small enough for their sum to fit the 32-bit accumulator):
    [PctAvg = floor (sum pct_used_i / n)], [PctMax = max pct_used_i], [OOS]
    holds exactly when [PctMax] is above the out-of-space threshold, and [Err]
    is set whenever [PctMax] is above the high watermark or [OOS] holds.
    The set of mountpaths is not empty, for the refresh succeeded. *)
Theorem RefreshCapStatus_aggregate
    (gco : Config) (mis : list MountpathInfo) (config : option Config)
    (mpcap : option (gmap string Capacity)) (cache : CapCache) (w : World)
    (cs : CapStatus) (mis' : list MountpathInfo)
    (mpcap' : option (gmap string Capacity)) (cache' : CapCache) (w' : World) :
  RefreshCapStatus gco mis config mpcap cache w
    = Returns ((cs, None), mis', mpcap', cache', w') →
  Forall (λ p, 0 ≤ p ≤ 100) (pcts_used mis') →
  Z.of_nat (length mis) ≤ 21474836 →
  let n := Z.of_nat (length mis) in
  let high := LRU_HighWM (default gco config) in
  let oos := LRU_OOS (default gco config) in
  0 < n ∧ length (pcts_used mis') = length mis
  ∧ PctAvg cs = foldr Z.add 0 (pcts_used mis') / n
  ∧ (PctMax cs ∈ pcts_used mis' ∧ ∀ p, p ∈ pcts_used mis' → p ≤ PctMax cs)
  ∧ (OOS cs = true ↔ oos < PctMax cs)
  ∧ (high < PctMax cs ∨ OOS cs = true → is_Some (Err cs))
  ∧ capStatus cache' = cs.
Proof.
  intros H Hall Hn n high oos. subst n. unfold RefreshCapStatus in H.
  destruct (length mis =? 0)%nat eqn:Hlen; [discriminate|].
  apply Nat.eqb_neq in Hlen.
  destruct (RefreshCapStatus_range mis _ _ _ _)
    as [[[[[cs1 [e|]] mis1] mpcap1] w1]|] eqn:Hr; try discriminate.
  apply RefreshCapStatus_range_acc in Hr as (Hl & Havg & Hmax & _).
  rewrite (wrap_i32_small (Z.of_nat (length mis))) in H by lia.
  destruct (Z.of_nat (length mis) =? 0) eqn:Hz; [discriminate|].
  cbn [NanoTime] in H. simplify_eq.
  cbn [PctAvg PctMax OOS Err capStatus] in *.
  assert (Hlen' : length (pcts_used mis') = length mis)
    by (unfold pcts_used; by rewrite length_fmap).
  destruct (foldl_wrap_i32_sum (pcts_used mis') 0) as [Hsum Hrange];
    [done|done|cbn; lia|].
  cbn [PctAvg PctMax CapStatus_zero] in Havg, Hmax.
  rewrite Hsum in Havg. rewrite Z.add_0_l in Havg.
  assert (Hpos : 0 < Z.of_nat (length mis)) by lia.
  split_and!.
  - done.
  - done.
  - rewrite Havg. unfold go_div. rewrite Z.quot_div_nonneg by lia.
    assert (Hq : 0 ≤ foldr Z.add 0 (pcts_used mis') / Z.of_nat (length mis) ≤ 100).
    { split; [apply Z.div_pos; lia|]. apply Z.div_le_upper_bound; lia. }
    revert Hq. generalize (foldr Z.add 0 (pcts_used mis') / Z.of_nat (length mis)).
    intros q Hq. apply wrap_i32_small. lia.
  - rewrite Hmax. destruct (foldl_MaxI32_elem (pcts_used mis') 0) as [H0|Hin]; [|done].
    (* the maximum is 0, so every percentage is 0, and there is one *)
    rewrite H0. destruct (pcts_used mis') as [|p ps] eqn:Hps; [cbn in Hlen'; lia|].
    pose proof (proj2 (foldl_MaxI32_ub (p :: ps) 0) p ltac:(left)) as Hle.
    rewrite H0 in Hle. inversion Hall; subst. assert (p = 0) as -> by lia. left.
  - rewrite Hmax. intros p Hp. by apply foldl_MaxI32_ub.
  - by rewrite Z.ltb_lt.
  - subst high oos. intros [Hh|Ho].
    + apply Z.ltb_lt in Hh. rewrite Hh, orb_true_r. by eexists.
    + rewrite Ho. by eexists.
  - done.
Qed.

(** Scenario C of the specification, through the theorem: 92% and 96% used
    give an average of 94, a maximum of 96, out of space, and an error. *)
Lemma RefreshCapStatus_aggregate_witness :
  ∃ cs mis' cache' w',
    RefreshCapStatus config_C [mountpath "/m1"; mountpath "/m2"] None None cache_0 world_C
      = Returns ((cs, None), mis', None, cache', w')
    ∧ pcts_used mis' = [92; 96]
    ∧ PctAvg cs = (92 + 96) / 2 ∧ PctMax cs = 96 ∧ OOS cs = true ∧ is_Some (Err cs).
Proof.
  do 4 eexists. split; [vm_compute; reflexivity|].
  edestruct (RefreshCapStatus_aggregate config_C [mountpath "/m1"; mountpath "/m2"]
               None None cache_0 world_C)
    as (_ & _ & Havg & _ & Hoos & Herr & _).
  { vm_compute. reflexivity. }
  { vm_compute. repeat constructor; discriminate. }
  { vm_compute. discriminate. }
  split; [reflexivity|]. split; [exact Havg|]. split; [reflexivity|].
  split; [apply Hoos; reflexivity|]. apply Herr. left. reflexivity.
Defined.

(** The sampled percentage of a filesystem with sane statfs figures is
    between 0 and 100. *)
Lemma getCapacity_pct_range (mi : MountpathInfo) (config : Config) (w : World)
    (c : Capacity) (mi' : MountpathInfo) (w' : World) :
  getCapacity mi config true w = Returns ((c, None), mi', w') →
  (∀ st, statfs w !! Path mi = Some st → Statfs_sane st) →
  0 ≤ PctUsed c ≤ 100.
Proof.
  intros (_ & _ & st & Hst & Hb & ->)%getCapacity_refresh Hsane.
  destruct (Hsane st Hst) as [[Ha1 Ha2] Hbl].
  assert (Hpos : 0 < Blocks st) by lia.
  assert (Hu : wrap_u64 (Blocks st - Bavail st) = Blocks st - Bavail st)
    by (unfold wrap_u64; apply Z.mod_small; lia).
  rewrite Hu.
  assert (Hu2 : wrap_u64 ((Blocks st - Bavail st) * 100) = (Blocks st - Bavail st) * 100)
    by (unfold wrap_u64; apply Z.mod_small; lia).
  rewrite Hu2.
  assert (H1 : 0 ≤ (Blocks st - Bavail st) * 100 / Blocks st ≤ 100).
  { split; [apply Z.div_pos; lia|]. apply Z.div_le_upper_bound; lia. }
  assert (H2 : 0 ≤ ceil_div ((Blocks st - Bavail st) * 100) (Blocks st) ≤ 100).
  { unfold ceil_div.
    assert (-100 ≤ - ((Blocks st - Bavail st) * 100) / Blocks st)
      by (apply Z.div_le_lower_bound; lia).
    assert (- ((Blocks st - Bavail st) * 100) / Blocks st ≤ 0); [|lia].
    apply Z.div_le_upper_bound; lia. }
  cbv zeta.
  revert H1 H2.
  generalize ((Blocks st - Bavail st) * 100 / Blocks st).
  generalize (ceil_div ((Blocks st - Bavail st) * 100) (Blocks st)).
  intros q2 q1 H1 H2.
  assert (Hw : wrap_u64 q2 = q2) by (unfold wrap_u64; apply Z.mod_small; lia).
  rewrite Hw.
  destruct (_ <=? q1); rewrite wrap_i32_small; lia.
Qed.

Lemma RefreshCapStatus_range_pcts (mis : list MountpathInfo) :
  ∀ (config : Config) (mpcap : option (gmap string Capacity)) (cs0 : CapStatus) (w : World)
    (cs : CapStatus) (mis' : list MountpathInfo) (mpcap' : option (gmap string Capacity))
    (w' : World),
  RefreshCapStatus_range mis config mpcap cs0 w = Returns ((cs, None), mis', mpcap', w') →
  (∀ path st, statfs w !! path = Some st → Statfs_sane st) →
  Forall (λ p, 0 ≤ p ≤ 100) (pcts_used mis').
Proof.
  induction mis as [|mi mis IH]; intros config mpcap cs0 w cs mis' mpcap' w' H Hsane.
  - cbn in H. simplify_eq. constructor.
  - cbn [RefreshCapStatus_range] in H.
    destruct (getCapacity mi config true w) as [[[[c [e|]] mi1] w1]|] eqn:Hg;
      try discriminate.
    destruct (RefreshCapStatus_range mis _ _ _ _)
      as [[[[[cs2 e2] mis2] mpcap2] w2]|] eqn:Hr; try discriminate.
    simplify_eq.
    pose proof (getCapacity_pct_range _ _ _ _ _ _ Hg (Hsane (Path mi))) as Hc.
    apply getCapacity_refresh in Hg as (-> & Hst1 & _).
    constructor; [exact Hc|].
    eapply IH; [exact Hr|]. intros path st. rewrite Hst1. apply Hsane.
Qed.

(** On filesystems with sane statfs figures every percentage a refresh
    samples is between 0 and 100. *)
Lemma RefreshCapStatus_pcts_range
    (gco : Config) (mis : list MountpathInfo) (config : option Config)
    (mpcap : option (gmap string Capacity)) (cache : CapCache) (w : World)
    (cs : CapStatus) (mis' : list MountpathInfo)
    (mpcap' : option (gmap string Capacity)) (cache' : CapCache) (w' : World) :
  RefreshCapStatus gco mis config mpcap cache w
    = Returns ((cs, None), mis', mpcap', cache', w') →
  (∀ path st, statfs w !! path = Some st → Statfs_sane st) →
  Forall (λ p, 0 ≤ p ≤ 100) (pcts_used mis').
Proof.
  intros H Hsane. unfold RefreshCapStatus in H.
  destruct (length mis =? 0)%nat; [discriminate|].
  destruct (RefreshCapStatus_range mis _ _ _ _)
    as [[[[[cs1 [e|]] mis1] mpcap1] w1]|] eqn:Hr; try discriminate.
  destruct (_ =? 0); [discriminate|]. cbn [NanoTime] in H. simplify_eq.
  eapply RefreshCapStatus_range_pcts; eauto.
Qed.

(** ** Transaction coordinator *)

Lemma wait_bmd_spec (need deadline : Z) (incoming : list (Z * BMD)) :
  ∀ (bmd : BMD) (now : Z) (ok : bool) (bmd' : BMD) (now' : Z) (rest : list (Z * BMD)),
  wait_bmd need deadline bmd now incoming = (ok, bmd', now', rest) →
  (if ok then need ≤ BMD_version bmd' else BMD_version bmd' < need ∧ deadline ≤ now')
  ∧ now ≤ now' ≤ Z.max now deadline
  ∧ BMD_version bmd ≤ BMD_version bmd'.
Proof.
  induction incoming as [|[at_time newBMD] incoming IH];
    intros bmd now ok bmd' now' rest H; cbn [wait_bmd] in H.
  - destruct (need <=? BMD_version bmd) eqn:E; simplify_eq; lia.
  - destruct (need <=? BMD_version bmd) eqn:E; [simplify_eq; lia|].
    destruct (at_time <=? deadline) eqn:E2; [|simplify_eq; lia].
    apply IH in H as (H1 & H2 & H3).
    split; [done|]. destruct (BMD_version bmd <? BMD_version newBMD) eqn:E3; lia.
Qed.

(** [wait] returns either with the version installed or with
    [ErrTxnBmdTimeout] at the deadline; it touches nothing but the BMD, the
    clock and the table. *)
Lemma transactions_wait_spec (txn : Txn) (timeout : Z) (t : Target)
    (r : option aerror) (t' : Target) :
  transactions_wait txn timeout t = (r, t') →
  side_effects t' = side_effects t ∧ t_si t' = t_si t
  ∧ t_fastRenameErr t' = t_fastRenameErr t
  ∧ t_now t ≤ t_now t' ≤ Z.max (t_now t) (t_now t + timeout)
  ∧ (if bmd_arrives txn timeout t
     then r = None ∧ txn_bmdVer txn ≤ BMD_version (t_bmd t')
     else r = Some (ErrTxnBmdTimeout (txn_uuid txn))
          ∧ BMD_version (t_bmd t') < txn_bmdVer txn
          ∧ t_now t + timeout ≤ t_now t'
          ∧ t_transactions t' = t_transactions t).
Proof.
  unfold transactions_wait, bmd_arrives.
  destruct (wait_bmd _ _ _ _ _) as [[[ok bmd] now] rest] eqn:Hw.
  apply wait_bmd_spec in Hw as (H1 & H2 & H3). cbn [fst].
  destruct ok; intros [= <- <-]; cbn; split_and!; try done; lia.
Qed.

Lemma remirror_iff (bprops nprops : BucketProps) :
  remirror bprops nprops = true ↔ mirror_changed bprops nprops.
Proof.
  unfold remirror, mirror_changed.
  destruct (Mirror_Enabled (Mirror bprops)), (Mirror_Enabled (Mirror nprops));
    cbn [negb andb]; rewrite ?negb_true_iff, ?Z.eqb_neq; intuition congruence.
Qed.

Lemma Bck_Init_inl (bmd : BMD) (bck bck' : Bck) :
  Bck_Init bmd bck = inl bck' →
  ∃ props, BMD_Get bmd bck = Some props
           ∧ bck' = mkBck (Bck_Name bck) (Bck_Provider bck) (Bck_Ns bck) (Some props).
Proof.
  unfold Bck_Init. destruct (BMD_Get bmd bck) as [props|]; [|done].
  intros [= <-]. by exists props.
Qed.

(** C10: a set-props commit that has found its record and seen the BMD
    version arrive aborts PutCopies and renews MakeNCopies (with the new copy
    count) when mirroring is switched on or stays on with another copy count,
    and calls neither otherwise; in particular it calls neither when the new
    properties disable mirroring. *)
Theorem setBucketProps_commit_remirror
    (c : txnServerCtx) (t : Target) (bck : Bck) (txn : Txn)
    (bprops nprops : BucketProps) :
  c_phase c = ActCommit →
  Bck_Init (t_bmd t) (c_bck c) = inl bck →
  t_transactions t !! c_uuid c = Some txn →
  txn_payload txn = txnSetBucketProps bprops nprops →
  bmd_arrives txn (c_timeout c) t = true →
  ∃ t' calls,
    setBucketProps c t = Returns (None, t')
    ∧ t_effects t' = t_effects t ++ calls
    ∧ (mirror_changed bprops nprops →
       calls = [DoAbort ActPutCopies bck;
                RenewBckMakeNCopies bck (Mirror_Copies (Mirror nprops))])
    ∧ (¬ mirror_changed bprops nprops → calls = [])
    ∧ (Mirror_Enabled (Mirror nprops) = false → calls = []).
Proof.
  intros Hphase Hinit Hfind Hpay Hwait. unfold setBucketProps.
  rewrite Hinit. cbn [c_phase set_c_bck c_uuid c_timeout c_bck]. rewrite Hphase.
  unfold transactions_find. rewrite Hfind, Hpay.
  destruct (transactions_wait txn (c_timeout c) t) as [r t1] eqn:Hw.
  apply transactions_wait_spec in Hw as (Hse & _ & _ & _ & Hr).
  rewrite Hwait in Hr. destruct Hr as [-> _].
  injection Hse as Heff _ _.
  destruct (remirror bprops nprops) eqn:Hre.
  - eexists _, _. split; [reflexivity|]. cbn [t_effects effect].
    rewrite Heff, <- app_assoc. split; [reflexivity|].
    apply remirror_iff in Hre. split_and!; [done|done|].
    intros Hoff. destruct Hre as [[_ ?]|(_ & ? & _)]; congruence.
  - exists t1, []. rewrite app_nil_r. split_and!; try done.
    intros Hch%remirror_iff. congruence.
Qed.

Lemma setBucketProps_commit_remirror_witness :
  ∃ t', setBucketProps (ctx "u" ActCommit ValueOther (bucket "b1" None))
                       (target_b1 {[ "u" := txn_setprops 1 ]} [])
        = Returns (None, t')
        ∧ t_effects t' = [DoAbort ActPutCopies (bucket "b1" (Some mirror_off));
                          RenewBckMakeNCopies (bucket "b1" (Some mirror_off)) 2].
Proof.
  destruct (setBucketProps_commit_remirror
              (ctx "u" ActCommit ValueOther (bucket "b1" None))
              (target_b1 {[ "u" := txn_setprops 1 ]} [])
              (bucket "b1" (Some mirror_off)) (txn_setprops 1) mirror_off mirror_2)
    as (t' & calls & H1 & H2 & H3 & _); try (vm_compute; reflexivity).
  exists t'. split; [exact H1|]. rewrite H2, H3; [reflexivity|]. left. by split.
Defined.

Ltac commit_case Hphase :=
  cbn [c_phase set_c_bck c_uuid c_timeout c_bck c_msgInt];
  rewrite ?Hphase; unfold transactions_find.

(** C4, as amended: a commit whose bucket is bound to the BMD (where the
    handler binds it) and whose UUID has no record returns [ErrTxnNotFound],
    annotated with the node, and changes nothing.  A commit that finds a
    record of its handler's variant waits for the BMD version of the record:
    it goes on only once the installed version is at least that version, and
    when the timeout passes first it returns [ErrTxnBmdTimeout], annotated,
    with no side effect, when the deadline is reached and no later.
    Whatever a commit returns, it has had a side effect only if it found the
    record and the installed BMD version is at least the version of the
    record; and it returns no later than the deadline of the wait, the 200
    milliseconds for which a successful rename sleeps apart. *)
Theorem commit_waits_for_bmd (action : Action) (c : txnServerCtx) (t : Target) :
  c_phase c = ActCommit →
  txn_action action →
  (t_transactions t !! c_uuid c = None → bucket_bound action c t →
   txnHandler_do action c t
   = Returns (Some (Errorf_txn (t_si t) None (ErrTxnNotFound (c_uuid c))), t))
  ∧ (∀ txn, t_transactions t !! c_uuid c = Some txn → bucket_bound action c t →
            record_fits action c txn → bmd_arrives txn (c_timeout c) t = false →
            ∃ t', txnHandler_do action c t
                  = Returns (Some (Errorf_txn (t_si t) (Some txn)
                                     (ErrTxnBmdTimeout (txn_uuid txn))), t')
                  ∧ side_effects t' = side_effects t
                  ∧ BMD_version (t_bmd t') < txn_bmdVer txn
                  ∧ t_now t + c_timeout c ≤ t_now t'
                    ≤ Z.max (t_now t) (t_now t + c_timeout c))
  ∧ (∀ r t', txnHandler_do action c t = Returns (r, t') →
             side_effects t' ≠ side_effects t →
             ∃ txn, t_transactions t !! c_uuid c = Some txn
                    ∧ bmd_arrives txn (c_timeout c) t = true
                    ∧ txn_bmdVer txn ≤ BMD_version (t_bmd t'))
  ∧ (∀ r t', txnHandler_do action c t = Returns (r, t') →
             t_now t ≤ t_now t' - slept action r
             ≤ Z.max (t_now t) (t_now t + c_timeout c)).
Proof.
  intros Hphase Hact. refine (conj _ (conj _ (conj _ _))).
  - intros Hnone Hbound.
    assert (Hinit : action = ActCreateLB ∨ action = ActRegisterCB
                    ∨ ∃ bck, Bck_Init (t_bmd t) (c_bck c) = inl bck).
    { destruct Hbound as [?|[?|[props Hp]]]; [by left|by right; left|].
      right; right. unfold Bck_Init. rewrite Hp. by eexists. }
    unfold txn_action in Hact. 
    repeat (apply elem_of_cons in Hact as [->|Hact]); [..|by apply elem_of_nil in Hact];
      cbn [txnHandler_do]; unfold createBucket, makeNCopies, setBucketProps, renameBucket;
      try (destruct Hinit as [?|[?|[bck Hb]]]; [done|done|rewrite Hb]);
      commit_case Hphase; rewrite Hnone; try done.
    by destruct (parseNCopies _).
  - intros txn Hsome Hbound Hfit Hlate.
    assert (Hinit : action = ActCreateLB ∨ action = ActRegisterCB
                    ∨ ∃ bck, Bck_Init (t_bmd t) (c_bck c) = inl bck).
    { destruct Hbound as [?|[?|[props Hp]]]; [by left|by right; left|].
      right; right. unfold Bck_Init. rewrite Hp. by eexists. }
    destruct (transactions_wait txn (c_timeout c) t) as [r t1] eqn:Hw.
    pose proof (transactions_wait_spec _ _ _ _ _ Hw) as (Hse & Hsi & _ & Hbound' & Hr).
    rewrite Hlate in Hr. destruct Hr as (-> & Hver & Hnow & _).
    unfold txn_action in Hact.
    repeat (apply elem_of_cons in Hact as [->|Hact]); [..|by apply elem_of_nil in Hact];
      cbn [txnHandler_do]; unfold createBucket, makeNCopies, setBucketProps, renameBucket;
      try (destruct Hinit as [?|[?|[bck Hb]]]; [done|done|rewrite Hb]);
      commit_case Hphase; rewrite Hsome; cbn [record_fits] in Hfit.
    + rewrite Hw, Hsi. exists t1. split_and!; [done..|lia|lia].
    + rewrite Hw, Hsi. exists t1. split_and!; [done..|lia|lia].
    + destruct Hfit as [cur Hpay]. rewrite Hpay.
      destruct (parseNCopies _) as [copies e]. cbn [fst].
      rewrite Z.eqb_refl. cbn [negb]. rewrite Hw, Hsi.
      exists t1. split_and!; [done..|lia|lia].
    + destruct Hfit as (b & n & Hpay). rewrite Hpay, Hw, Hsi.
      exists t1. split_and!; [done..|lia|lia].
    + destruct Hfit as (f & g & Hpay). rewrite Hpay, Hw, Hsi.
      exists t1. split_and!; [done..|lia|lia].
  - intros r t' Hrun Hchg.
    assert (Hwait : ∀ txn r1 t1, transactions_wait txn (c_timeout c) t = (r1, t1) →
              side_effects t1 = side_effects t
              ∧ (r1 = None → bmd_arrives txn (c_timeout c) t = true
                             ∧ txn_bmdVer txn ≤ BMD_version (t_bmd t1))).
    { intros txn r1 t1 (Hse & _ & _ & _ & Hr)%transactions_wait_spec.
      split; [done|]. intros ->. destruct (bmd_arrives _ _ _); [|by destruct Hr].
      by destruct Hr. }
    unfold txn_action in Hact.
    repeat (apply elem_of_cons in Hact as [->|Hact]); [..|by apply elem_of_nil in Hact];
      cbn [txnHandler_do] in Hrun;
      unfold createBucket, makeNCopies, setBucketProps, renameBucket in Hrun;
      try (destruct (Bck_Init _ _) as [bck|e0]; [|by simplify_eq]);
      revert Hrun; commit_case Hphase;
      try (destruct (parseNCopies _) as [copies e]);
      (destruct (t_transactions t !! c_uuid c) as [txn|] eqn:Hfind;
         [|intros; by simplify_eq]);
      try (destruct (txn_payload txn); try done);
      try (destruct (negb _); [done|]);
      (destruct (transactions_wait txn (c_timeout c) t) as [[e1|] t1] eqn:Hw;
         apply Hwait in Hw as [Hse Hok]; [intros; simplify_eq; congruence|]);
      (destruct Hok as [Harr Hver]; [done|]);
      intros Hrun; exists txn; (split; [done|]); (split; [done|]);
      revert Hrun; cbn [effect t_fastRenameErr t_available t_world];
      repeat (case_match; try done); intros; simplify_eq; exact Hver.
  - intros r t' Hrun.
    assert (Hmax : t_now t ≤ Z.max (t_now t) (t_now t + c_timeout c)) by lia.
    assert (Hwait : ∀ txn r1 t1, transactions_wait txn (c_timeout c) t = (r1, t1) →
              t_now t ≤ t_now t1 ≤ Z.max (t_now t) (t_now t + c_timeout c)).
    { by intros txn r1 t1 (_ & _ & _ & Hb & _)%transactions_wait_spec. }
    unfold txn_action in Hact.
    repeat (apply elem_of_cons in Hact as [->|Hact]); [..|by apply elem_of_nil in Hact];
      cbn [txnHandler_do] in Hrun;
      unfold createBucket, makeNCopies, setBucketProps, renameBucket in Hrun;
      try (destruct (Bck_Init _ _) as [bck|e0];
           [|simplify_eq; cbn [slept]; rewrite Z.sub_0_r; split; [lia|exact Hmax]]);
      revert Hrun; commit_case Hphase;
      try (destruct (parseNCopies _) as [copies e]);
      (destruct (t_transactions t !! c_uuid c) as [txn|] eqn:Hfind;
         [|intros; simplify_eq; cbn [slept]; rewrite Z.sub_0_r; split; [lia|exact Hmax]]);
      try (destruct (txn_payload txn); try done);
      try (destruct (negb _); [done|]);
      (destruct (transactions_wait txn (c_timeout c) t) as [r1 t1] eqn:Hw;
         apply Hwait in Hw);
      unfold sleep; cbn [effect set_bmd_clock t_fastRenameErr t_available t_world];
      repeat (case_match; try done); intros; simplify_eq;
      cbn [slept t_now effect set_bmd_clock set_fs]; lia.
Qed.

Lemma commit_waits_for_bmd_witness :
  txnHandler_do ActRenameLB (ctx "u" ActCommit ValueOther (bucket "b1" None))
                (target_b1 ∅ [])
  = Returns (Some (Errorf_txn "t1" None (ErrTxnNotFound "u")), target_b1 ∅ [])
  ∧ ∃ t', txnHandler_do ActSetBprops (ctx "u" ActCommit ValueOther (bucket "b1" None))
                        (target_b1 {[ "u" := txn_setprops 2 ]} [])
          = Returns (Some (Errorf_txn "t1" (Some (txn_setprops 2))
                             (ErrTxnBmdTimeout "u")), t')
          ∧ side_effects t' = side_effects (target_b1 {[ "u" := txn_setprops 2 ]} [])
          ∧ t_now t' = 1000.
Proof.
  split.
  - apply (commit_waits_for_bmd ActRenameLB
             (ctx "u" ActCommit ValueOther (bucket "b1" None)) (target_b1 ∅ [])
             eq_refl).
    + unfold txn_action. repeat constructor.
    + reflexivity.
    + right; right. vm_compute. by eexists.
  - destruct (commit_waits_for_bmd ActSetBprops
                (ctx "u" ActCommit ValueOther (bucket "b1" None))
                (target_b1 {[ "u" := txn_setprops 2 ]} []) eq_refl) as (_ & H & _).
    + unfold txn_action. repeat constructor.
    + destruct (H (txn_setprops 2)) as (t' & H1 & H2 & _ & H4).
      * vm_compute. reflexivity.
      * right; right. vm_compute. by eexists.
      * by exists mirror_off, mirror_2.
      * vm_compute. reflexivity.
      * exists t'. split; [exact H1|]. split; [exact H2|].
        change (t_now (target_b1 {[ "u" := txn_setprops 2 ]} [])) with 0 in H4.
        change (c_timeout (ctx "u" ActCommit ValueOther (bucket "b1" None))) with 1000 in H4.
        lia.
Defined.

(** C4, as stated, fails for a rename commit on a bucket the BMD does not
    list: the handler binds the bucket before it looks the record up, and
    returns the error of the binding, not [ErrTxnNotFound]. *)
Lemma commit_unbound_bucket_not_ErrTxnNotFound :
  ¬ commit_without_record_is_not_found
      ActRenameLB (ctx "u" ActCommit ValueOther (bucket "b1" None)) target_0.
Proof.
  intros H. destruct (H eq_refl eq_refl) as (e & t' & Hrun & Hc).
  vm_compute in Hrun. injection Hrun as <- <-. discriminate Hc.
Qed.

Lemma transactions_begin_spec (txn : Txn) (t : Target) :
  ∃ t', transactions_begin txn t = (None, t')
        ∧ side_effects t' = side_effects t ∧ t_world t' = t_world t ∧ t_bmd t' = t_bmd t
        ∧ is_Some (t_transactions t' !! txn_uuid txn)
        ∧ (t_transactions t !! txn_uuid txn = None →
           t_transactions t' = <[txn_uuid txn := txn]> (t_transactions t))
        ∧ (is_Some (t_transactions t !! txn_uuid txn) → t' = t).
Proof.
  unfold transactions_begin.
  destruct (t_transactions t !! txn_uuid txn) as [old|] eqn:Hold.
  - exists t. rewrite Hold. split_and!; done.
  - eexists. split; [reflexivity|]. cbn. split_and!; try done.
    all: try (rewrite lookup_insert_eq; by eexists).
    all: try by intros [? ?].
Qed.

(** C7: in the begin phase of set-props, a proposal that enables mirroring
    with more copies than there are available mountpaths, or that newly
    enables EC while the capacity is over its threshold, is refused and the
    target is left as it was, so no record is created.  When the validation
    passes, the begin succeeds and the table holds a record under the UUID:
    the set-props record with the current and the proposed properties, unless
    the UUID was already taken.  In no case does a begin touch the bucket
    directories, the path caches, the BMD or the mirroring workers. *)
Theorem setBucketProps_begin (c : txnServerCtx) (t : Target) :
  c_phase c = ActBegin →
  (∀ nprops, Value (c_msgInt c) = ValueProps nprops →
     (Mirror_Enabled (Mirror nprops) = true
      ∧ Z.of_nat (length (t_available t)) < Mirror_Copies (Mirror nprops))
     ∨ (EC_Enabled (EC nprops) = true ∧ is_Some (t_capInfoErr t)
        ∧ ∀ bprops, BMD_Get (t_bmd t) (c_bck c) = Some bprops →
                    EC_Enabled (EC bprops) = false) →
     ∃ e, setBucketProps c t = Returns (Some e, t))
  ∧ (∀ bck bprops nprops,
       Bck_Init (t_bmd t) (c_bck c) = inl bck → Bck_Props bck = Some bprops →
       validateNprops t bck (c_msgInt c) = Returns (nprops, None) →
       ∃ t', setBucketProps c t = Returns (None, t')
             ∧ is_Some (t_transactions t' !! c_uuid c)
             ∧ (t_transactions t !! c_uuid c = None →
                t_transactions t'
                = <[c_uuid c := newTxn (set_c_bck bck c) (txnSetBucketProps bprops nprops)]>
                    (t_transactions t)))
  ∧ (∀ r t', setBucketProps c t = Returns (r, t') →
             side_effects t' = side_effects t ∧ t_world t' = t_world t
             ∧ t_bmd t' = t_bmd t ∧ (is_Some r → t' = t)).
Proof.
  intros Hphase. split_and!.
  - intros nprops Hval Hbad. unfold setBucketProps.
    destruct (Bck_Init (t_bmd t) (c_bck c)) as [bck|e0] eqn:Hinit; [|by eexists].
    apply Bck_Init_inl in Hinit as (props & Hget & ->).
    cbn [c_phase set_c_bck c_bck c_msgInt]. rewrite Hphase.
    unfold validateNprops. rewrite Hval. cbn [Bck_Props].
    destruct Hbad as [[Hm Hcnt]|(Hec & [err Herr] & Hnew)].
    + rewrite Hm. apply Z.ltb_lt in Hcnt. rewrite Hcnt. by eexists.
    + rewrite Hec, (Hnew _ Hget), Herr. cbn [negb fmap option_fmap option_map].
      destruct (Mirror_Enabled (Mirror nprops)); [|by eexists].
      destruct (_ <? _); [by eexists|].
      destruct (_ && _); by eexists.
  - intros bck bprops nprops Hinit Hprops Hok. unfold setBucketProps.
    rewrite Hinit. cbn [c_phase set_c_bck c_bck c_msgInt]. rewrite Hphase, Hok, Hprops.
    destruct (transactions_begin_spec
                (newTxn (set_c_bck bck c) (txnSetBucketProps bprops nprops)) t)
      as (t' & -> & _ & _ & _ & Hin & Hnew & _).
    exists t'. split_and!; done.
  - intros r t'. unfold setBucketProps.
    destruct (Bck_Init (t_bmd t) (c_bck c)) as [bck|e0]; [|by intros; simplify_eq].
    cbn [c_phase set_c_bck c_bck c_msgInt]. rewrite Hphase.
    destruct (validateNprops _ _ _) as [[nprops [e|]]|]; [by intros; simplify_eq| |done].
    destruct (Bck_Props bck) as [bprops|]; [|done].
    destruct (transactions_begin_spec
                (newTxn (set_c_bck bck c) (txnSetBucketProps bprops nprops)) t)
      as (t1 & -> & Hse & Hw & Hb & _).
    intros [= <- <-]. split_and!; try done.
Qed.

(** With two mountpaths: a three-way mirror is refused and leaves the table
    empty; a two-way mirror is accepted and leaves the record under the UUID. *)
Lemma setBucketProps_begin_witness :
  (∃ e, setBucketProps (ctx "u" ActBegin (ValueProps mirror_3) (bucket "b1" None))
                       (target_b1 ∅ [])
        = Returns (Some e, target_b1 ∅ []))
  ∧ ∃ t', setBucketProps (ctx "u" ActBegin (ValueProps mirror_2) (bucket "b1" None))
                         (target_b1 ∅ [])
          = Returns (None, t')
          ∧ t_transactions t' = {[ "u" := txn_setprops 1 ]}.
Proof.
  split.
  - destruct (setBucketProps_begin
                (ctx "u" ActBegin (ValueProps mirror_3) (bucket "b1" None))
                (target_b1 ∅ []) eq_refl) as (H & _ & _).
    apply (H mirror_3 eq_refl). left. split; [reflexivity|]. vm_compute. reflexivity.
  - destruct (setBucketProps_begin
                (ctx "u" ActBegin (ValueProps mirror_2) (bucket "b1" None))
                (target_b1 ∅ []) eq_refl) as (_ & H & _).
    destruct (H (bucket "b1" (Some mirror_off)) mirror_off mirror_2)
      as (t' & H1 & _ & H3); try (vm_compute; reflexivity).
    exists t'. split; [exact H1|]. rewrite H3 by reflexivity. reflexivity.
Defined.

(** ** Mountpath registry *)

Lemma registry_torn_reachable : Registry_reachable registry_torn.
Proof.
  unfold registry_torn.
  eapply reach_step; [|by eapply step_load_disabled].
  eapply reach_step; [|by eapply step_load_available].
  eapply reach_step; [|by eapply step_store_available].
  eapply reach_step; [|by eapply step_store_disabled].
  eapply reach_step; [|by eapply step_store_available].
  apply reach_init.
Qed.

(** C8, as stated, fails: [updatePaths] publishes the two maps by two
    separate stores and [Get] reads them by two separate loads, so a reader
    that runs between the stores returns the new available map with the old
    disabled map.  Here [/m1] has left the available map and is not yet in the
    disabled one: the pair returned is the pair of no epoch. *)
Lemma Get_can_tear : ¬ ∀ r, Registry_reachable r → Get_untorn r.
Proof.
  intros H. specialize (H _ registry_torn_reachable _ _ eq_refl).
  revert H. apply (proj1 (bool_decide_eq_false _)). vm_compute. reflexivity.
Qed.

Lemma Registry_inv_step (r r' : Registry) :
  Registry_inv r → Registry_step r r' → Registry_inv r'.
Proof.
  intros (n & aN & dN & Hlast & Hlen & Hav & Hw & Hr) Hstep.
  destruct Hstep as [r a d Hidle|r d Hmid|r Hrd|r a Hrd|r a d Hrd].
  - (* store available *)
    rewrite Hidle in Hw.
    exists (S n), a, d. cbn [updatePaths_store_available epochs available writer reader
                              disabled default].
    refine (conj _ (conj _ (conj _ (conj _ _)))).
    + rewrite lookup_app_r by lia. by rewrite Hlen, Nat.sub_diag.
    + rewrite length_app, Hlen. cbn. lia.
    + done.
    + split; [done|]. exists n, aN. split; [done|].
      rewrite lookup_app_l by lia. by rewrite Hw.
    + destruct (reader r) as [|a0|a0 d0].
      * done.
      * destruct Hr as (i & d' & Hi). exists i, d'.
        by apply lookup_app_l_Some.
      * destruct Hr as (i & j & a' & d' & Hi & Hj & Hij). exists i, j, a', d'.
        split_and!; [by apply lookup_app_l_Some..|done].
  - (* store disabled *)
    rewrite Hmid in Hw. destruct Hw as [-> _].
    exists n, aN, dN. cbn. split_and!; done.
  - (* load available *)
    exists n, aN, dN. cbn. split_and!; try done.
    exists n, dN. by rewrite Hav.
  - (* load disabled *)
    rewrite Hrd in Hr. destruct Hr as (i & d' & Hi).
    assert (i < S n)%nat by (rewrite <- Hlen; by eapply lookup_lt_Some).
    exists n, aN, dN. cbn. split_and!; try done.
    destruct (writer r) as [|d0].
    + exists i, n, aN, d'. rewrite Hw. split_and!; [done|done|lia].
    + destruct Hw as (-> & m & aM & -> & Hm).
      exists i, m, aM, d'. split_and!; [done|done|lia].
  - (* the reader starts over *)
    exists n, aN, dN. cbn. split_and!; done.
Qed.

Lemma Registry_inv_reachable (r : Registry) : Registry_reachable r → Registry_inv r.
Proof.
  induction 1 as [|r r' _ IH Hstep].
  - exists 0%nat, ∅, ∅. cbn. split_and!; done.
  - by eapply Registry_inv_step.
Qed.

(** C8, as amended: each of the two maps [Get] returns was published whole
    by some call of [updatePaths] (or is the empty map of a nil pointer), and
    the disabled map is that of the epoch of the available map, of a later
    epoch, or of the epoch just before; the pair itself need not be the pair
    of one epoch. *)
Theorem Get_pair_of_near_epochs (r : Registry) (a d : MPI) :
  Registry_reachable r → reader r = RReturned a d →
  ∃ i j a' d', epochs r !! i = Some (a, d') ∧ epochs r !! j = Some (a', d)
               ∧ (i ≤ S j)%nat.
Proof.
  intros (n & aN & dN & _ & _ & _ & _ & Hr)%Registry_inv_reachable Hret.
  by rewrite Hret in Hr.
Qed.

Lemma Get_pair_of_near_epochs_witness :
  ∃ i j a' d', epochs registry_torn !! i = Some (m2_available, d')
               ∧ epochs registry_torn !! j = Some (a', ∅)
               ∧ (i ≤ S j)%nat.
Proof.
  exact (Get_pair_of_near_epochs registry_torn m2_available ∅
           registry_torn_reachable eq_refl).
Defined.

(** ** Bucket-directory lifecycle: create *)

Lemma enter_called (c : Syscall) (w : World) :
  (enter c w).2 = called [c] w.
Proof. unfold enter, called. cbn. by destruct (faults w). Qed.

Lemma enter_calm (c : Syscall) (w : World) :
  faults w = [] → enter c w = (None, called [c] w).
Proof. intros H. unfold enter, called. by rewrite H. Qed.

Lemma called_calm (cs : list Syscall) (w : World) :
  faults w = [] → faults (called cs w) = [].
Proof. intros H. cbn. rewrite H. by destruct (length cs). Qed.

Lemma dirs_called (cs : list Syscall) (w : World) : dirs (called cs w) = dirs w.
Proof. done. Qed.

Lemma called_app (cs1 cs2 : list Syscall) (w : World) :
  called cs2 (called cs1 w) = called (cs1 ++ cs2) w.
Proof.
  unfold called. cbn. f_equal.
  - rewrite drop_drop, length_app. done.
  - by rewrite app_assoc.
Qed.

(** C5, as amended: one turn of the loop of [createBckDirs], for any
    mountpath, content type and bucket, when no call is made to fail.  A
    missing directory is created and counted.  A directory that exists is
    logged and counted when there was no BMD; with a BMD, an existing
    non-empty directory fails the operation with the bucket-dir-not-empty
    error unless it is the workfile directory, which is logged and counted;
    an existing empty directory is counted. *)
Theorem createBckDirs_turn
    (contentType : string) (cts : list string) (mi : MountpathInfo) (bck : Bck)
    (nilbmd : bool) (num : nat) (w : World) :
  faults w = [] →
  let dir := MakePathCT mi bck contentType in
  (dirs w !! dir = None →
   createBckDirs_range (contentType :: cts) mi bck nilbmd num w
   = createBckDirs_range cts mi bck nilbmd (S num)
       (set_dirs (<[dir := []]> (dirs w)) (called [SysAccess dir; SysMkdirAll dir] w)))
  ∧ (∀ entries, dirs w !! dir = Some entries → nilbmd = true →
       createBckDirs_range (contentType :: cts) mi bck nilbmd num w
       = createBckDirs_range cts mi bck nilbmd (S num)
           (glog_write (ErrorDirExistsNilBMD bck dir) (called [SysAccess dir] w)))
  ∧ (∀ name names, dirs w !! dir = Some (name :: names) → nilbmd = false →
       contentType ≠ WorkfileType →
       createBckDirs_range (contentType :: cts) mi bck nilbmd num w
       = ((num, Some (ErrBckDirNotEmpty bck dir (name :: names))),
          called [SysAccess dir; SysReadDir dir] w))
  ∧ (∀ name names, dirs w !! dir = Some (name :: names) → nilbmd = false →
       contentType = WorkfileType →
       createBckDirs_range (contentType :: cts) mi bck nilbmd num w
       = createBckDirs_range cts mi bck nilbmd (S num)
           (glog_write (ErrorLogged (ErrBckDirNotEmpty bck dir (name :: names)))
              (called [SysAccess dir; SysReadDir dir] w)))
  ∧ (dirs w !! dir = Some [] → nilbmd = false →
     createBckDirs_range (contentType :: cts) mi bck nilbmd num w
     = createBckDirs_range cts mi bck nilbmd (S num)
         (called [SysAccess dir; SysReadDir dir] w)).
Proof.
  intros Hcalm dir.
  assert (Hcalm1 : faults (called [SysAccess dir] w) = []) by by apply called_calm.
  cbn [createBckDirs_range]. fold dir. unfold Access, IsDirEmpty, CreateDir.
  rewrite (enter_calm _ _ Hcalm). cbn beta iota. rewrite dirs_called.
  split_and!.
  - intros Hd. rewrite Hd. cbn beta iota.
    rewrite (enter_calm _ _ Hcalm1). cbn beta iota.
    rewrite called_app, !dirs_called, Hd. done.
  - intros entries Hd ->. by rewrite Hd.
  - intros name names Hd -> Hct. rewrite Hd. cbn beta iota.
    rewrite (enter_calm _ _ Hcalm1). cbn beta iota.
    rewrite called_app, !dirs_called, Hd. cbn [negb].
    destruct (String.eqb contentType WorkfileType) eqn:E; [|done].
    by apply String.eqb_eq in E.
  - intros name names Hd -> ->. rewrite Hd. cbn beta iota.
    rewrite (enter_calm _ _ Hcalm1). cbn beta iota.
    rewrite called_app, !dirs_called, Hd. cbn [negb]. by rewrite String.eqb_refl.
  - intros Hd ->. rewrite Hd. cbn beta iota.
    rewrite (enter_calm _ _ Hcalm1). cbn beta iota.
    by rewrite called_app, !dirs_called, Hd.
Qed.

(** With a BMD: a leftover object fails the operation, a leftover workfile is
    logged and its directory counted. *)
Lemma createBckDirs_turn_witness :
  createBckDirs_range [ObjectType] (mountpath "/m1") (bucket "b1" None) false 0 world_ob
  = ((0%nat, Some (ErrBckDirNotEmpty (bucket "b1" None) "/m1/@ais/b1/%ob" ["obj1"])),
     called [SysAccess "/m1/@ais/b1/%ob"; SysReadDir "/m1/@ais/b1/%ob"] world_ob)
  ∧ createBckDirs_range [WorkfileType] (mountpath "/m1") (bucket "b1" None) false 0 world_wk
    = ((1%nat, None),
       glog_write (ErrorLogged (ErrBckDirNotEmpty (bucket "b1" None)
                                  "/m1/@ais/b1/%wk" ["put.tmp"]))
         (called [SysAccess "/m1/@ais/b1/%wk"; SysReadDir "/m1/@ais/b1/%wk"] world_wk)).
Proof.
  split.
  - destruct (createBckDirs_turn ObjectType [] (mountpath "/m1") (bucket "b1" None)
                false 0 world_ob eq_refl) as (_ & _ & H & _).
    apply (H "obj1" []); [vm_compute; reflexivity|reflexivity|discriminate].
  - destruct (createBckDirs_turn WorkfileType [] (mountpath "/m1") (bucket "b1" None)
                false 0 world_wk eq_refl) as (_ & _ & _ & H & _).
    apply (H "put.tmp" []); [vm_compute; reflexivity|reflexivity|reflexivity].
Defined.

(** C5, as stated, fails for the workfile directory: with a BMD and a
    leftover workfile in it, the bucket directories are created all the same
    and the three of them counted. *)
Lemma createBckDirs_tolerates_workfiles :
  ¬ nonempty_dir_is_refused content_types (mountpath "/m1") (bucket "b1" None) world_wk.
Proof.
  intros H.
  destruct (H WorkfileType "put.tmp" []) as [e He].
  - unfold content_types. by right; left.
  - vm_compute. reflexivity.
  - vm_compute in He. discriminate.
Qed.

(** Scenario A of the specification: on two empty mountpaths the directories
    of the three content types come to exist under each. *)
Example CreateBucket_scenario_A :
  let '(errs, w) := CreateBucket content_types [mountpath "/m1"; mountpath "/m2"]
                                 (bucket "b1" None) false world_0 in
  errs = []
  ∧ dom (dirs w) = {[ "/m1/@ais/b1/%ob"; "/m1/@ais/b1/%wk"; "/m1/@ais/b1/%ec";
                      "/m2/@ais/b1/%ob"; "/m2/@ais/b1/%wk"; "/m2/@ais/b1/%ec" ]}.
Proof. vm_compute. split; reflexivity. Qed.

(** ** Bucket-directory lifecycle: destroy *)

Lemma enter_spec (c : Syscall) (w : World) :
  ∃ r, enter c w = (r, called [c] w)
       ∧ ∀ e, r = Some e → IsExist e = false ∧ IsNotExist e = false.
Proof.
  unfold enter, called. destruct (faults w) as [|[f|] fs]; cbn; eexists; split; try done.
  intros e [= <-]. by destruct f.
Qed.

Lemma Access_world (path : string) (w : World) :
  (Access path w).2 = called [SysAccess path] w.
Proof.
  unfold Access. destruct (enter_spec (SysAccess path) w) as (r & -> & _).
  destruct r; [done|]. by destruct (dirs _ !! path).
Qed.

Lemma CreateDir_frame (path : string) (w : World) (r : option Errno) (w' : World) :
  CreateDir path w = (r, w') →
  glog w' = glog w ∧ clock w' = clock w ∧ dom (dirs w') ⊆ dom (dirs w) ∪ {[path]}.
Proof.
  unfold CreateDir. destruct (enter_spec (SysMkdirAll path) w) as (r0 & -> & _).
  destruct r0 as [e|].
  - intros [= <- <-]. cbn. set_solver.
  - rewrite dirs_called. destruct (dirs w !! path).
    + intros [= <- <-]. cbn. set_solver.
    + intros [= <- <-]. cbn. rewrite dom_insert_L. set_solver.
Qed.

Lemma os_Rename_frame (oldpath newpath : string) (w : World)
    (r : option Errno) (w' : World) :
  os_Rename oldpath newpath w = (r, w') →
  glog w' = glog w ∧ clock w' = clock w
  ∧ ∀ e, r = Some e →
         dirs w' = dirs w ∧ (IsExist e = true → newpath ∈ dom (dirs w)).
Proof.
  unfold os_Rename.
  destruct (enter_spec (SysRename oldpath newpath) w) as (r0 & -> & Hf).
  destruct r0 as [e|].
  - intros [= <- <-]. split_and!; try done. intros e' [= <-]. split; [done|].
    destruct (Hf e eq_refl) as [-> _]. done.
  - rewrite dirs_called. destruct (dirs w !! oldpath) as [entries|].
    + destruct (dirs w !! newpath) as [there|] eqn:Hn; intros [= <- <-]; try done.
      split_and!; try done. intros e [= <-]. split; [done|]. intros _.
      apply elem_of_dom. by eexists.
    + intros [= <- <-]. split_and!; try done. by intros e [= <-].
Qed.

Lemma trash_name_inj (mi : MountpathInfo) (c1 c2 : Z) :
  trash_name mi c1 = trash_name mi c2 → c1 = c2.
Proof.
  unfold trash_name, Join. intros H.
  do 3 apply String.app_inj in H. by apply (inj pretty) in H.
Qed.

(** A round of [MoveToTrash] is repeated only when the fresh name is taken,
    and no name is tried twice: as long as [fuel] exceeds the number of names
    still in the way, the loop returns. *)
Lemma MoveToTrash_retry_returns (mi : MountpathInfo) (dir : string) (fuel : nat) :
  ∀ (w : World) (X : gset string),
    (∀ c, clock w ≤ c →
          trash_name mi c ∈ dom (dirs w) ∪ {[MakePathTrash mi]} → trash_name mi c ∈ X) →
    (size X < fuel)%nat →
    ∃ r w', MoveToTrash_retry fuel mi dir w = Some (r, w')
            ∧ ∃ l, glog w' = glog w ++ l ∧ destroy_failures l = 0%nat.
Proof.
  induction fuel as [|fuel IH]; intros w X HX Hsize; [lia|].
  cbn [MoveToTrash_retry]. unfold NanoTime. fold (trash_name mi (clock w)).
  set (w1 := mkWorld _ _ _ (clock w + 1) _ _).
  destruct (CreateDir (MakePathTrash mi) w1) as [[e|] w2] eqn:Hc;
    apply CreateDir_frame in Hc as (Hg2 & Hc2 & Hd2).
  { eexists _, _. split; [done|]. exists []. by rewrite app_nil_r, Hg2. }
  destruct (os_Rename dir (trash_name mi (clock w)) w2) as [[e|] w3] eqn:Hr;
    apply os_Rename_frame in Hr as (Hg3 & Hc3 & He3).
  2:{ eexists _, _. split; [done|]. exists []. by rewrite app_nil_r, Hg3, Hg2. }
  destruct (He3 e eq_refl) as [Hd3 Hex].
  destruct (IsExist e) eqn:Hie.
  - specialize (Hex eq_refl).
    assert (Hin : trash_name mi (clock w) ∈ X).
    { apply HX; [lia|]. set_solver. }
    destruct (IH (glog_write (WarnTrashExists (trash_name mi (clock w))) w3)
                 (X ∖ {[trash_name mi (clock w)]})) as (r & w' & -> & l & Hl & Hfl).
    + intros c Hc Hcin. cbn [glog_write dirs clock] in *. rewrite Hd3 in Hcin.
      apply elem_of_difference. split.
      * apply HX; [rewrite Hc3, Hc2 in Hc; cbn in Hc; lia|]. set_solver.
      * intros Heq%elem_of_singleton%trash_name_inj.
        rewrite Hc3, Hc2 in Hc. cbn in Hc. lia.
    + rewrite size_difference by set_solver. rewrite size_singleton.
      assert (size X ≠ 0)%nat; [|lia].
      intros H0%size_empty_iff. set_solver.
    + eexists _, _. split; [done|].
      exists (WarnTrashExists (trash_name mi (clock w)) :: l).
      rewrite Hl. cbn [glog_write glog]. rewrite Hg3, Hg2, <- app_assoc. done.
  - destruct (IsNotExist e); eexists _, _; (split; [done|]);
      exists []; by rewrite app_nil_r, Hg3, Hg2.
Qed.

(** [MoveToTrash] always returns, and writes no line of [DestroyBucket]. *)
Lemma MoveToTrash_returns (mi : MountpathInfo) (dir : string) (w : World) :
  ∃ r w', MoveToTrash mi dir w = Some (r, w')
          ∧ ∃ l, glog w' = glog w ++ l ∧ destroy_failures l = 0%nat.
Proof.
  unfold MoveToTrash.
  pose proof (Access_world dir w) as Hw.
  destruct (Access dir w) as [r0 w0]. cbn in Hw. subst w0.
  assert (Hretry : ∃ r w', MoveToTrash_retry (trash_rounds (called [SysAccess dir] w))
                             mi dir (called [SysAccess dir] w) = Some (r, w')
            ∧ ∃ l, glog w' = glog w ++ l ∧ destroy_failures l = 0%nat).
  { destruct (MoveToTrash_retry_returns mi dir
                  (trash_rounds (called [SysAccess dir] w)) (called [SysAccess dir] w)
                  (dom (dirs w) ∪ {[MakePathTrash mi]})) as (r & w' & Hrun & l & Hl & Hfl);
      [| |by exists r, w'; split; [|exists l]].
    - intros c _ Hin. by rewrite dirs_called in Hin.
    - unfold trash_rounds. rewrite dirs_called.
      rewrite size_union_alt, size_dom.
      assert (size ({[MakePathTrash mi]} ∖ dom (dirs w) : gset string) ≤ 1)%nat; [|lia].
      rewrite <- (size_singleton (C := gset string) (MakePathTrash mi)).
      apply subseteq_size. set_solver. }
  destruct r0 as [e|]; [|done].
  destruct (IsNotExist e); [|done].
  eexists _, _. split; [done|]. exists []. by rewrite app_nil_r.
Qed.

Lemma destroy_lines_app (l1 l2 : list LogEntry) :
  destroy_lines (l1 ++ l2) = destroy_lines l1 ++ destroy_lines l2.
Proof. unfold destroy_lines. by rewrite filter_app. Qed.

Lemma destroy_lines_none (l : list LogEntry) :
  destroy_failures l = 0%nat → destroy_lines l = [].
Proof. unfold destroy_failures, destroy_lines. apply nil_length_inv. Qed.

(** The loop of [DestroyBucket] returns.  It has called [MoveToTrash] on the
    mountpaths in turn, counted in [n] those for which it returned no error,
    and logged one line for each of the others, with the directory and the
    error. *)
Lemma DestroyBucket_range_returns (op : string) (bck : Bck) (bid : N)
    (mis : list MountpathInfo) :
  ∀ (n : nat) (w : World),
  ∃ results mis' w' lines,
    trash_results op mis bck bid w = Some (results, w')
    ∧ DestroyBucket_range op mis bck bid n w
      = Some (mis', (n + (length mis - length (trash_failures results)))%nat, w')
    ∧ length results = length mis
    ∧ (length (trash_failures results) ≤ length mis)%nat
    ∧ glog w' = glog w ++ lines
    ∧ destroy_lines lines = failure_lines op (trash_failures results).
Proof.
  induction mis as [|mi mis IH]; intros n w.
  - exists [], [], w, []. cbn. rewrite app_nil_r, Nat.add_0_r. split_and!; done.
  - cbn [DestroyBucket_range trash_results].
    destruct (makeDelPathBck mi bck bid) as [dir mi1]. cbn [fst snd].
    destruct (MoveToTrash_returns mi1 dir w) as (r & w1 & -> & l1 & Hl1 & Hf1).
    apply destroy_lines_none in Hf1.
    destruct r as [err|].
    + destruct (IH n (glog_write (ErrorDestroyFailed op dir err) w1))
        as (results & mis' & w' & l2 & -> & -> & Hlen & Hle & Hl2 & Hd2).
      exists ((dir, Some err) :: results), (mi1 :: mis'), w',
             (l1 ++ ErrorDestroyFailed op dir err :: l2).
      cbn [glog_write glog] in Hl2. unfold trash_failures in *.
      cbn [omap list_omap fmap option_fmap option_map fst snd length mbind option_bind].
      split_and!.
      * done.
      * do 3 f_equal; lia.
      * by rewrite Hlen.
      * lia.
      * rewrite Hl2, Hl1, <- !app_assoc. done.
      * rewrite destroy_lines_app, Hf1.
        change (ErrorDestroyFailed op dir err :: l2)
          with ([ErrorDestroyFailed op dir err] ++ l2).
        rewrite destroy_lines_app, Hd2. done.
    + destruct (IH (S n) w1)
        as (results & mis' & w' & l2 & -> & -> & Hlen & Hle & Hl2 & Hd2).
      exists ((dir, None) :: results), (mi1 :: mis'), w', (l1 ++ l2).
      unfold trash_failures in *.
      cbn [omap list_omap fmap option_fmap option_map fst snd length mbind option_bind].
      split_and!.
      * done.
      * do 3 f_equal; lia.
      * by rewrite Hlen.
      * lia.
      * by rewrite Hl2, Hl1, <- app_assoc.
      * by rewrite destroy_lines_app, Hf1, Hd2.
Qed.

Lemma MoveToTrash_missing_dir (mi : MountpathInfo) (dir : string) (w : World) :
  dirs w !! dir = None → next_call_clean w →
  MoveToTrash mi dir w = Some (None, called [SysAccess dir] w).
Proof.
  intros Hd Hclean. unfold MoveToTrash, Access.
  assert (He : enter (SysAccess dir) w = (None, called [SysAccess dir] w)).
  { unfold enter, called, next_call_clean in *. by destruct (faults w) as [|[f|] fs]. }
  by rewrite He, dirs_called, Hd.
Qed.

(** C2, as amended: [DestroyBucket] always returns.  It has called
    [MoveToTrash] on the bucket directory of each available mountpath in
    turn, and it returns an error exactly when [MoveToTrash] returned an
    error for at least one of them, be they a majority or not: the error
    gives their number and the number of mountpaths, and each of them, and
    no other, is logged with its directory and its error.  A mountpath on
    which the bucket directory does not exist is not among them:
    [MoveToTrash] returns no error for it and nothing is logged. *)
Theorem DestroyBucket_fails_iff_some_failed
    (op : string) (mis : list MountpathInfo) (bck : Bck) (bid : N) (w : World) :
  (∃ results err mis' w' lines,
      trash_results op mis bck bid w = Some (results, w')
      ∧ DestroyBucket op mis bck bid w = Some (err, mis', w')
      ∧ length results = length mis
      ∧ (trash_failures results = [] ↔ err = None)
      ∧ (trash_failures results ≠ [] →
         err = Some (ErrBckDestroy bck (length (trash_failures results)) (length mis)))
      ∧ glog w' = glog w ++ lines
      ∧ destroy_lines lines = failure_lines op (trash_failures results))
  ∧ (∀ mi dir w0, dirs w0 !! dir = None → next_call_clean w0 →
                  MoveToTrash mi dir w0 = Some (None, called [SysAccess dir] w0)).
Proof.
  split; [|apply MoveToTrash_missing_dir].
  unfold DestroyBucket.
  destruct (DestroyBucket_range_returns op bck bid mis 0 w)
    as (results & mis' & w' & lines & Hres & -> & Hlen & Hle & Hl & Hd).
  cbn [mbind option_bind]. rewrite Nat.add_0_l.
  destruct (trash_failures results) as [|failed faileds] eqn:Hfail.
  - rewrite Nat.sub_0_r, Nat.ltb_irrefl.
    exists results, None, mis', w', lines. rewrite Hfail.
    split_and!; try done; try congruence.
  - cbn [length] in *.
    destruct (_ <? _)%nat eqn:E; [|apply Nat.ltb_ge in E; lia].
    eexists results, _, mis', w', lines. rewrite Hfail.
    split_and!; try done.
    intros _. do 2 f_equal. cbn [length]. lia.
Qed.

(** C2, as stated, fails with three mountpaths of which one cannot move its
    bucket directory to the trash: [DestroyBucket] returns an error although
    one of three is no majority. *)
Lemma DestroyBucket_fails_on_a_minority :
  ¬ destroy_fails_iff_majority "del" three_mountpaths (bucket "b1" None) 7 world_b1_eio.
Proof.
  intros H.
  assert (E : ∃ mis' w',
             DestroyBucket "del" three_mountpaths (bucket "b1" None) 7 world_b1_eio
             = Some (Some (ErrBckDestroy (bucket "b1" None) 1 3), mis', w')
             ∧ destroy_failures (drop (length (glog world_b1_eio)) (glog w')) = 1%nat).
  { eexists _, _. split; vm_compute; reflexivity. }
  destruct E as (mis' & w' & E & Hf).
  apply H in E. rewrite Hf in E. destruct E as [E _].
  specialize (E ltac:(by eexists)). cbn in E. lia.
Qed.

(** ** Bucket-directory lifecycle: rename *)




Lemma os_Rename_moves (oldpath newpath : string) (w w' : World) :
  os_Rename oldpath newpath w = (None, w') →
  ∃ entries, dirs w !! oldpath = Some entries ∧ dirs w !! newpath = None
             ∧ dirs w' = <[newpath := entries]> (delete oldpath (dirs w)).
Proof.
  unfold os_Rename.
  destruct (enter_spec (SysRename oldpath newpath) w) as (r & -> & _).
  destruct r; [done|]. rewrite dirs_called.
  destruct (dirs w !! oldpath) as [entries|]; [|done].
  destruct (dirs w !! newpath); intros [= <-]; by exists entries.
Qed.


Section Rename.
Variables (bidFrom : N) (bckFrom bckTo : Bck).








End Rename.



(** Scenario B of the specification: the rename fails on [/m2]; afterwards
    both mountpaths show [b1] and neither shows [b2], and the error is that of
    the failed rename. *)
Example RenameBucketDirs_scenario_B :
  let '(err, _, w) :=
    RenameBucketDirs two_mountpaths 7 b1_7 b2
                     (world_B [None; None; None; Some FaultEIO]) in
  err = Some EIO ∧ glog w = []
  ∧ dirs w = {[ "/m1/@ais/b1" := ["%ob"]; "/m2/@ais/b1" := ["%ob"] ]}.
Proof. vm_compute. split_and!; reflexivity. Qed.

(** When the rename back fails as well, it is logged, the error returned is
    still that of the rename that failed first, and [/m1] is left with the
    destination directory. *)
Example RenameBucketDirs_rollback_failure :
  let '(err, _, w) :=
    RenameBucketDirs two_mountpaths 7 b1_7 b2
                     (world_B [None; None; None; Some FaultEIO; Some FaultEACCES]) in
  err = Some EIO ∧ glog w = [ErrorRollback EACCES]
  ∧ dirs w = {[ "/m1/@ais/b2" := ["%ob"]; "/m2/@ais/b1" := ["%ob"] ]}.
Proof. vm_compute. split_and!; reflexivity. Qed.

(** ** Bucket-directory lifecycle: what creation leaves behind *)

Lemma Access_spec (path : string) (w : World) :
  ∃ r, Access path w = (r, called [SysAccess path] w)
       ∧ (r = None → is_Some (dirs w !! path)).
Proof.
  unfold Access. destruct (enter_spec (SysAccess path) w) as (r & -> & _).
  destruct r as [e|]; [by eexists|]. rewrite dirs_called.
  destruct (dirs w !! path) eqn:Hd; eexists; (split; [done|]); [by eexists|done].
Qed.

Lemma IsDirEmpty_world (dir : string) (w : World) :
  (IsDirEmpty dir w).2 = called [SysReadDir dir] w.
Proof.
  unfold IsDirEmpty. destruct (enter_spec (SysReadDir dir) w) as (r & -> & _).
  destruct r; [done|]. by destruct (dirs _ !! dir).
Qed.

(** [os.MkdirAll] makes an empty directory where there was none and takes
    nothing away. *)
Lemma CreateDir_dirs (path : string) (w : World) (r : option Errno) (w' : World) :
  CreateDir path w = (r, w') →
  (dirs w' = dirs w ∨ dirs w !! path = None ∧ dirs w' = <[path := []]> (dirs w))
  ∧ (r = None → is_Some (dirs w' !! path)).
Proof.
  unfold CreateDir. destruct (enter_spec (SysMkdirAll path) w) as (r0 & -> & _).
  destruct r0 as [e|]; [intros [= <- <-]; split; [by left|done]|].
  rewrite dirs_called. destruct (dirs w !! path) eqn:Hd; intros [= <- <-]; cbn.
  - split; [by left|]. intros _. by eexists.
  - split; [by right|]. intros _. rewrite lookup_insert_eq. by eexists.
Qed.

Lemma dirs_kept_refl (d : gmap string (list string)) : dirs_kept d d.
Proof. intros p entries H. by exists entries. Qed.

Lemma dirs_kept_trans (d1 d2 d3 : gmap string (list string)) :
  dirs_kept d1 d2 → dirs_kept d2 d3 → dirs_kept d1 d3.
Proof.
  intros H12 H23 p entries H. destruct (H12 _ _ H) as (e2 & H2 & Hsub2).
  destruct (H23 _ _ H2) as (e3 & H3 & Hsub3). exists e3. split; [done|]. set_solver.
Qed.

Lemma dirs_kept_is_Some (d d' : gmap string (list string)) (p : string) :
  dirs_kept d d' → is_Some (d !! p) → is_Some (d' !! p).
Proof. intros Hk [entries H]. destruct (Hk _ _ H) as (e' & -> & _). by eexists. Qed.

Lemma CreateDir_kept (path : string) (w : World) (r : option Errno) (w' : World) :
  CreateDir path w = (r, w') → dirs_kept (dirs w) (dirs w').
Proof.
  intros H. apply CreateDir_dirs in H as [[->|[Hnone ->]] _]; [apply dirs_kept_refl|].
  intros p entries Hp. exists entries. split; [|done].
  rewrite lookup_insert_ne; [done|]. congruence.
Qed.

Lemma createBckDirs_range_spec (mi : MountpathInfo) (bck : Bck) (nilbmd : bool)
    (cts : list string) :
  ∀ num w num' err w',
    createBckDirs_range cts mi bck nilbmd num w = ((num', err), w') →
    dirs_kept (dirs w) (dirs w')
    ∧ (err = None →
       num' = (num + length cts)%nat
       ∧ ∀ ct, ct ∈ cts → is_Some (dirs w' !! MakePathCT mi bck ct)).
Proof.
  induction cts as [|ct cts IH]; intros num w num' err w' Hrun;
    cbn [createBckDirs_range] in Hrun.
  { simplify_eq. split; [apply dirs_kept_refl|]. intros _. split; [cbn; lia|set_solver]. }
  destruct (Access_spec (MakePathCT mi bck ct) w) as (ra & Ha & Hthere).
  rewrite Ha in Hrun.
  assert (Hstep : ∀ w1 num1,
    dirs_kept (dirs w) (dirs w1) →
    is_Some (dirs w1 !! MakePathCT mi bck ct) →
    createBckDirs_range cts mi bck nilbmd (S num1) w1 = (num', err, w') →
    num1 = num →
    dirs_kept (dirs w) (dirs w')
    ∧ (err = None →
       num' = (num + length (ct :: cts))%nat
       ∧ ∀ ct0, ct0 ∈ ct :: cts → is_Some (dirs w' !! MakePathCT mi bck ct0))).
  { intros w1 num1 Hg He1 Hrest ->. apply IH in Hrest as [Hg' Hok].
    split; [apply (dirs_kept_trans _ _ _ Hg Hg')|].
    intros ->. destruct (Hok eq_refl) as [-> Hall]. split; [cbn; lia|].
    intros ct0 [->|Hin]%elem_of_cons; [|by apply Hall].
    by apply (dirs_kept_is_Some _ _ _ Hg'). }
  destruct ra as [e|].
  - destruct (CreateDir _ _) as [[e'|] w1] eqn:Hc.
    + simplify_eq. apply CreateDir_kept in Hc. rewrite dirs_called in Hc. done.
    + pose proof (CreateDir_kept _ _ _ _ Hc) as Hg.
      apply CreateDir_dirs in Hc as [_ Hsome]. rewrite dirs_called in Hg.
      exact (Hstep w1 num Hg (Hsome eq_refl) Hrun eq_refl).
  - specialize (Hthere eq_refl). destruct nilbmd.
    + refine (Hstep _ num _ _ Hrun eq_refl); [apply dirs_kept_refl|exact Hthere].
    + pose proof (IsDirEmpty_world (MakePathCT mi bck ct)
                    (called [SysAccess (MakePathCT mi bck ct)] w)) as Hw.
      destruct (IsDirEmpty _ _) as [[[names empty] [e|]] w1]; cbn in Hw; subst w1.
      { simplify_eq. split; [apply dirs_kept_refl|done]. }
      destruct empty; cbn [negb] in Hrun.
      * refine (Hstep _ num _ _ Hrun eq_refl); [apply dirs_kept_refl|exact Hthere].
      * destruct (negb _).
        { simplify_eq. split; [apply dirs_kept_refl|done]. }
        refine (Hstep _ num _ _ Hrun eq_refl); [apply dirs_kept_refl|exact Hthere].
Qed.

Lemma CreateBucket_range_spec (cts : list string) (bck : Bck) (nilbmd : bool)
    (mis : list MountpathInfo) :
  ∀ errs total w errs' total' w',
    CreateBucket_range cts mis bck nilbmd errs total w = ((errs', total'), w') →
    ∃ new, errs' = errs ++ new
      ∧ (length new ≤ length mis)%nat
      ∧ total' = (total + (length mis - length new) * length cts)%nat
      ∧ dirs_kept (dirs w) (dirs w')
      ∧ (new = [] → ∀ mi ct, mi ∈ mis → ct ∈ cts →
                     is_Some (dirs w' !! MakePathCT mi bck ct)).
Proof.
  induction mis as [|mi mis IH]; intros errs total w errs' total' w' Hrun;
    cbn [CreateBucket_range] in Hrun.
  { simplify_eq. exists []. rewrite app_nil_r.
    refine (conj eq_refl (conj _ (conj _ (conj (dirs_kept_refl _) _))));
      [cbn; lia|cbn; lia|set_solver]. }
  unfold createBckDirs in Hrun.
  destruct (createBckDirs_range cts mi bck nilbmd 0 w) as [[num [err|]] w1] eqn:H1;
    apply createBckDirs_range_spec in H1 as [Hg1 Hok1];
    apply IH in Hrun as (new & -> & Hlen & -> & Hg & Hall).
  - exists (err :: new). rewrite <- app_assoc.
    refine (conj eq_refl (conj _ (conj _ (conj _ _)))); [cbn; lia|cbn [length Nat.sub]; lia| |done].
    by apply (dirs_kept_trans _ _ _ Hg1 Hg).
  - destruct (Hok1 eq_refl) as [-> Hall1]. exists new.
    refine (conj eq_refl (conj _ (conj _ (conj _ _)))).
    + cbn. lia.
    + cbn [length].
      replace (S (length mis) - length new)%nat with (S (length mis - length new)) by lia.
      cbn [Nat.mul]. lia.
    + by apply (dirs_kept_trans _ _ _ Hg1 Hg).
    + intros -> mi0 ct [->|Hin]%elem_of_cons Hct; [|by apply Hall].
      apply (dirs_kept_is_Some _ _ _ Hg). by apply Hall1.
Qed.

(** X1: [CreateBucket] collects at most one error per mountpath, and the
    directories it counts are all the content-type directories of the
    mountpaths that did not fail: when it returns no error, the count is the
    number of mountpaths times the number of content types, which is what its
    debug assertion checks. *)
Theorem CreateBucket_counts_created_dirs (cts : list string) (mis : list MountpathInfo)
    (bck : Bck) (nilbmd : bool) (w : World)
    (errs : list error) (totalCreatedDirs : nat) (w' : World) :
  CreateBucket_range cts mis bck nilbmd [] 0 w = ((errs, totalCreatedDirs), w') →
  (length errs ≤ length mis)%nat
  ∧ totalCreatedDirs = ((length mis - length errs) * length cts)%nat
  ∧ (errs = [] → totalCreatedDirs = (length mis * length cts)%nat).
Proof.
  intros H. apply CreateBucket_range_spec in H as (new & -> & Hlen & -> & _).
  cbn. split_and!; [done|lia|]. intros ->. cbn. lia.
Qed.

Lemma CreateBucket_counts_created_dirs_witness :
  let errs := [ErrBckDirNotEmpty (bucket "b1" None) "/m1/@ais/b1/%ob" ["obj1"]] in
  (length errs ≤ length two_mountpaths)%nat
  ∧ 3%nat = ((length two_mountpaths - length errs) * length content_types)%nat
  ∧ (errs = [] → 3%nat = (length two_mountpaths * length content_types)%nat).
Proof.
  intros errs.
  apply (CreateBucket_counts_created_dirs content_types two_mountpaths
           (bucket "b1" None) false world_ob errs 3
           (CreateBucket_range content_types two_mountpaths (bucket "b1" None) false
              [] 0 world_ob).2).
  vm_compute. reflexivity.
Defined.

(** X2: When [CreateBucket] returns no error, every content-type directory of the
    bucket is there on every available mountpath, whatever calls were made to
    fail on the way. *)
Theorem CreateBucket_success_dirs_exist (cts : list string) (mis : list MountpathInfo)
    (bck : Bck) (nilbmd : bool) (w w' : World) :
  CreateBucket cts mis bck nilbmd w = ([], w') →
  ∀ mi ct, mi ∈ mis → ct ∈ cts → is_Some (dirs w' !! MakePathCT mi bck ct).
Proof.
  unfold CreateBucket.
  destruct (CreateBucket_range _ _ _ _ _ _ _) as [[errs total] w1] eqn:H.
  intros [= -> ->]. apply CreateBucket_range_spec in H as (new & Hnew & _ & _ & _ & Hall).
  apply Hall. by destruct new.
Qed.

Lemma CreateBucket_success_dirs_exist_witness :
  is_Some (dirs (CreateBucket content_types two_mountpaths (bucket "b1" None) false
                   world_wk).2
           !! MakePathCT (mountpath "/m2") (bucket "b1" None) ECSliceType).
Proof.
  apply (CreateBucket_success_dirs_exist content_types two_mountpaths
           (bucket "b1" None) false world_wk).
  - vm_compute. reflexivity.
  - apply (bool_decide_unpack _). vm_compute. exact I.
  - apply (bool_decide_unpack _). vm_compute. exact I.
Defined.

(** X3: [CreateBucket] takes nothing away, whether it fails or not and
    whatever calls are made to fail on the way: every directory that was
    there before the call is there after it, and lists at least the names
    it listed. *)
Theorem CreateBucket_keeps_directories (cts : list string) (mis : list MountpathInfo)
    (bck : Bck) (nilbmd : bool) (w : World) :
  dirs_kept (dirs w) (dirs (CreateBucket cts mis bck nilbmd w).2).
Proof.
  unfold CreateBucket.
  destruct (CreateBucket_range _ _ _ _ _ _ _) as [[errs total] w1] eqn:H.
  by apply CreateBucket_range_spec in H as (new & _ & _ & _ & Hg & _).
Qed.

(** X4: [CreateMissingBckDirs] makes the content-type directories that are
    missing and leaves alone the ones that are there, empty or not: it takes
    no directory and no name in a directory away, when it returns no error
    every content-type directory of the bucket is there, it returns no error
    when no call is made to fail, and it never lists a directory. *)
Theorem CreateMissingBckDirs_fills_in (cts : list string) (mi : MountpathInfo) (bck : Bck)
    (w : World) (err : option Errno) (w' : World) :
  CreateMissingBckDirs cts mi bck w = (err, w') →
  dirs_kept (dirs w) (dirs w')
  ∧ (err = None → ∀ ct, ct ∈ cts → is_Some (dirs w' !! MakePathCT mi bck ct))
  ∧ (faults w = [] → err = None)
  ∧ ∀ dir, SysReadDir dir ∈ journal w' → SysReadDir dir ∈ journal w.
Proof.
  revert w err w'.
  induction cts as [|ct cts IH]; intros w err w' Hrun; cbn [CreateMissingBckDirs] in Hrun.
  { simplify_eq. split_and!; try done; [apply dirs_kept_refl|set_solver]. }
  destruct (Access_spec (MakePathCT mi bck ct) w) as (ra & Ha & Hthere).
  rewrite Ha in Hrun.
  assert (Hstep : ∀ w1,
    dirs_kept (dirs w) (dirs w1) →
    is_Some (dirs w1 !! MakePathCT mi bck ct) →
    (faults w = [] → faults w1 = []) →
    (∀ dir, SysReadDir dir ∈ journal w1 → SysReadDir dir ∈ journal w) →
    CreateMissingBckDirs cts mi bck w1 = (err, w') →
    dirs_kept (dirs w) (dirs w')
    ∧ (err = None → ∀ ct0, ct0 ∈ ct :: cts → is_Some (dirs w' !! MakePathCT mi bck ct0))
    ∧ (faults w = [] → err = None)
    ∧ ∀ dir, SysReadDir dir ∈ journal w' → SysReadDir dir ∈ journal w).
  { intros w1 Hg He1 Hf Hj Hrest. apply IH in Hrest as (Hg' & Hok & Hcalm & Hj').
    split_and!; [apply (dirs_kept_trans _ _ _ Hg Hg')| |by auto|by auto].
    intros -> ct0 [->|Hin]%elem_of_cons; [|by apply Hok].
    by apply (dirs_kept_is_Some _ _ _ Hg'). }
  destruct ra as [e|].
  - destruct (CreateDir _ _) as [[e'|] w1] eqn:Hc.
    + simplify_eq. pose proof (CreateDir_kept _ _ _ _ Hc) as Hg. rewrite dirs_called in Hg.
      split_and!; [done|done| |].
      * intros Hf. unfold CreateDir in Hc.
        rewrite (enter_calm _ _ (called_calm _ _ Hf)) in Hc.
        rewrite dirs_called in Hc. by destruct (dirs _ !! _).
      * intros dir Hin. unfold CreateDir in Hc.
        destruct (enter_spec (SysMkdirAll (MakePathCT mi bck ct))
                    (called [SysAccess (MakePathCT mi bck ct)] w)) as (r0 & Hr0 & _).
        rewrite Hr0 in Hc. destruct r0; [|by destruct (dirs _ !! _)].
        simplify_eq. cbn in Hin. set_solver.
    + pose proof (CreateDir_kept _ _ _ _ Hc) as Hg.
      pose proof (CreateDir_dirs _ _ _ _ Hc) as [_ Hsome]. rewrite dirs_called in Hg.
      refine (Hstep w1 Hg (Hsome eq_refl) _ _ Hrun).
      * intros Hf. unfold CreateDir in Hc.
        rewrite (enter_calm _ _ (called_calm _ _ Hf)) in Hc. rewrite dirs_called in Hc.
        destruct (dirs _ !! _); simplify_eq; cbn; by rewrite Hf.
      * intros dir Hin. unfold CreateDir in Hc.
        destruct (enter_spec (SysMkdirAll (MakePathCT mi bck ct))
                    (called [SysAccess (MakePathCT mi bck ct)] w)) as (r0 & Hr0 & _).
        rewrite Hr0 in Hc. destruct r0; [done|].
        destruct (dirs _ !! _); simplify_eq; cbn in Hin; set_solver.
  - refine (Hstep (called [SysAccess (MakePathCT mi bck ct)] w)
              (dirs_kept_refl _) (Hthere eq_refl) _ _ Hrun).
    + apply called_calm.
    + intros dir Hin. cbn in Hin. set_solver.
Qed.

Lemma CreateMissingBckDirs_fills_in_witness :
  let w' := (CreateMissingBckDirs content_types (mountpath "/m1") (bucket "b1" None)
               world_ob).2 in
  dirs_kept (dirs world_ob) (dirs w')
  ∧ (@None Errno = None → ∀ ct, ct ∈ content_types →
       is_Some (dirs w' !! MakePathCT (mountpath "/m1") (bucket "b1" None) ct))
  ∧ (faults world_ob = [] → @None Errno = None)
  ∧ ∀ dir, SysReadDir dir ∈ journal w' → SysReadDir dir ∈ journal world_ob.
Proof.
  intros w'.
  apply (CreateMissingBckDirs_fills_in content_types (mountpath "/m1") (bucket "b1" None)
           world_ob None w').
  vm_compute. reflexivity.
Defined.

(** ** Moving a directory to the trash *)

Lemma os_Rename_ENOENT (oldpath newpath : string) (w : World) (e : Errno) (w' : World) :
  os_Rename oldpath newpath w = (Some e, w') → IsNotExist e = true →
  dirs w !! oldpath = None.
Proof.
  unfold os_Rename.
  destruct (enter_spec (SysRename oldpath newpath) w) as (r0 & -> & Hf).
  destruct r0 as [e0|].
  - intros [= <- <-] He. destruct (Hf e0 eq_refl) as [_ Hn]. congruence.
  - rewrite dirs_called. destruct (dirs w !! oldpath) as [entries|]; [|done].
    destruct (dirs w !! newpath); intros [= <- <-]; done.
Qed.

(** The rounds of [MoveToTrash]: when they end with an error the directory
    is what it was, unless it is the trash directory itself, which the
    rounds make; when they end without, the directory is gone and what it
    held is in the trash. *)
Lemma MoveToTrash_retry_dirs (mi : MountpathInfo) (dir : string) (fuel : nat) :
  ∀ w r w',
    MoveToTrash_retry fuel mi dir w = Some (r, w') →
    match r with
    | Some e => dir ≠ MakePathTrash mi → dirs w' !! dir = dirs w !! dir
    | None => dirs w' !! dir = None
              ∧ ∀ entries, dirs w !! dir = Some entries →
                  ∃ now, dirs w' !! trash_name mi now = Some entries
    end.
Proof.
  induction fuel as [|fuel IH]; intros w r w' Hrun; [done|].
  cbn [MoveToTrash_retry] in Hrun. unfold NanoTime in Hrun.
  fold (trash_name mi (clock w)) in Hrun.
  set (w1 := mkWorld _ _ _ (clock w + 1) _ _) in Hrun.
  assert (Hd1 : dirs w1 = dirs w) by done.
  destruct (CreateDir (MakePathTrash mi) w1) as [[e|] w2] eqn:Hc.
  { simplify_eq. intros Hne.
    apply CreateDir_dirs in Hc as [[->|[_ ->]] _]; [done|].
    by rewrite lookup_insert_ne. }
  assert (H2 : ∀ p, p ≠ MakePathTrash mi → dirs w2 !! p = dirs w !! p).
  { intros p Hp. apply CreateDir_dirs in Hc as [[->|[_ ->]] _]; [done|].
    rewrite lookup_insert_ne by done. done. }
  assert (H2' : ∀ entries, dirs w !! dir = Some entries → dirs w2 !! dir = Some entries).
  { intros entries He.
    apply CreateDir_dirs in Hc as [[->|[Hnone ->]] _]; [by rewrite Hd1|].
    rewrite Hd1 in Hnone.
    destruct (decide (MakePathTrash mi = dir)) as [<-|Hne]; [congruence|].
    by rewrite lookup_insert_ne. }
  destruct (os_Rename dir (trash_name mi (clock w)) w2) as [[e|] w3] eqn:Hr.
  - pose proof (os_Rename_frame _ _ _ _ _ Hr) as (_ & _ & He3).
    destruct (He3 e eq_refl) as [Hd3 _].
    destruct (IsExist e) eqn:Hie.
    + apply IH in Hrun. cbn [glog_write dirs] in Hrun. destruct r as [e'|].
      * intros Hne. by rewrite (Hrun Hne), Hd3, H2.
      * destruct Hrun as [-> Hin]. split; [done|]. intros entries He.
        apply Hin. rewrite Hd3. by apply H2'.
    + destruct (IsNotExist e) eqn:Hne'; simplify_eq.
      * apply os_Rename_ENOENT in Hr; [|done]. rewrite Hd3. split; [done|].
        intros entries He%H2'. congruence.
      * intros Hne. by rewrite Hd3, H2.
  - simplify_eq. apply os_Rename_moves in Hr as (entries & He & Hnew & ->).
    assert (Hne : dir ≠ trash_name mi (clock w)) by congruence.
    split.
    + rewrite lookup_insert_ne by done. apply lookup_delete_eq.
    + intros entries' He'%H2'. exists (clock w).
      rewrite lookup_insert_eq. congruence.
Qed.

Lemma Access_ENOENT (path : string) (w : World) (e : Errno) :
  (Access path w).1 = Some e → IsNotExist e = true → dirs w !! path = None.
Proof.
  unfold Access. destruct (enter_spec (SysAccess path) w) as (r0 & -> & Hf).
  destruct r0 as [e0|].
  - cbn. intros [= <-] He. destruct (Hf e0 eq_refl) as [_ Hn]. congruence.
  - rewrite dirs_called. destruct (dirs w !! path); [done|]. done.
Qed.

Lemma MoveToTrash_dirs (mi : MountpathInfo) (dir : string) (w : World)
    (r : option Errno) (w' : World) :
  MoveToTrash mi dir w = Some (r, w') →
  match r with
  | Some e => dir ≠ MakePathTrash mi → dirs w' !! dir = dirs w !! dir
  | None => dirs w' !! dir = None
            ∧ ∀ entries, dirs w !! dir = Some entries →
                ∃ now, dirs w' !! trash_name mi now = Some entries
  end.
Proof.
  unfold MoveToTrash.
  pose proof (Access_world dir w) as Hw. pose proof (Access_ENOENT dir w) as Hno.
  destruct (Access dir w) as [r0 w0]. cbn in Hw, Hno. subst w0.
  assert (Hretry : MoveToTrash_retry (trash_rounds (called [SysAccess dir] w)) mi dir
                     (called [SysAccess dir] w) = Some (r, w') →
    match r with
    | Some e => dir ≠ MakePathTrash mi → dirs w' !! dir = dirs w !! dir
    | None => dirs w' !! dir = None
              ∧ ∀ entries, dirs w !! dir = Some entries →
                  ∃ now, dirs w' !! trash_name mi now = Some entries
    end).
  { intros H. by apply (MoveToTrash_retry_dirs mi dir) in H. }
  destruct r0 as [e|]; [|done].
  destruct (IsNotExist e) eqn:He; [|done].
  intros [= <- <-]. rewrite dirs_called, (Hno e eq_refl He). split; [done|].
  intros entries. done.
Qed.

(** X5: when [MoveToTrash] returns no error the directory is gone from
    where it was, and if it was there, what it held is in the trash of the
    mountpath, under a name of the form [$dir-<time>]. *)
Theorem MoveToTrash_moves_directory (mi : MountpathInfo) (dir : string) (w w' : World)
    (entries : list string) :
  MoveToTrash mi dir w = Some (None, w') →
  dirs w !! dir = Some entries →
  dirs w' !! dir = None
  ∧ ∃ now, dirs w' !! trash_name mi now = Some entries.
Proof.
  intros Hrun Hdir. destruct (MoveToTrash_dirs _ _ _ _ _ Hrun) as [Hgone Hin].
  split; [done|]. by apply Hin.
Qed.

(** X6: when [MoveToTrash] returns an error nothing of the directory was
    lost: a directory below the mountpath, other than its trash directory,
    is there as before and lists what it listed. *)
Theorem MoveToTrash_failure_keeps_directory (mi : MountpathInfo) (dir : string)
    (w : World) (e : Errno) (w' : World) :
  below (Path mi) dir → dir ≠ MakePathTrash mi →
  MoveToTrash mi dir w = Some (Some e, w') →
  dirs w' !! dir = dirs w !! dir.
Proof.
  intros _ Hdir Hrun. by apply (MoveToTrash_dirs _ _ _ _ _ Hrun).
Qed.

Lemma MoveToTrash_retry_calm (mi : MountpathInfo) (dir : string) (fuel : nat) :
  ∀ w r w',
    faults w = [] →
    MoveToTrash_retry fuel mi dir w = Some (r, w') → r = None ∧ faults w' = [].
Proof.
  induction fuel as [|fuel IH]; intros w r w' Hf Hrun; [done|].
  cbn [MoveToTrash_retry] in Hrun. unfold NanoTime in Hrun.
  set (w1 := mkWorld _ _ _ (clock w + 1) _ _) in Hrun.
  assert (Hf1 : faults w1 = []) by done.
  unfold CreateDir in Hrun. rewrite (enter_calm _ _ Hf1) in Hrun.
  assert (Hc : ∃ w2, (match dirs (called [SysMkdirAll (MakePathTrash mi)] w1)
                              !! MakePathTrash mi with
                      | Some _ => (None, called [SysMkdirAll (MakePathTrash mi)] w1)
                      | None => (None, set_dirs (<[MakePathTrash mi := []]>
                                   (dirs (called [SysMkdirAll (MakePathTrash mi)] w1)))
                                   (called [SysMkdirAll (MakePathTrash mi)] w1))
                      end) = (@None Errno, w2) ∧ faults w2 = []).
  { destruct (dirs _ !! _); eexists; (split; [done|]); cbn; by rewrite Hf. }
  destruct Hc as (w2 & Hc & Hf2). rewrite Hc in Hrun.
  unfold os_Rename in Hrun. rewrite (enter_calm _ _ Hf2) in Hrun.
  rewrite dirs_called in Hrun.
  destruct (dirs w2 !! dir) as [entries|]; cbn [IsExist IsNotExist] in Hrun;
    [|simplify_eq; split; [done|by apply called_calm]].
  destruct (dirs w2 !! _) as [there|]; cbn [IsExist IsNotExist] in Hrun;
    [|simplify_eq; split; [done|cbn; by rewrite Hf2]].
  apply IH in Hrun; [done|]. cbn. by rewrite Hf2.
Qed.

Lemma MoveToTrash_calm (mi : MountpathInfo) (dir : string) (w : World)
    (r : option Errno) (w' : World) :
  faults w = [] → MoveToTrash mi dir w = Some (r, w') → r = None ∧ faults w' = [].
Proof.
  intros Hf. unfold MoveToTrash, Access. rewrite (enter_calm _ _ Hf), dirs_called.
  pose proof (called_calm [SysAccess dir] w Hf) as Hf1.
  destruct (dirs w !! dir); cbn [IsNotExist].
  - by apply MoveToTrash_retry_calm.
  - by intros [= <- <-].
Qed.

Lemma b1_below_m1 : below (Path (mountpath "/m1")) "/m1/@ais/b1".
Proof. exists "@ais/b1". by split. Qed.

Lemma MoveToTrash_moves_directory_witness :
  let w' := called [SysAccess "/m1/@ais/b1"; SysMkdirAll "/m1/$trash";
                    SysRename "/m1/@ais/b1" "/m1/$trash/$dir-0"]
              (mkWorld {[ "/m1/$trash" := []; "/m1/$trash/$dir-0" := ["obj1"; "obj2"] ]}
                       ∅ [] 1 [] []) in
  dirs w' !! "/m1/@ais/b1" = None
  ∧ ∃ now, dirs w' !! trash_name (mountpath "/m1") now = Some ["obj1"; "obj2"].
Proof.
  intros w'.
  apply (MoveToTrash_moves_directory (mountpath "/m1") "/m1/@ais/b1" world_b1 w').
  - vm_compute. reflexivity.
  - reflexivity.
Defined.

Lemma MoveToTrash_failure_keeps_directory_witness :
  let w' := called [SysAccess "/m1/@ais/b1"; SysMkdirAll "/m1/$trash"]
              (mkWorld (dirs world_b1_rofs) ∅ (faults world_b1_rofs) 1 [] []) in
  dirs w' !! "/m1/@ais/b1" = dirs world_b1_rofs !! "/m1/@ais/b1".
Proof.
  intros w'.
  apply (MoveToTrash_failure_keeps_directory (mountpath "/m1") "/m1/@ais/b1"
           world_b1_rofs EROFS w' b1_below_m1).
  - discriminate.
  - vm_compute. reflexivity.
Defined.

Lemma MoveToTrash_succeeds_without_faults_aux (mi : MountpathInfo) (dir : string)
    (w : World) :
  faults w = [] → ∃ w', MoveToTrash mi dir w = Some (None, w') ∧ faults w' = [].
Proof.
  intros Hf. destruct (MoveToTrash_returns mi dir w) as (r & w' & Hrun & _).
  destruct (MoveToTrash_calm _ _ _ _ _ Hf Hrun) as [-> Hf']. by exists w'.
Qed.

(** X7: [MoveToTrash] fails only when a call fails: for a directory below
    the mountpath, other than its trash directory, and with no fault on the
    way, it returns no error, whether the directory is there or not and
    whatever names are already taken in the trash. *)
Theorem MoveToTrash_succeeds_without_faults (mi : MountpathInfo) (dir : string) (w : World) :
  below (Path mi) dir → dir ≠ MakePathTrash mi → faults w = [] →
  ∃ w', MoveToTrash mi dir w = Some (None, w') ∧ faults w' = [].
Proof. intros _ _. apply MoveToTrash_succeeds_without_faults_aux. Qed.

Lemma MoveToTrash_succeeds_without_faults_witness :
  ∃ w', MoveToTrash (mountpath "/m1") "/m1/@ais/b1" world_b1 = Some (None, w')
        ∧ faults w' = [].
Proof.
  apply (MoveToTrash_succeeds_without_faults (mountpath "/m1") "/m1/@ais/b1" world_b1
           b1_below_m1).
  - discriminate.
  - reflexivity.
Defined.

(** ** Destroying a bucket: the path caches *)

Lemma makeDelPathBck_evicts (mi : MountpathInfo) (bck : Bck) (bid : N) :
  bid_evicted bid mi (makeDelPathBck mi bck bid).2.
Proof.
  unfold bid_evicted, makeDelPathBck.
  destruct (bpc mi !! bid) as [d|] eqn:Hd; cbn [snd set_bpc Path bpc].
  - split_and!; [done|by rewrite lookup_delete_eq|].
    intros b Hb _. by rewrite lookup_delete_ne.
  - split_and!; [apply MakePathBck_Path|by intros [? ?]|].
    intros b Hb [d' Hd']. unfold MakePathBck.
    destruct (Bck_Props bck) as [props|]; [|done].
    destruct (bpc mi !! BID props) eqn:Hp; [done|]. cbn [snd set_bpc bpc].
    rewrite lookup_insert_ne; [done|]. congruence.
Qed.

Lemma DestroyBucket_range_mis (op : string) (bck : Bck) (bid : N)
    (mis : list MountpathInfo) :
  ∀ n w mis' n' w',
    DestroyBucket_range op mis bck bid n w = Some (mis', n', w') →
    Forall2 (bid_evicted bid) mis mis'.
Proof.
  induction mis as [|mi mis IH]; intros n w mis' n' w' Hrun; cbn [DestroyBucket_range] in Hrun.
  { simplify_eq. constructor. }
  pose proof (makeDelPathBck_evicts mi bck bid) as Hev.
  destruct (makeDelPathBck mi bck bid) as [dir mi1]. cbn [snd] in Hev.
  destruct (MoveToTrash mi1 dir w) as [[[e|] w1]|]; [| |done].
  - destruct (DestroyBucket_range _ _ _ _ _ _) as [[[rest n1] w2]|] eqn:Hrest; [|done].
    cbn in Hrun. simplify_eq. constructor; [done|]. by eapply IH.
  - destruct (DestroyBucket_range _ _ _ _ _ _) as [[[rest n1] w2]|] eqn:Hrest; [|done].
    cbn in Hrun. simplify_eq. constructor; [done|]. by eapply IH.
Qed.

(** X8: [DestroyBucket] evicts the bucket id from the path cache of every
    available mountpath that had it cached, whether the directory could be
    moved to the trash or not; the other cached paths and the mountpaths
    themselves stay as they were. *)
Theorem DestroyBucket_evicts_bid (op : string) (mis : list MountpathInfo) (bck : Bck)
    (bid : N) (w : World) (err : option error) (mis' : list MountpathInfo) (w' : World) :
  DestroyBucket op mis bck bid w = Some (err, mis', w') →
  Forall2 (bid_evicted bid) mis mis'.
Proof.
  unfold DestroyBucket.
  destruct (DestroyBucket_range op mis bck bid 0 w) as [[[mis1 n] w1]|] eqn:H; [|done].
  cbn [mbind option_bind]. apply DestroyBucket_range_mis in H.
  destruct (n <? length mis)%nat; intros ?; by simplify_eq.
Qed.

Lemma DestroyBucket_range_calm (op : string) (bck : Bck) (bid : N)
    (mis : list MountpathInfo) :
  ∀ n w, faults w = [] →
    ∃ mis' w', DestroyBucket_range op mis bck bid n w
               = Some (mis', (n + length mis)%nat, w')
               ∧ faults w' = [].
Proof.
  induction mis as [|mi mis IH]; intros n w Hf; cbn [DestroyBucket_range].
  { eexists _, _. split; [|done]. do 3 f_equal. cbn. lia. }
  destruct (makeDelPathBck mi bck bid) as [dir mi1].
  destruct (MoveToTrash_succeeds_without_faults_aux mi1 dir w Hf) as (w1 & -> & Hf1).
  destruct (IH (S n) w1 Hf1) as (mis' & w' & -> & Hf'). cbn.
  eexists _, _. split; [|done]. do 3 f_equal. lia.
Qed.

Lemma DestroyBucket_evicts_bid_witness :
  Forall2 (bid_evicted 7) [m1_cached]
          [set_bpc {[ 9%N := "/m1/@ais/b9" ]} (mountpath "/m1")].
Proof.
  apply (DestroyBucket_evicts_bid "del" [m1_cached] b1_7 7 world_b1 None _
           (from_option snd world_b1 (DestroyBucket "del" [m1_cached] b1_7 7 world_b1))).
  vm_compute. reflexivity.
Defined.

(** X9: [DestroyBucket] fails only when a call fails: with no fault on the way it
    returns no error, whether the bucket directories are there or not. *)
Theorem DestroyBucket_succeeds_without_faults (op : string) (mis : list MountpathInfo)
    (bck : Bck) (bid : N) (w : World) :
  faults w = [] →
  ∃ mis' w', DestroyBucket op mis bck bid w = Some (None, mis', w').
Proof.
  intros Hf. unfold DestroyBucket.
  destruct (DestroyBucket_range_calm op bck bid mis 0 w Hf) as (mis' & w' & -> & _).
  cbn [mbind option_bind]. rewrite Nat.ltb_irrefl. by eexists _, _.
Qed.

Lemma DestroyBucket_succeeds_without_faults_witness :
  ∃ mis' w', DestroyBucket "del" two_mountpaths (bucket "b1" None) 7 world_b1
             = Some (None, mis', w').
Proof.
  apply (DestroyBucket_succeeds_without_faults "del" two_mountpaths (bucket "b1" None) 7
           world_b1).
  reflexivity.
Defined.

(** ** Capacity monitor: the refresh period, failures and the per-mountpath map *)

Lemma wrap_i64_small (x : Z) : - 2 ^ 63 ≤ x < 2 ^ 63 → wrap_i64 x = x.
Proof.
  intros H. unfold wrap_i64, wrap_s. change (2 ^ (64 - 1)) with (2 ^ 63).
  rewrite Z.mod_small; lia.
Qed.

Lemma wrap_i32_range (x : Z) : - 2 ^ 31 ≤ wrap_i32 x < 2 ^ 31.
Proof.
  unfold wrap_i32, wrap_s. change (2 ^ (32 - 1)) with (2 ^ 31).
  pose proof (Z.mod_pos_bound (x + 2 ^ 31) (2 ^ 32) ltac:(lia)). lia.
Qed.

Lemma nextRefresh_range (cache : CapCache) (config : Config) :
  Config_sane config → - 2 ^ 31 ≤ PctAvg (capStatus cache) < 2 ^ 31 →
  Periodic_StatsTime config ≤ nextRefresh cache config ≤ LRU_CapacityUpdTime config.
Proof.
  intros (Hlow & Hhigh & Hoos & Ht & Hmax) Hutil. unfold nextRefresh.
  set (util := PctAvg (capStatus cache)) in *.
  rewrite (wrap_i64_small (LRU_HighWM config - 10)) by lia.
  set (umin := MaxI64 (LRU_HighWM config - 10) (LRU_LowWM config)).
  assert (Humin : 0 ≤ umin ≤ 100) by (unfold umin, MaxI64;
        destruct (Z.ltb_spec (LRU_HighWM config - 10) (LRU_LowWM config)); lia).
  destruct (util <=? umin) eqn:E1; [lia|]. apply Z.leb_gt in E1.
  destruct (LRU_OOS config <=? util) eqn:E2; [lia|]. apply Z.leb_gt in E2.
  rewrite (wrap_i64_small ((util - umin) * 100)) by lia.
  rewrite (wrap_i64_small (LRU_OOS config - umin)) by lia.
  rewrite (wrap_i64_small (LRU_CapacityUpdTime config - Periodic_StatsTime config)) by lia.
  unfold go_div.
  assert (Hr : 0 ≤ (util - umin) * 100 ÷ (LRU_OOS config - umin) < 100).
  { rewrite Z.quot_div_nonneg by lia. split; [apply Z.div_pos; lia|].
    apply Z.div_lt_upper_bound; lia. }
  revert Hr. generalize ((util - umin) * 100 ÷ (LRU_OOS config - umin)). intros ratio Hr.
  set (d := LRU_CapacityUpdTime config - Periodic_StatsTime config) in *.
  assert (Hd : 0 ≤ d < 2 ^ 55) by (unfold d; lia).
  assert (Hrd : 0 ≤ ratio * d ≤ 100 * d) by nia.
  rewrite (wrap_i64_small (ratio * d)) by lia.
  assert (Hq : 0 ≤ ratio * d ÷ 100 ≤ d).
  { rewrite Z.quot_div_nonneg by lia. split; [apply Z.div_pos; lia|].
    apply Z.div_le_upper_bound; lia. }
  revert Hq. generalize (ratio * d ÷ 100). intros q Hq.
  rewrite wrap_i64_small by lia. unfold d in *. lia.
Qed.

(** X10: [nextRefresh] never asks for a refresh sooner than the statistics period
    nor later than the configured capacity-update time, whatever the cached
    average utilisation is. *)
Theorem nextRefresh_between_periods (cache : CapCache) (config : Config) :
  Config_sane config → - 2 ^ 31 ≤ PctAvg (capStatus cache) < 2 ^ 31 →
  Periodic_StatsTime config ≤ nextRefresh cache config ≤ LRU_CapacityUpdTime config.
Proof. apply nextRefresh_range. Qed.

Lemma config_C_sane : Config_sane config_C.
Proof. unfold Config_sane, config_C. cbn. lia. Qed.

Lemma nextRefresh_between_periods_witness :
  Periodic_StatsTime config_C
  ≤ nextRefresh (mkCapCache 0 0 (mkCapStatus 0 0 88 92 None false)) config_C
  ≤ LRU_CapacityUpdTime config_C.
Proof.
  apply (nextRefresh_between_periods (mkCapCache 0 0 (mkCapStatus 0 0 88 92 None false))
           config_C config_C_sane).
  cbn. lia.
Defined.

Lemma Statfs_world (path : string) (w : World) :
  (Statfs path w).2 = called [SysStatfs path] w.
Proof.
  unfold Statfs. destruct (enter_spec (SysStatfs path) w) as (r & -> & _).
  destruct r; [done|]. by destruct (statfs _ !! path).
Qed.

Lemma getCapacity_world (mi : MountpathInfo) (config : Config) (w : World)
    (r : Capacity * option Errno) (mi' : MountpathInfo) (w' : World) :
  getCapacity mi config true w = Returns (r, mi', w') →
  w' = called [SysStatfs (Path mi)] w
  ∧ Path mi' = Path mi ∧ bpc mi' = bpc mi
  ∧ (r.2 = None → capacity mi' = r.1) ∧ (is_Some r.2 → mi' = mi).
Proof.
  unfold getCapacity. cbn [negb].
  pose proof (Statfs_world (Path mi) w) as Hw.
  destruct (Statfs (Path mi) w) as [[[st|] [e|]] w1]; cbn [snd] in Hw; subst w1.
  - intros [= <- <- <-]. split_and!; try done; try (by intros [? ?]).
  - destruct (Blocks st =? 0); [done|]. intros [= <- <- <-]. cbn.
    split_and!; try done; try (by intros [? ?]).
  - intros [= <- <- <-]. split_and!; try done; try (by intros [? ?]).
  - intros [= <- <- <-]. split_and!; try done; try (by intros [? ?]).
Qed.

Lemma RefreshCapStatus_range_ok (config : Config) (mis : list MountpathInfo) :
  ∀ (mpcap : option (gmap string Capacity)) (cs0 : CapStatus) (w : World)
    (cs : CapStatus) (mis' : list MountpathInfo) (mpcap' : option (gmap string Capacity))
    (w' : World),
  RefreshCapStatus_range mis config mpcap cs0 w = Returns ((cs, None), mis', mpcap', w') →
  Forall2 (λ mi mi', Path mi' = Path mi ∧ bpc mi' = bpc mi) mis mis'
  ∧ TotalUsed cs = foldl (λ a x, wrap_u64 (a + x)) (TotalUsed cs0) (used_bytes mis')
  ∧ TotalAvail cs = foldl (λ a x, wrap_u64 (a + x)) (TotalAvail cs0) (avail_bytes mis')
  ∧ mpcap' = (λ m, foldl (λ m mi', <[Path mi' := capacity mi']> m) m mis') <$> mpcap
  ∧ w' = called (SysStatfs ∘ Path <$> mis) w.
Proof.
  induction mis as [|mi mis IH]; intros mpcap cs0 w cs mis' mpcap' w' H.
  - cbn in H. simplify_eq.
    split; [constructor|]. split; [done|]. split; [done|].
    split; [by destruct mpcap'|].
    unfold called. cbn. rewrite app_nil_r, drop_0. by destruct w'.
  - cbn [RefreshCapStatus_range] in H.
    destruct (getCapacity mi config true w) as [[[[c [e|]] mi1] w1]|] eqn:Hg;
      try discriminate.
    destruct (RefreshCapStatus_range mis _ _ _ _)
      as [[[[[cs2 e2] mis2] mpcap2] w2]|] eqn:Hr; try discriminate.
    simplify_eq.
    apply IH in Hr as (Hmis & Hu & Ha & Hm & Hw).
    apply getCapacity_world in Hg as (-> & HP & Hb & Hc & _). specialize (Hc eq_refl).
    cbn [fst] in Hc. subst c.
    cbn [TotalUsed TotalAvail] in Hu, Ha.
    split_and!.
    + by constructor.
    + by rewrite Hu.
    + by rewrite Ha.
    + rewrite Hm. destruct mpcap; [|done]. done.
    + rewrite Hw, called_app. done.
Qed.

Lemma RefreshCapStatus_range_err (config : Config) (mis : list MountpathInfo) :
  ∀ (mpcap : option (gmap string Capacity)) (cs0 : CapStatus) (w : World)
    (cs : CapStatus) (e : Errno) (mis' : list MountpathInfo)
    (mpcap' : option (gmap string Capacity)) (w' : World),
  RefreshCapStatus_range mis config mpcap cs0 w = Returns ((cs, Some e), mis', mpcap', w') →
  glog w' = glog w ++ [ErrorLogged (ErrOS e)].
Proof.
  induction mis as [|mi mis IH]; intros mpcap cs0 w cs e mis' mpcap' w' H; [done|].
  cbn [RefreshCapStatus_range] in H.
  destruct (getCapacity mi config true w) as [[[[c [e1|]] mi1] w1]|] eqn:Hg;
    try discriminate; apply getCapacity_world in Hg as (-> & _).
  - by simplify_eq.
  - destruct (RefreshCapStatus_range mis _ _ _ _)
      as [[[[[cs2 e2] mis2] mpcap2] w2]|] eqn:Hr; try discriminate.
    simplify_eq. by apply IH in Hr.
Qed.

(** X11: A refresh that fails leaves the cached status and the refresh times as
    they were.  The error it returns is either [ErrNoMountpaths] or the error
    of the statfs that failed, which it has logged once; reaching the high
    watermark or running out of space is never the error of the call, it is
    reported in the status. *)
Theorem RefreshCapStatus_failure_keeps_cache
    (gco : Config) (mis : list MountpathInfo) (config : option Config)
    (mpcap : option (gmap string Capacity)) (cache : CapCache) (w : World)
    (cs : CapStatus) (err : error) (mis' : list MountpathInfo)
    (mpcap' : option (gmap string Capacity)) (cache' : CapCache) (w' : World) :
  RefreshCapStatus gco mis config mpcap cache w
    = Returns ((cs, Some err), mis', mpcap', cache', w') →
  cache' = cache
  ∧ ((mis = [] ∧ err = ErrNoMountpaths ∧ w' = w)
     ∨ (∃ e, err = ErrOS e ∧ glog w' = glog w ++ [ErrorLogged (ErrOS e)])).
Proof.
  unfold RefreshCapStatus. destruct mis as [|mi mis].
  { cbn [length Nat.eqb]. intros ?. simplify_eq. split; [done|]. by left. }
  cbn [length Nat.eqb]. cbv zeta.
  destruct (RefreshCapStatus_range _ _ _ _ _) as [[[[[cs1 [e|]] mis1] mpcap1] w1]|] eqn:Hr;
    [| |discriminate].
  - intros ?. simplify_eq. split; [done|]. right. exists e. split; [done|].
    by apply RefreshCapStatus_range_err in Hr.
  - destruct (_ =? 0); [discriminate|]. by destruct (NanoTime w1).
Qed.

Lemma RefreshCapStatus_failure_keeps_cache_witness :
  cache_0 = cache_0
  ∧ ((two_mountpaths = [] ∧ ErrOS EIO = ErrNoMountpaths
      ∧ glog_write (ErrorLogged (ErrOS EIO))
          (called [SysStatfs "/m1"; SysStatfs "/m2"] world_C_eio) = world_C_eio)
     ∨ (∃ e, ErrOS EIO = ErrOS e
          ∧ glog (glog_write (ErrorLogged (ErrOS EIO))
                    (called [SysStatfs "/m1"; SysStatfs "/m2"] world_C_eio))
            = glog world_C_eio ++ [ErrorLogged (ErrOS e)])).
Proof.
  apply (RefreshCapStatus_failure_keeps_cache config_C two_mountpaths None None cache_0
           world_C_eio
           (mkCapStatus 3768320 327680 92 92 None false)
           (ErrOS EIO)
           [set_capacity (mkCapacity 3768320 327680 92) (mountpath "/m1"); mountpath "/m2"]
           None cache_0).
  vm_compute. reflexivity.
Defined.

Lemma foldl_wrap_u64_sum (l : list Z) :
  ∀ a, wrap_u64 a = a →
       foldl (λ a x, wrap_u64 (a + x)) a l = wrap_u64 (a + foldr Z.add 0 l).
Proof.
  induction l as [|x l IH]; intros a Ha; cbn [foldl foldr].
  - by rewrite Z.add_0_r.
  - rewrite IH.
    + unfold wrap_u64. rewrite Zplus_mod_idemp_l. f_equal. lia.
    + unfold wrap_u64. apply Z.mod_mod. lia.
Qed.

Lemma foldl_insert_capacities (mis : list MountpathInfo) :
  ∀ m : gmap string Capacity,
    NoDup (Path <$> mis) →
    (∀ mi, mi ∈ mis →
       foldl (λ m mi', <[Path mi' := capacity mi']> m) m mis !! Path mi
       = Some (capacity mi))
    ∧ (∀ p, p ∉ Path <$> mis →
         foldl (λ m mi', <[Path mi' := capacity mi']> m) m mis !! p = m !! p).
Proof.
  induction mis as [|a mis IH]; intros m Hnd; cbn [foldl].
  - split; [|done]. intros mi Hin. by apply elem_of_nil in Hin.
  - rewrite fmap_cons in Hnd. apply NoDup_cons in Hnd as [Ha Hnd].
    destruct (IH (<[Path a := capacity a]> m) Hnd) as [Hin Hout]. split.
    + intros mi [->|Hmi]%elem_of_cons; [|by apply Hin].
      rewrite (Hout _ Ha). apply lookup_insert_eq.
    + intros p Hp. rewrite fmap_cons in Hp. apply not_elem_of_cons in Hp as [Hne Hp].
      rewrite (Hout _ Hp). by rewrite lookup_insert_ne.
Qed.

Lemma Forall2_same_paths (mis mis' : list MountpathInfo) :
  Forall2 (λ mi mi', Path mi' = Path mi ∧ bpc mi' = bpc mi) mis mis' →
  Path <$> mis' = Path <$> mis.
Proof. induction 1 as [|mi mi' mis mis' [HP _] _ IH]; [done|]. cbn. by rewrite HP, IH. Qed.

Lemma RefreshCapStatus_ok (gco : Config) (mis : list MountpathInfo) (config : option Config)
    (mpcap : option (gmap string Capacity)) (cache : CapCache) (w : World)
    (cs : CapStatus) (mis' : list MountpathInfo)
    (mpcap' : option (gmap string Capacity)) (cache' : CapCache) (w' : World) :
  RefreshCapStatus gco mis config mpcap cache w
    = Returns ((cs, None), mis', mpcap', cache', w') →
  ∃ cs1 w1,
    RefreshCapStatus_range mis (default gco config) mpcap CapStatus_zero w
    = Returns ((cs1, None), mis', mpcap', w1)
    ∧ TotalUsed cs = TotalUsed cs1 ∧ TotalAvail cs = TotalAvail cs1
    ∧ PctMax cs = PctMax cs1
    ∧ w' = (NanoTime w1).2
    ∧ cache' = {| capTime_curr := clock w1;
                  capTime_next :=
                    wrap_i64 (clock w1
                              + nextRefresh (mkCapCache (capTime_curr cache)
                                               (capTime_next cache) cs)
                                            (default gco config));
                  capStatus := cs |}.
Proof.
  unfold RefreshCapStatus. destruct (length mis =? 0)%nat; [discriminate|]. cbv zeta.
  destruct (RefreshCapStatus_range _ _ _ _ _) as [[[[[cs1 [e|]] mis1] mpcap1] w1]|] eqn:Hr;
    try discriminate.
  destruct (_ =? 0); [discriminate|]. cbn [NanoTime]. intros ?. simplify_eq.
  by exists cs1, w1.
Qed.

(** X12: A refresh that succeeds issues one statfs per available mountpath, in
    range order, and nothing else; the totals of the status are the sums,
    modulo 2^64, of the used and of the available bytes it has sampled. *)
Theorem RefreshCapStatus_totals
    (gco : Config) (mis : list MountpathInfo) (config : option Config)
    (mpcap : option (gmap string Capacity)) (cache : CapCache) (w : World)
    (cs : CapStatus) (mis' : list MountpathInfo)
    (mpcap' : option (gmap string Capacity)) (cache' : CapCache) (w' : World) :
  RefreshCapStatus gco mis config mpcap cache w
    = Returns ((cs, None), mis', mpcap', cache', w') →
  TotalUsed cs = wrap_u64 (foldr Z.add 0 (used_bytes mis'))
  ∧ TotalAvail cs = wrap_u64 (foldr Z.add 0 (avail_bytes mis'))
  ∧ journal w' = journal w ++ (SysStatfs ∘ Path <$> mis)
  ∧ dirs w' = dirs w ∧ glog w' = glog w.
Proof.
  intros (cs1 & w1 & Hr & -> & -> & _ & -> & _)%RefreshCapStatus_ok.
  apply RefreshCapStatus_range_ok in Hr as (_ & -> & -> & _ & ->).
  rewrite !foldl_wrap_u64_sum by done. done.
Qed.

Lemma RefreshCapStatus_totals_witness :
  let mis' := [set_capacity (mkCapacity 3768320 327680 92) (mountpath "/m1");
               set_capacity (mkCapacity 3932160 163840 96) (mountpath "/m2")] in
  let w' := (NanoTime (called [SysStatfs "/m1"; SysStatfs "/m2"] world_C)).2 in
  7700480 = wrap_u64 (foldr Z.add 0 (used_bytes mis'))
  ∧ 491520 = wrap_u64 (foldr Z.add 0 (avail_bytes mis'))
  ∧ journal w' = journal world_C ++ (SysStatfs ∘ Path <$> two_mountpaths)
  ∧ dirs w' = dirs world_C ∧ glog w' = glog world_C.
Proof.
  intros mis' w'.
  apply (RefreshCapStatus_totals config_C two_mountpaths None None cache_0 world_C
           (mkCapStatus 7700480 491520 94 96
              (Some (ErrCapacityExceeded 90 96 7700480 8192000 true)) true)
           mis' None (mkCapCache 0 558700000000
              (mkCapStatus 7700480 491520 94 96
                 (Some (ErrCapacityExceeded 90 96 7700480 8192000 true)) true)) w').
  vm_compute. reflexivity.
Defined.

(** X13: A refresh that succeeds records in the map it is given the capacity it
    has sampled on each available mountpath, under the path of the mountpath,
    and leaves the other keys of the map alone; with no map (nil) there is
    none afterwards.  The mountpaths keep their paths and path caches. *)
Theorem RefreshCapStatus_fills_mpcap
    (gco : Config) (mis : list MountpathInfo) (config : option Config)
    (mpcap : option (gmap string Capacity)) (cache : CapCache) (w : World)
    (cs : CapStatus) (mis' : list MountpathInfo)
    (mpcap' : option (gmap string Capacity)) (cache' : CapCache) (w' : World) :
  RefreshCapStatus gco mis config mpcap cache w
    = Returns ((cs, None), mis', mpcap', cache', w') →
  NoDup (Path <$> mis) →
  Forall2 (λ mi mi', Path mi' = Path mi ∧ bpc mi' = bpc mi) mis mis'
  ∧ (mpcap = None → mpcap' = None)
  ∧ (∀ m, mpcap = Some m →
       ∃ m', mpcap' = Some m'
             ∧ (∀ mi', mi' ∈ mis' → m' !! Path mi' = Some (capacity mi'))
             ∧ (∀ p, p ∉ Path <$> mis → m' !! p = m !! p)).
Proof.
  intros (cs1 & w1 & Hr & _)%RefreshCapStatus_ok Hnd.
  apply RefreshCapStatus_range_ok in Hr as (Hmis & _ & _ & -> & _).
  pose proof (Forall2_same_paths _ _ Hmis) as HP.
  split_and!; [done|by intros ->|].
  intros m ->. eexists. split; [done|]. rewrite <- HP in Hnd |- *.
  by apply foldl_insert_capacities.
Qed.

Lemma RefreshCapStatus_fills_mpcap_witness :
  let mis' := [set_capacity (mkCapacity 3768320 327680 92) (mountpath "/m1");
               set_capacity (mkCapacity 3932160 163840 96) (mountpath "/m2")] in
  let m0 : gmap string Capacity := {[ "/m0" := mkCapacity 1 2 3 ]} in
  let m1 : gmap string Capacity :=
    {[ "/m0" := mkCapacity 1 2 3; "/m1" := mkCapacity 3768320 327680 92;
       "/m2" := mkCapacity 3932160 163840 96 ]} in
  Forall2 (λ mi mi', Path mi' = Path mi ∧ bpc mi' = bpc mi) two_mountpaths mis'
  ∧ (Some m0 = None → Some m1 = None)
  ∧ (∀ m, Some m0 = Some m →
       ∃ m', Some m1 = Some m'
             ∧ (∀ mi', mi' ∈ mis' → m' !! Path mi' = Some (capacity mi'))
             ∧ (∀ p, p ∉ Path <$> two_mountpaths → m' !! p = m !! p)).
Proof.
  intros mis' m0 m1.
  apply (RefreshCapStatus_fills_mpcap config_C two_mountpaths None (Some m0) cache_0 world_C
           (mkCapStatus 7700480 491520 94 96
              (Some (ErrCapacityExceeded 90 96 7700480 8192000 true)) true)
           mis' (Some m1) (mkCapCache 0 558700000000
              (mkCapStatus 7700480 491520 94 96
                 (Some (ErrCapacityExceeded 90 96 7700480 8192000 true)) true))
           (NanoTime (called [SysStatfs "/m1"; SysStatfs "/m2"] world_C)).2).
  - vm_compute. reflexivity.
  - apply (bool_decide_unpack _). vm_compute. exact I.
Defined.

Lemma getCapacity_calm (mi : MountpathInfo) (config : Config) (w : World) (st : Statfs_t) :
  faults w = [] → statfs w !! Path mi = Some st →
  (Blocks st = 0 → getCapacity mi config true w = Panics)
  ∧ (Blocks st ≠ 0 →
     ∃ c, getCapacity mi config true w
          = Returns ((c, None), set_capacity c mi, called [SysStatfs (Path mi)] w)).
Proof.
  intros Hf Hst. unfold getCapacity, Statfs. cbn [negb].
  rewrite (enter_calm _ _ Hf). cbn [called statfs]. rewrite Hst. split.
  - intros ->. done.
  - intros Hb. apply Z.eqb_neq in Hb. rewrite Hb. by eexists.
Qed.

Lemma RefreshCapStatus_range_zero_blocks (config : Config) (mis : list MountpathInfo) :
  ∀ (mpcap : option (gmap string Capacity)) (cs0 : CapStatus) (w : World),
    faults w = [] →
    (∀ mi, mi ∈ mis → is_Some (statfs w !! Path mi)) →
    (∃ mi st, mi ∈ mis ∧ statfs w !! Path mi = Some st ∧ Blocks st = 0) →
    RefreshCapStatus_range mis config mpcap cs0 w = Panics.
Proof.
  induction mis as [|mi mis IH]; intros mpcap cs0 w Hf Hall (mi0 & st0 & Hin & Hst0 & Hz).
  { by apply elem_of_nil in Hin. }
  cbn [RefreshCapStatus_range].
  destruct (Hall mi) as [st Hst]; [by left|].
  destruct (getCapacity_calm mi config w st Hf Hst) as [Hzero Hok].
  destruct (decide (Blocks st = 0)) as [Hb|Hb]; [by rewrite (Hzero Hb)|].
  destruct (Hok Hb) as (c & ->).
  rewrite IH; [done|by apply called_calm| |].
  - intros mi' Hmi'. apply Hall. by right.
  - apply elem_of_cons in Hin as [->|Hin]; [congruence|]. by exists mi0, st0.
Qed.

(** X14: A mountpath whose filesystem reports no blocks makes the refresh panic
    on the division by the block count: when every available mountpath has
    statfs figures, no call is made to fail and one of the filesystems has
    zero blocks, [RefreshCapStatus] does not return. *)
Theorem RefreshCapStatus_zero_blocks_panics
    (gco : Config) (mis : list MountpathInfo) (config : option Config)
    (mpcap : option (gmap string Capacity)) (cache : CapCache) (w : World) :
  faults w = [] →
  (∀ mi, mi ∈ mis → is_Some (statfs w !! Path mi)) →
  (∃ mi st, mi ∈ mis ∧ statfs w !! Path mi = Some st ∧ Blocks st = 0) →
  RefreshCapStatus gco mis config mpcap cache w = Panics.
Proof.
  intros Hf Hall Hz. unfold RefreshCapStatus.
  destruct mis as [|mi mis]; [by destruct Hz as (? & ? & ?%elem_of_nil & _)|].
  cbn [length Nat.eqb]. cbv zeta.
  by rewrite RefreshCapStatus_range_zero_blocks.
Qed.

Lemma RefreshCapStatus_zero_blocks_panics_witness :
  RefreshCapStatus config_C two_mountpaths None None cache_0 world_noblocks = Panics.
Proof.
  apply (RefreshCapStatus_zero_blocks_panics config_C two_mountpaths None None cache_0
           world_noblocks).
  - reflexivity.
  - intros mi Hmi. unfold two_mountpaths in Hmi.
    apply elem_of_cons in Hmi as [->|Hmi];
      [|apply list_elem_of_singleton in Hmi as ->]; by eexists.
  - exists (mountpath "/m2"), (mkStatfs 0 0 4096). split_and!.
    + apply (bool_decide_unpack _). vm_compute. exact I.
    + vm_compute. reflexivity.
    + reflexivity.
Defined.

(** X15: After a refresh that succeeded, the tick of [CapPeriodic] that follows
    refreshes again exactly when the period [nextRefresh] has computed is no
    longer than the tick.  When it is longer the tick issues no statfs: it
    returns the zero status with [updated] false and only moves
    [capTime.curr] forward. *)
Theorem CapPeriodic_after_refresh
    (gco : Config) (mis : list MountpathInfo)
    (mpcap : option (gmap string Capacity)) (cache : CapCache) (w : World)
    (cs : CapStatus) (mis' : list MountpathInfo)
    (mpcap' : option (gmap string Capacity)) (cache' : CapCache) (w' : World) :
  RefreshCapStatus gco mis (Some gco) mpcap cache w
    = Returns ((cs, None), mis', mpcap', cache', w') →
  Config_sane gco → 0 ≤ clock w < 2 ^ 62 →
  (Periodic_StatsTime gco < nextRefresh cache' gco →
   CapPeriodic gco mis' mpcap' cache' w'
   = Returns ((CapStatus_zero, false, None), mis', mpcap',
              {| capTime_curr := clock w + Periodic_StatsTime gco;
                 capTime_next := clock w + nextRefresh cache' gco;
                 capStatus := cs |}, w'))
  ∧ (nextRefresh cache' gco ≤ Periodic_StatsTime gco →
     ∀ cs2 updated err2 mis2 mpcap2 cache2 w2,
       CapPeriodic gco mis' mpcap' cache' w'
       = Returns ((cs2, updated, err2), mis2, mpcap2, cache2, w2) →
       updated = true).
Proof.
  intros Hrun Hsane Hclock.
  pose proof Hrun as (cs1 & w1 & Hr & _ & _ & _ & -> & Hcache)%RefreshCapStatus_ok.
  apply RefreshCapStatus_range_ok in Hr as (_ & _ & _ & _ & ->).
  cbn [from_option called clock] in Hcache. unfold id in Hcache.
  assert (Hutil : - 2 ^ 31 ≤ PctAvg cs < 2 ^ 31).
  { unfold RefreshCapStatus in Hrun. destruct (length mis =? 0)%nat; [discriminate|].
    cbv zeta in Hrun.
    destruct (RefreshCapStatus_range _ _ _ _ _) as [[[[[cs0 [e|]] m0] p0] w0]|];
      try discriminate.
    destruct (_ =? 0); [discriminate|]. cbn [NanoTime] in Hrun. simplify_eq.
    cbn [PctAvg]. apply wrap_i32_range. }
  set (c1 := mkCapCache (capTime_curr cache) (capTime_next cache) cs) in Hcache.
  assert (Hnext : nextRefresh cache' gco = nextRefresh c1 gco)
    by (unfold nextRefresh; by rewrite Hcache).
  rewrite Hnext.
  pose proof (nextRefresh_range c1 gco Hsane Hutil) as Hrange.
  set (nr := nextRefresh c1 gco) in *. clearbody nr. clear Hnext.
  destruct Hsane as (_ & _ & _ & Ht & Hmax).
  rewrite (wrap_i64_small (clock w + nr)) in Hcache by lia.
  subst cache'. clear Hrun. unfold CapPeriodic. cbv zeta.
  cbn [capTime_curr capTime_next capStatus].
  rewrite (wrap_i64_small (clock w + Periodic_StatsTime gco)) by lia.
  split.
  - intros Hlt. destruct (Z.ltb_spec (clock w + Periodic_StatsTime gco)
                            (clock w + nr)); [done|lia].
  - intros Hle cs2 updated err2 mis2 mpcap2 cache2 w2.
    destruct (Z.ltb_spec (clock w + Periodic_StatsTime gco) (clock w + nr)); [lia|].
    destruct (RefreshCapStatus _ _ _ _ _ _) as [[[[[[csr er] mr] pr] cr] wr]|];
      [|discriminate].
    intros ?. by simplify_eq.
Qed.

Lemma CapPeriodic_after_refresh_witness :
  (Periodic_StatsTime config_C < nextRefresh cache_C config_C →
   CapPeriodic config_C mis_C None cache_C world_C'
   = Returns ((CapStatus_zero, false, None), mis_C, None,
              {| capTime_curr := clock world_C + Periodic_StatsTime config_C;
                 capTime_next := clock world_C + nextRefresh cache_C config_C;
                 capStatus := cs_C |}, world_C'))
  ∧ (nextRefresh cache_C config_C ≤ Periodic_StatsTime config_C →
     ∀ cs2 updated err2 mis2 mpcap2 cache2 w2,
       CapPeriodic config_C mis_C None cache_C world_C'
       = Returns ((cs2, updated, err2), mis2, mpcap2, cache2, w2) →
       updated = true).
Proof.
  apply (CapPeriodic_after_refresh config_C two_mountpaths None cache_0 world_C
           cs_C mis_C None cache_C world_C').
  - vm_compute. reflexivity.
  - exact config_C_sane.
  - cbn. lia.
Defined.

(** ** Path composer: the layout and the buffer *)

Lemma len_append (a b : string) : len (a +:+ b) = (len a + len b)%nat.
Proof.
  unfold len. induction a as [|x a IH]; [done|].
  change (S (String.length (a +:+ b)) = S (String.length a + String.length b)).
  by rewrite IH.
Qed.

Lemma makePathBuf_ct (mi : MountpathInfo) (bck : Bck) (contentType : string) :
  nonempty contentType = true →
  (∀ props, Bck_Props bck = Some props → BID props ≠ 0%N) →
  makePathBuf mi bck contentType
  = (MakePathBck mi bck).1 +:+ Separator +:+ prefCT +:+ contentType.
Proof.
  intros Hct Hbid. unfold MakePathBck, makePathBuf at 1. rewrite Hct.
  cbn [Nat.add contentTypeLen Nat.ltb Nat.leb].
  destruct (Bck_Props bck) as [props|] eqn:Hp.
  - specialize (Hbid props eq_refl). apply N.eqb_neq in Hbid. rewrite Hbid. cbn [negb].
    destruct (bpc mi !! BID props) as [bdir|]; [done|].
    cbn [fst]. unfold makePathBuf. cbn [nonempty Nat.ltb Nat.leb]. done.
  - cbn [fst]. unfold makePathBuf. cbn [nonempty Nat.ltb Nat.leb]. done.
Qed.

(** X16: The layout: for a bucket whose id, if it carries one, is not zero, the
    content-type directory is [%<ct>] under the bucket directory that
    [MakePathBck] returns, cached or composed, and the name of an object is
    its name under the content-type directory. *)
Theorem MakePathFQN_under_MakePathBck (mi : MountpathInfo) (bck : Bck)
    (contentType objName : string) :
  nonempty contentType = true →
  (∀ props, Bck_Props bck = Some props → BID props ≠ 0%N) →
  MakePathCT mi bck contentType
  = (MakePathBck mi bck).1 +:+ "/" +:+ "%" +:+ contentType
  ∧ MakePathFQN mi bck contentType objName
    = (((MakePathBck mi bck).1 +:+ "/" +:+ "%" +:+ contentType) +:+ "/") +:+ objName.
Proof.
  intros Hct Hbid. unfold MakePathFQN, MakePathCT.
  by rewrite (makePathBuf_ct mi bck contentType Hct Hbid).
Qed.

Lemma MakePathFQN_under_MakePathBck_witness :
  MakePathCT m1_cached b1_7 ObjectType
  = (MakePathBck m1_cached b1_7).1 +:+ "/" +:+ "%" +:+ ObjectType
  ∧ MakePathFQN m1_cached b1_7 ObjectType "obj1"
    = (((MakePathBck m1_cached b1_7).1 +:+ "/" +:+ "%" +:+ ObjectType) +:+ "/") +:+ "obj1".
Proof.
  apply (MakePathFQN_under_MakePathBck m1_cached b1_7 ObjectType "obj1").
  - reflexivity.
  - intros props [= <-]. vm_compute. discriminate.
Defined.

(** X17: The buffer [makePathBuf] allocates is exactly as long as the path it
    builds plus the [extra] bytes asked for, so that neither its own appends
    nor the object name [MakePathFQN] appends reallocate, provided the
    content type is empty or has the length of a content type. *)
Theorem makePathBuf_fills_capacity (mi : MountpathInfo) (bck : Bck)
    (contentType : string) (extra : nat) :
  contentType = "" ∨ len contentType = contentTypeLen →
  (len (makePathBuf mi bck contentType) + extra)%nat
  = makePathBuf_cap mi bck contentType extra.
Proof.
  intros Hct. unfold makePathBuf, makePathBuf_cap.
  destruct (nonempty contentType) eqn:Hne.
  - destruct Hct as [Hl|Hl]; [by subst|].
    cbn [Nat.add contentTypeLen Nat.ltb Nat.leb].
    assert (Hsuffix : ∀ buf, len (buf +:+ Separator +:+ prefCT +:+ contentType)
                             = (len buf + 4)%nat).
    { intros buf. rewrite !len_append, Hl.
      change (len Separator) with 1%nat. change (len prefCT) with 1%nat.
      unfold contentTypeLen. lia. }
    destruct (match Bck_Props bck with
              | Some props => if negb (BID props =? 0)%N then bpc mi !! BID props else None
              | None => None
              end) as [bdir|].
    + rewrite Hsuffix. unfold contentTypeLen. lia.
    + rewrite Hsuffix. unfold contentTypeLen.
      destruct (Ns_IsGlobal (Bck_Ns bck)), (Ns_IsRemote (Bck_Ns bck)),
        (nonempty (Bck_Name bck)); cbn [negb Nat.ltb Nat.leb Nat.add];
        rewrite ?len_append;
        change (len Separator) with 1%nat; change (len prefProvider) with 1%nat;
        change (len prefNsUUID) with 1%nat; change (len prefNsName) with 1%nat; lia.
  - cbn [Nat.ltb Nat.leb].
    destruct (Ns_IsGlobal (Bck_Ns bck)), (Ns_IsRemote (Bck_Ns bck)),
      (nonempty (Bck_Name bck)); cbn [negb Nat.ltb Nat.leb Nat.add];
      rewrite ?len_append;
        change (len Separator) with 1%nat; change (len prefProvider) with 1%nat;
        change (len prefNsUUID) with 1%nat; change (len prefNsName) with 1%nat; lia.
Qed.

Lemma makePathBuf_fills_capacity_witness :
  (len (makePathBuf (mountpath "/m1") (bucket "b1" None) ObjectType) + 5)%nat
  = makePathBuf_cap (mountpath "/m1") (bucket "b1" None) ObjectType 5.
Proof.
  apply (makePathBuf_fills_capacity (mountpath "/m1") (bucket "b1" None) ObjectType 5).
  right. reflexivity.
Defined.

(** ** Transaction coordinator: the validations of the begin phase *)

(** X18: [validateNprops] on a bucket bound to its properties never panics and
    always hands back the decoded proposal; it lets the proposal through
    exactly when mirroring, if the proposal enables it, asks for no more
    copies than there are available mountpaths and raises the copy count only
    while the capacity is fine, and erasure coding is newly enabled only
    while the capacity is fine.  A proposal that disables mirroring and does
    not newly enable erasure coding is always let through. *)
Theorem validateNprops_accepts_iff (t : Target) (bck : Bck) (props : BucketProps)
    (msgInt : actionMsgInternal) (nprops : BucketProps) :
  Bck_Props bck = Some props → Value msgInt = ValueProps nprops →
  (∃ r, validateNprops t bck msgInt = Returns (nprops, r))
  ∧ (validateNprops t bck msgInt = Returns (nprops, None)
     ↔ nprops_acceptable (Z.of_nat (length (t_available t))) (t_capInfoErr t)
         props nprops).
Proof.
  intros Hp Hv. unfold validateNprops, nprops_acceptable. rewrite Hv, Hp.
  destruct (Mirror_Enabled (Mirror nprops)) eqn:Hm,
           (EC_Enabled (EC nprops)) eqn:Hec,
           (EC_Enabled (EC props)) eqn:Hec0,
           (t_capInfoErr t) as [e|] eqn:Hcap;
    cbn [negb fmap option_fmap option_map];
    try (destruct (Z.ltb_spec (Z.of_nat (length (t_available t)))
                     (Mirror_Copies (Mirror nprops))));
    try (destruct (Z.ltb_spec (Mirror_Copies (Mirror props))
                     (Mirror_Copies (Mirror nprops))));
    cbn [andb bool_decide negb fmap option_fmap option_map];
    try rewrite (bool_decide_eq_true_2 (is_Some (Some e))) by (by eexists);
    try rewrite (bool_decide_eq_false_2 (is_Some (@None error))) by (by intros [? ?]);
    cbn [andb];
    (split; [by eexists|]);
    (split; [intros ?; simplify_eq; try (split; intros; try split; intros; (done || lia))
            |intros [H1 H2]; try done;
             try (destruct (H1 eq_refl) as [? H3]; try lia; try (by specialize (H3 ltac:(lia))));
             try (by specialize (H2 eq_refl eq_refl))]).
Qed.

Lemma validateNprops_accepts_iff_witness :
  (∃ r, validateNprops (target_b1 ∅ []) (bucket "b1" (Some mirror_off))
          (mkMsg (ValueProps mirror_3) "u" 1) = Returns (mirror_3, r))
  ∧ (validateNprops (target_b1 ∅ []) (bucket "b1" (Some mirror_off))
       (mkMsg (ValueProps mirror_3) "u" 1) = Returns (mirror_3, None)
     ↔ nprops_acceptable (Z.of_nat (length (t_available (target_b1 ∅ []))))
         (t_capInfoErr (target_b1 ∅ [])) mirror_off mirror_3).
Proof.
  apply (validateNprops_accepts_iff (target_b1 ∅ []) (bucket "b1" (Some mirror_off))
           mirror_off (mkMsg (ValueProps mirror_3) "u" 1) mirror_3); reflexivity.
Defined.

Lemma validateBckRenTxn_range_spec (bckTo : Bck) (mis : list MountpathInfo) :
  ∀ w err w',
    validateBckRenTxn_range mis bckTo w = (err, w') →
    dirs w' = dirs w ∧ glog w' = glog w
    ∧ (err = None →
       ∀ mi, mi ∈ mis → absent_or_empty (dirs w) (MakePathCT mi bckTo ObjectType)).
Proof.
  induction mis as [|mi mis IH]; intros w err w' Hrun; cbn [validateBckRenTxn_range] in Hrun.
  { simplify_eq. split_and!; try done. intros _ mi Hin. by apply elem_of_nil in Hin. }
  pose proof (Access_world (MakePathCT mi bckTo ObjectType) w) as Hw.
  pose proof (Access_ENOENT (MakePathCT mi bckTo ObjectType) w) as Hno.
  destruct (Access _ w) as [[e|] w1]; cbn [fst snd] in Hw, Hno; subst w1.
  - destruct (IsNotExist e) eqn:He; cbn [negb] in Hrun; [|by simplify_eq].
    apply IH in Hrun as (Hd & Hg & Hall). rewrite dirs_called in *.
    split_and!; [done|done|]. intros -> mi0 [->|Hin]%elem_of_cons; [|by apply Hall].
    left. by apply (Hno e).
  - pose proof (IsDirEmpty_world (MakePathCT mi bckTo ObjectType)
                  (called [SysAccess (MakePathCT mi bckTo ObjectType)] w)) as Hw.
    assert (Hemp : ∀ names, (IsDirEmpty (MakePathCT mi bckTo ObjectType)
                     (called [SysAccess (MakePathCT mi bckTo ObjectType)] w)).1
                   = (names, true, None) →
                   dirs w !! MakePathCT mi bckTo ObjectType = Some []).
    { intros names. unfold IsDirEmpty.
      destruct (enter_spec (SysReadDir (MakePathCT mi bckTo ObjectType))
                  (called [SysAccess (MakePathCT mi bckTo ObjectType)] w)) as (r0 & -> & _).
      destruct r0; [done|]. rewrite !dirs_called.
      destruct (dirs w !! _) as [[|n ns]|]; by intros ?; simplify_eq. }
    destruct (IsDirEmpty _ _) as [[[names empty] [e|]] w1]; cbn [fst snd] in Hw, Hemp;
      subst w1; [by simplify_eq|].
    destruct empty; cbn [negb] in Hrun; [|by simplify_eq].
    apply IH in Hrun as (Hd & Hg & Hall). rewrite !dirs_called in *.
    split_and!; [done|done|]. intros -> mi0 [->|Hin]%elem_of_cons; [|by apply Hall].
    right. by apply (Hemp names).
Qed.

(** X19: [validateBckRenTxn] only looks: whatever it returns, the directories, the
    path caches, the transaction table and the BMD are as before.  When it
    lets the rename through, the message named a destination, the capacity is
    fine, the source is in the BMD and the destination is not, and on every
    available mountpath the object directory of the destination is missing
    or empty. *)
Theorem validateBckRenTxn_accepts (t : Target) (bckFrom : Bck) (msgInt : actionMsgInternal)
    (bckTo : option Bck) (err : option aerror) (t' : Target) :
  validateBckRenTxn t bckFrom msgInt = ((bckTo, err), t') →
  side_effects t' = side_effects t
  ∧ t_transactions t' = t_transactions t ∧ t_bmd t' = t_bmd t
  ∧ (err = None →
     ∃ bTo, Value msgInt = ValueBck bTo
       ∧ bckTo = Some (mkBck (Bck_Name bTo) (Bck_Provider bTo) (Bck_Ns bTo) None)
       ∧ t_capInfoErr t = None
       ∧ is_Some (BMD_Get (t_bmd t) bckFrom)
       ∧ BMD_Get (t_bmd t) (mkBck (Bck_Name bTo) (Bck_Provider bTo) (Bck_Ns bTo) None) = None
       ∧ ∀ mi, mi ∈ t_available t →
           absent_or_empty (dirs (t_world t))
             (MakePathCT mi (mkBck (Bck_Name bTo) (Bck_Provider bTo) (Bck_Ns bTo) None)
                         ObjectType)).
Proof.
  unfold validateBckRenTxn.
  destruct (Value msgInt) as [| |bTo|] eqn:Hv; try (intros ?; by simplify_eq).
  destruct (t_capInfoErr t) as [e|] eqn:Hcap; [intros ?; by simplify_eq|].
  destruct (BMD_Get (t_bmd t) bckFrom) as [pf|] eqn:Hfrom; [|intros ?; by simplify_eq].
  destruct (BMD_Get (t_bmd t) (mkBck _ _ _ None)) as [pt|] eqn:Hto;
    [intros ?; by simplify_eq|].
  destruct (validateBckRenTxn_range _ _ _) as [err1 w1] eqn:Hr.
  apply validateBckRenTxn_range_spec in Hr as (Hd & Hg & Hall).
  intros ?. simplify_eq. unfold side_effects. cbn. rewrite Hd.
  split_and!; try done. intros ->. exists bTo.
  refine (conj eq_refl (conj eq_refl (conj eq_refl (conj _ (conj Hto _)))));
    [by eexists|by apply Hall].
Qed.

Lemma validateBckRenTxn_accepts_witness :
  let bTo := mkBck "b2" "ais" (mkNs "" "") None in
  let t' := set_fs (t_available (target_b1 ∅ []))
              (called [SysAccess "/m1/@ais/b2/%ob"; SysAccess "/m2/@ais/b2/%ob"] world_0)
              (target_b1 ∅ []) in
  side_effects t' = side_effects (target_b1 ∅ [])
  ∧ t_transactions t' = t_transactions (target_b1 ∅ []) ∧ t_bmd t' = t_bmd (target_b1 ∅ [])
  ∧ (@None aerror = None →
     ∃ bTo0, ValueBck bTo = ValueBck bTo0
       ∧ Some bTo = Some (mkBck (Bck_Name bTo0) (Bck_Provider bTo0) (Bck_Ns bTo0) None)
       ∧ t_capInfoErr (target_b1 ∅ []) = None
       ∧ is_Some (BMD_Get (t_bmd (target_b1 ∅ [])) (bucket "b1" None))
       ∧ BMD_Get (t_bmd (target_b1 ∅ []))
           (mkBck (Bck_Name bTo0) (Bck_Provider bTo0) (Bck_Ns bTo0) None) = None
       ∧ ∀ mi, mi ∈ t_available (target_b1 ∅ []) →
           absent_or_empty (dirs (t_world (target_b1 ∅ [])))
             (MakePathCT mi (mkBck (Bck_Name bTo0) (Bck_Provider bTo0) (Bck_Ns bTo0) None)
                         ObjectType)).
Proof.
  intros bTo t'.
  apply (validateBckRenTxn_accepts (target_b1 ∅ []) (bucket "b1" None)
           (mkMsg (ValueBck bTo) "u" 1) (Some bTo) None t').
  vm_compute. reflexivity.
Defined.

(** ** Mountpath registry: membership *)

Section Membership_properties.
Context {Env : Type} `{Collaborators Env}.

Lemma _addEnabled_spec (mi : Mpath) (tid : string) (a : gmap string Mpath) (m : MountedFS Env)
    (mi' : Mpath) (a' : gmap string Mpath) (m' : MountedFS Env) :
  _addEnabled mi tid a m = Returns (None, mi', a', m') →
  (∃ disks, mi' = set_Disks disks mi) ∧ a' = <[mp_Path mi := mi']> a
  ∧ mfs_available m' = mfs_available m ∧ mfs_disabled m' = mfs_disabled m
  ∧ mfs_fsIDs m' = mfs_fsIDs m ∧ mfs_checkFsID m' = mfs_checkFsID m
  ∧ mfs_glog m' = mfs_glog m.
Proof.
  unfold _addEnabled.
  destruct (ios_AddMpath _ _ _) as [[disks|err] env]; [|done].
  destruct (nonempty tid && negb MDWrite_never).
  - destruct (SetDaemonIDXattr _ _ _) as [[[e|] env1]|]; try done.
    intros ?. simplify_eq. split; [by eexists|]. done.
  - intros ?. simplify_eq. split; [by eexists|]. done.
Qed.

Lemma _addEnabled_err (mi : Mpath) (tid : string) (a : gmap string Mpath) (m : MountedFS Env)
    (e : RegError) (mi' : Mpath) (a' : gmap string Mpath) (m' : MountedFS Env) :
  _addEnabled mi tid a m = Returns (Some e, mi', a', m') →
  mfs_available m' = mfs_available m ∧ mfs_disabled m' = mfs_disabled m
  ∧ mfs_fsIDs m' = mfs_fsIDs m ∧ mfs_checkFsID m' = mfs_checkFsID m.
Proof.
  unfold _addEnabled.
  destruct (ios_AddMpath _ _ _) as [[disks|err] env]; [|by intros ?; simplify_eq].
  destruct (nonempty tid && negb MDWrite_never).
  - destruct (SetDaemonIDXattr _ _ _) as [[[e0|] env1]|]; try done.
    by intros ?; simplify_eq.
  - done.
Qed.

Lemma Get_updatePaths (a d : gmap string Mpath) (m : MountedFS Env) :
  Get (updatePaths a d m) = (a, d).
Proof. done. Qed.

Lemma MPIx_keyed_insert (a : gmap string Mpath) (mi : Mpath) :
  MPIx_keyed a → MPIx_keyed (<[mp_Path mi := mi]> a).
Proof.
  intros Ha p mi0. destruct (decide (mp_Path mi = p)) as [<-|Hne].
  - rewrite lookup_insert_eq. by intros [= <-].
  - rewrite lookup_insert_ne by done. apply Ha.
Qed.

Lemma MPIx_keyed_delete (a : gmap string Mpath) (p : string) :
  MPIx_keyed a → MPIx_keyed (delete p a).
Proof. intros Ha q mi Hq. apply lookup_delete_Some in Hq as [_ Hq]. by apply Ha. Qed.

(** What [enable] returns and leaves behind, case by case. *)
Lemma enable_spec (mpath cleanMpath tid : string) (m : MountedFS Env)
    (r : option Mpath) (e : option RegError) (m' : MountedFS Env) :
  enable mpath cleanMpath tid m = Returns (r, e, m') →
  (Get m' = Get m ∧ mfs_fsIDs m' = mfs_fsIDs m ∧ mfs_checkFsID m' = mfs_checkFsID m
   ∧ r = None)
  ∨ (∃ mi mi' disks,
       (Get m).1 !! cleanMpath = None ∧ (Get m).2 !! cleanMpath = Some mi
       ∧ mi' = set_Disks disks mi ∧ r = Some mi' ∧ e = None
       ∧ Get m' = (<[mp_Path mi := mi']> (Get m).1, delete cleanMpath (Get m).2)
       ∧ mfs_fsIDs m' = <[mp_FsID mi := mp_Path mi]> (mfs_fsIDs m)
       ∧ mfs_checkFsID m' = mfs_checkFsID m).
Proof.
  unfold enable, cloneMPI.
  destruct (Get m) as [a d] eqn:HG. cbn [fst snd].
  destruct (a !! cleanMpath) as [mi0|] eqn:Ha; [intros ?; simplify_eq; by left|].
  destruct (d !! cleanMpath) as [mi|] eqn:Hd; [|intros ?; simplify_eq; by left].
  destruct (_checkExists mi a m) as [err|]; [intros ?; simplify_eq; by left|].
  destruct (_addEnabled mi tid a m) as [[[[[err|] mi1] a1] m1]|] eqn:Hadd; [| |done].
  - apply _addEnabled_err in Hadd as (Hav & Hdis & Hids & Hck).
    intros ?. simplify_eq. left. unfold Get in *. by rewrite Hav, Hdis.
  - apply _addEnabled_spec in Hadd as ([disks ->] & -> & Hav & Hdis & Hids & Hck & _).
    intros ?. simplify_eq. right. exists mi, (set_Disks disks mi), disks.
    split_and!; try done. cbn. by rewrite Hids.
Qed.

(** What [Disable] returns and leaves behind, case by case. *)
Lemma Disable_spec (mpath cleanMpath : string) (cb : option (Env → Env))
    (m : MountedFS Env) :
  ValidateMpath mpath = inl cleanMpath →
  match (Get m).1 !! cleanMpath with
  | Some mi =>
      ∃ m', Disable mpath cb m = (Some mi, None, m')
            ∧ Get m' = (delete cleanMpath (Get m).1, <[cleanMpath := mi]> (Get m).2)
            ∧ mfs_fsIDs m' = mfs_fsIDs m ∧ mfs_checkFsID m' = mfs_checkFsID m
  | None =>
      Disable mpath cb m
      = (None, match (Get m).2 !! cleanMpath with
               | Some _ => None
               | None => Some (ErrNoMountpath mpath)
               end, m)
  end.
Proof.
  intros Hv. unfold Disable, cloneMPI. rewrite Hv.
  destruct (Get m) as [a d] eqn:HG. cbn [fst snd].
  destruct (a !! cleanMpath) as [mi|] eqn:Ha.
  - eexists. split; [done|]. destruct (size (delete cleanMpath a) =? 0)%nat; [done|].
    by destruct cb.
  - by destruct (d !! cleanMpath).
Qed.

(** What [Remove] returns and leaves behind, case by case. *)
Lemma Remove_spec (mpath cleanMpath : string) (cb : option (Env → Env))
    (m : MountedFS Env) (r : option Mpath) (e : option RegError) (m' : MountedFS Env) :
  ValidateMpath mpath = inl cleanMpath →
  Remove mpath cb m = (r, e, m') →
  mfs_checkFsID m' = mfs_checkFsID m
  ∧ ((is_Some e ∧ r = None ∧ Get m' = Get m ∧ mfs_fsIDs m' = mfs_fsIDs m)
     ∨ (∃ mi, r = Some mi ∧ e = None
          ∧ mfs_fsIDs m' = delete (mp_FsID mi) (mfs_fsIDs m)
          ∧ (((Get m).1 !! cleanMpath = Some mi
              ∧ Get m' = (delete cleanMpath (Get m).1, (Get m).2))
             ∨ ((Get m).1 !! cleanMpath = None ∧ (Get m).2 !! cleanMpath = Some mi
                ∧ Get m' = ((Get m).1, delete cleanMpath (Get m).2))))).
Proof.
  intros Hv. unfold Remove, cloneMPI. rewrite Hv.
  destruct (removeXattr _ _ _) as [[err|] env].
  { intros ?. simplify_eq. split; [done|]. left. split; [by eexists|done]. }
  change (Get (set_env env m)) with (Get m).
  destruct (Get m) as [a d] eqn:HG. cbn [fst snd].
  destruct (a !! cleanMpath) as [mi|] eqn:Ha.
  - intros ?. simplify_eq. split; [by repeat case_match|].
    right. exists mi. split_and!; try done; [by repeat case_match|].
    left. split; [done|]. by repeat case_match.
  - destruct (d !! cleanMpath) as [mi|] eqn:Hd.
    + intros ?. simplify_eq. split; [done|]. right. exists mi. split_and!; try done.
      by right.
    + intros ?. simplify_eq. split; [done|]. left. split; [by eexists|].
      split_and!; try done.
Qed.

Lemma mfs_wf_intro (m : MountedFS Env) (a d : gmap string Mpath) :
  Get m = (a, d) → MPIx_keyed a → MPIx_keyed d → dom a ## dom d → mfs_wf m.
Proof. intros HG Ha Hd Hdisj. unfold mfs_wf. by rewrite HG. Qed.

(** X20: [Enable], [EnableMpath], [Disable] and [Remove] keep the registry well
    formed: afterwards both maps are still keyed by the paths of their
    mountpaths and no path is in both, whether the operation failed or not. *)
Theorem registry_stays_well_formed (m : MountedFS Env) (mpath tid : string)
    (cb : Env → Env) (cbo : option (Env → Env)) :
  mfs_wf m →
  mfs_wf (Disable mpath cbo m).2
  ∧ mfs_wf (Remove mpath cbo m).2
  ∧ (∀ r e m', Enable mpath m = Returns (r, e, m') → mfs_wf m')
  ∧ (∀ r e m', EnableMpath mpath tid cb m = Returns (r, e, m') → mfs_wf m').
Proof.
  intros Hwf. pose proof Hwf as (Ha & Hd & Hdisj).
  assert (Hsame : ∀ m' : MountedFS Env, Get m' = Get m → mfs_wf m').
  { intros m' HG. unfold mfs_wf. by rewrite HG. }
  assert (Hen : ∀ clean tid0 r e (m' : MountedFS Env),
            enable mpath clean tid0 m = Returns (r, e, m') → mfs_wf m').
  { intros clean tid0 r e m'
      [(HG & _)|(mi & mi' & disks & Hna & Hdm & -> & _ & _ & HG & _)]%enable_spec;
      [by apply Hsame|].
    pose proof (Hd _ _ Hdm) as HP.
    apply (mfs_wf_intro _ _ _ HG).
    - change (mp_Path mi) with (mp_Path (set_Disks disks mi)). by apply MPIx_keyed_insert.
    - by apply MPIx_keyed_delete.
    - rewrite HP, dom_insert, dom_delete. set_solver. }
  split_and!.
  - destruct (ValidateMpath mpath) as [clean|err] eqn:Hv;
      [|unfold Disable; by rewrite Hv].
    pose proof (Disable_spec mpath clean cbo m Hv) as HD.
    destruct ((Get m).1 !! clean) as [mi|] eqn:Hm.
    + destruct HD as (m' & -> & HG & _). cbn [snd].
      apply (mfs_wf_intro _ _ _ HG).
      * by apply MPIx_keyed_delete.
      * rewrite <- (Ha _ _ Hm). by apply MPIx_keyed_insert.
      * rewrite dom_insert, dom_delete. set_solver.
    + by rewrite HD.
  - destruct (ValidateMpath mpath) as [clean|err] eqn:Hv;
      [|unfold Remove; by rewrite Hv].
    destruct (Remove mpath cbo m) as [[r e] m'] eqn:HR.
    apply (Remove_spec _ _ _ _ _ _ _ Hv) in HR
      as (_ & [(_ & _ & HG & _)|(mi & _ & _ & _ & [(_ & HG)|(_ & _ & HG)])]); cbn [snd].
    + by apply Hsame.
    + apply (mfs_wf_intro _ _ _ HG); [by apply MPIx_keyed_delete|done|].
      rewrite dom_delete. set_solver.
    + apply (mfs_wf_intro _ _ _ HG); [done|by apply MPIx_keyed_delete|].
      rewrite dom_delete. set_solver.
  - intros r e m'. unfold Enable.
    destruct (ValidateMpath mpath) as [clean|err]; [apply Hen|].
    intros ?. by simplify_eq.
  - intros r e m'. unfold EnableMpath.
    destruct (ValidateMpath mpath) as [clean|err]; [|intros ?; by simplify_eq].
    destruct (enable mpath clean tid m) as [[[r0 [e0|]] m0]|] eqn:He; [| |done].
    + intros ?. simplify_eq. by eapply Hen.
    + intros ?. simplify_eq. apply Hen in He. by destruct m0.
Qed.

(** X21: [Disable] and [EnableMpath] neither add nor lose a mountpath: the paths
    known to the registry, available or disabled, are the same afterwards.
    [Remove] loses exactly the path it is given when it returns no error, and
    nothing when it returns one. *)
Theorem registry_membership (m : MountedFS Env) (mpath cleanMpath tid : string)
    (cb : Env → Env) (cbo : option (Env → Env)) :
  ValidateMpath mpath = inl cleanMpath → mfs_wf m →
  mfs_known (Disable mpath cbo m).2 = mfs_known m
  ∧ (∀ r e m', EnableMpath mpath tid cb m = Returns (r, e, m') →
               mfs_known m' = mfs_known m)
  ∧ (∀ r e m', Remove mpath cbo m = (r, e, m') →
               mfs_known m' = match e with
                              | Some _ => mfs_known m
                              | None => mfs_known m ∖ {[cleanMpath]}
                              end).
Proof.
  intros Hv (Ha & Hd & Hdisj). unfold mfs_known. split_and!.
  - pose proof (Disable_spec mpath cleanMpath cbo m Hv) as HD.
    destruct ((Get m).1 !! cleanMpath) as [mi|] eqn:Hm.
    + destruct HD as (m' & -> & HG & _). cbn [snd]. rewrite HG. cbn [fst snd].
      apply elem_of_dom_2 in Hm. rewrite dom_insert_L, dom_delete_L.
      apply set_eq. intros p. destruct (decide (p = cleanMpath)); set_solver.
    + by rewrite HD.
  - intros r e m'. unfold EnableMpath. rewrite Hv.
    destruct (enable mpath cleanMpath tid m) as [[[r0 e0] m0]|] eqn:He; [|by destruct e].
    assert (HG : dom (Get m0).1 ∪ dom (Get m0).2 = dom (Get m).1 ∪ dom (Get m).2).
    { apply enable_spec in He
        as [(-> & _)|(mi & mi' & disks & Hna & Hdm & _ & _ & _ & -> & _)]; [done|].
      cbn [fst snd]. rewrite (Hd _ _ Hdm). apply elem_of_dom_2 in Hdm.
      rewrite dom_insert_L, dom_delete_L.
      apply set_eq. intros p. destruct (decide (p = cleanMpath)); set_solver. }
    destruct e0; intros ?; simplify_eq; [done|]. by destruct m0.
  - intros r e m' HR.
    apply (Remove_spec _ _ _ _ _ _ _ Hv) in HR
      as (_ & [([e0 ->] & _ & -> & _)|(mi & _ & -> & _ & [(Hm & ->)|(Hna & Hm & ->)])]);
      [done| |]; cbn [fst snd]; rewrite dom_delete_L.
    + apply elem_of_dom_2 in Hm. set_solver.
    + apply not_elem_of_dom in Hna. set_solver.
Qed.

(** X22: With the FSID check off, disabling an available mountpath and enabling it
    again brings the registry back to where it was, the disks of the
    mountpath apart, which are those the I/O statistics report when it is
    enabled.  The premise on [_addEnabled] is that the collaborators accept
    the mountpath. *)
Theorem Disable_then_EnableMpath (m : MountedFS Env) (mpath cleanMpath tid : string)
    (cb : Env → Env) (cbo : option (Env → Env)) (mi mi' : Mpath)
    (a' : gmap string Mpath) (m1' : MountedFS Env) :
  ValidateMpath mpath = inl cleanMpath → mfs_wf m →
  (Get m).1 !! cleanMpath = Some mi →
  mfs_checkFsID m = false →
  _addEnabled mi tid (Get (Disable mpath cbo m).2).1 (Disable mpath cbo m).2
  = Returns (None, mi', a', m1') →
  ∃ m2, EnableMpath mpath tid cb (Disable mpath cbo m).2 = Returns (Some mi', None, m2)
        ∧ Get m2 = (<[cleanMpath := mi']> (Get m).1, (Get m).2)
        ∧ (∃ disks, mi' = set_Disks disks mi)
        ∧ mfs_fsIDs m2 = <[mp_FsID mi := cleanMpath]> (mfs_fsIDs m).
Proof.
  intros Hv (Ha & Hd & Hdisj) Hm Hck.
  pose proof (Disable_spec mpath cleanMpath cbo m Hv) as HD. rewrite Hm in HD.
  destruct HD as (m1 & -> & HG1 & Hids1 & Hck1). cbn [snd]. rewrite HG1. cbn [fst].
  intros Hadd. unfold EnableMpath, enable, cloneMPI. rewrite Hv, HG1.
  rewrite lookup_delete_eq, lookup_insert_eq.
  unfold _checkExists. rewrite (Ha _ _ Hm), lookup_delete_eq, Hck1, Hck.
  assert (Hchk : match mfs_fsIDs m1 !! mp_FsID mi with
                 | Some existingPath =>
                     if false then Some (ErrFsidShared (mp_FsID mi) mi existingPath) else None
                 | None => None
                 end = None).
  { destruct (mfs_fsIDs m1 !! mp_FsID mi); done. }
  rewrite Hchk, Hadd.
  apply _addEnabled_spec in Hadd as (Hdisks & -> & Hav & Hdis & Hids & _).
  eexists. split; [done|].
  cbn [Get updatePaths set_fsIDs set_env mfs_available mfs_disabled mfs_fsIDs
       default from_option fst snd].
  rewrite ?(Ha _ _ Hm), insert_delete_eq, delete_insert_eq, Hids, Hids1.
  rewrite delete_id by (apply not_elem_of_dom; apply elem_of_dom_2 in Hm; set_solver).
  destruct Hdisks as [disks ->].
  change (mp_Path (set_Disks disks mi)) with (mp_Path mi). rewrite (Ha _ _ Hm).
  split_and!; [done|by eexists|done].
Qed.

(** X23: With the FSID check on, a mountpath that [Disable] has moved out cannot
    be enabled again: its filesystem id is still registered, to itself, and
    [EnableMpath] refuses it as sharing a filesystem.  The registry stays as
    [Disable] left it. *)
Theorem EnableMpath_after_Disable_refused (m : MountedFS Env)
    (mpath cleanMpath tid : string) (cb : Env → Env) (cbo : option (Env → Env))
    (mi : Mpath) (existingPath : string) :
  ValidateMpath mpath = inl cleanMpath → mfs_wf m →
  (Get m).1 !! cleanMpath = Some mi →
  mfs_checkFsID m = true →
  mfs_fsIDs m !! mp_FsID mi = Some existingPath →
  EnableMpath mpath tid cb (Disable mpath cbo m).2
  = Returns (None, Some (ErrFsidShared (mp_FsID mi) mi existingPath),
             (Disable mpath cbo m).2).
Proof.
  intros Hv (Ha & Hd & Hdisj) Hm Hck Hid.
  pose proof (Disable_spec mpath cleanMpath cbo m Hv) as HD. rewrite Hm in HD.
  destruct HD as (m1 & -> & HG1 & Hids1 & Hck1). cbn [snd].
  unfold EnableMpath, enable, cloneMPI. rewrite Hv, HG1.
  rewrite lookup_delete_eq, lookup_insert_eq.
  unfold _checkExists. by rewrite (Ha _ _ Hm), lookup_delete_eq, Hck1, Hck, Hids1, Hid.
Qed.

(** X24: [Disable] of a mountpath that is already disabled returns neither a
    mountpath nor an error and changes nothing: disabling twice is disabling
    once. *)
Theorem Disable_twice (m : MountedFS Env) (mpath cleanMpath : string)
    (cb1 cb2 : option (Env → Env)) (mi : Mpath) :
  ValidateMpath mpath = inl cleanMpath →
  (Get m).1 !! cleanMpath = Some mi →
  Disable mpath cb2 (Disable mpath cb1 m).2 = (None, None, (Disable mpath cb1 m).2).
Proof.
  intros Hv Hm.
  pose proof (Disable_spec mpath cleanMpath cb1 m Hv) as HD. rewrite Hm in HD.
  destruct HD as (m1 & -> & HG1 & _). cbn [snd].
  pose proof (Disable_spec mpath cleanMpath cb2 m1 Hv) as HD2.
  rewrite HG1 in HD2. cbn [fst snd] in HD2.
  by rewrite lookup_delete_eq, lookup_insert_eq in HD2.
Qed.

(** X25: After [Remove] has returned a mountpath, its path is in neither map and
    its filesystem id is free again; the other mountpaths are where they
    were; and removing the same path once more fails. *)
Theorem Remove_forgets (m : MountedFS Env) (mpath cleanMpath : string)
    (cb cb2 : option (Env → Env)) (mi : Mpath) (m' : MountedFS Env) :
  ValidateMpath mpath = inl cleanMpath → mfs_wf m →
  Remove mpath cb m = (Some mi, None, m') →
  (Get m').1 !! cleanMpath = None ∧ (Get m').2 !! cleanMpath = None
  ∧ mfs_fsIDs m' !! mp_FsID mi = None
  ∧ (∀ p, p ≠ cleanMpath →
          (Get m').1 !! p = (Get m).1 !! p ∧ (Get m').2 !! p = (Get m).2 !! p)
  ∧ ∃ e m'', Remove mpath cb2 m' = (None, Some e, m'').
Proof.
  intros Hv (Ha & Hd & Hdisj) HR.
  apply (Remove_spec _ _ _ _ _ _ _ Hv) in HR
    as (_ & [(_ & ? & _)|(mi0 & [= <-] & _ & Hids & Hcase)]); [done|].
  assert (Hgone : (Get m').1 !! cleanMpath = None ∧ (Get m').2 !! cleanMpath = None
                  ∧ ∀ p, p ≠ cleanMpath →
                      (Get m').1 !! p = (Get m).1 !! p ∧ (Get m').2 !! p = (Get m).2 !! p).
  { destruct Hcase as [(Hm & ->)|(Hna & Hm & ->)]; cbn [fst snd].
    - split_and!; [apply lookup_delete_eq| |].
      + apply not_elem_of_dom. apply elem_of_dom_2 in Hm. set_solver.
      + intros p Hp. by rewrite lookup_delete_ne.
    - split_and!; [done|apply lookup_delete_eq|].
      intros p Hp. by rewrite lookup_delete_ne. }
  destruct Hgone as (Hg1 & Hg2 & Hrest).
  split_and!; [done|done|by rewrite Hids, lookup_delete_eq|done|].
  unfold Remove, cloneMPI. rewrite Hv.
  destruct (removeXattr _ _ _) as [[err|] env]; [by eexists _, _|].
  change (Get (set_env env m')) with (Get m').
  destruct (Get m') as [a2 d2]. cbn [fst snd] in Hg1, Hg2. rewrite Hg1, Hg2.
  by eexists _, _.
Qed.

(** X26: After a mountpath was added as enabled it is available under its path,
    its filesystem id is registered to it and there is one more available
    mountpath; adding a mountpath with the same path again is refused as
    already existing, and, with the FSID check on, so is adding one that
    lives on the same filesystem under another path, as sharing it. *)
Theorem addEnabledDisabled_twice (m : MountedFS Env) (mi : Mpath) (tid : string)
    (mi' : Mpath) (m' : MountedFS Env) (mi2 : Mpath) (tid2 : string) :
  addEnabledDisabled mi tid true m = Returns (None, mi', m') →
  (Get m').1 !! mp_Path mi = Some mi'
  ∧ mfs_fsIDs m' !! mp_FsID mi = Some (mp_Path mi)
  ∧ NumAvail m' = Returns (S (size (Get m).1))
  ∧ (mp_Path mi2 = mp_Path mi →
     addEnabledDisabled mi2 tid2 true m'
     = Returns (Some (ErrAlreadyExists mi2 mi'), mi2, m'))
  ∧ ((Get m').1 !! mp_Path mi2 = None → mp_FsID mi2 = mp_FsID mi →
     mfs_checkFsID m' = true →
     addEnabledDisabled mi2 tid2 true m'
     = Returns (Some (ErrFsidShared (mp_FsID mi2) mi2 (mp_Path mi)), mi2, m')).
Proof.
  unfold addEnabledDisabled at 1. unfold cloneMPI.
  destruct (Get m) as [a d] eqn:HG.
  destruct (_checkExists mi a m) as [err|] eqn:Hc; [done|].
  destruct (_addEnabled mi tid a m) as [[[[[err|] mi1] a1] m1]|] eqn:Hadd; try done.
  apply _addEnabled_spec in Hadd as ([disks ->] & -> & Hav & Hdis & Hids & Hck & _).
  intros ?. simplify_eq.
  change (mp_FsID (set_Disks disks mi)) with (mp_FsID mi).
  change (mp_Path (set_Disks disks mi)) with (mp_Path mi).
  assert (Hnew : a !! mp_Path mi = None).
  { unfold _checkExists in Hc. by destruct (a !! mp_Path mi). }
  cbn [fst snd].
  split_and!.
  - cbn. apply lookup_insert_eq.
  - cbn. apply lookup_insert_eq.
  - cbn. by rewrite map_size_insert_None.
  - intros HP. unfold addEnabledDisabled, cloneMPI, _checkExists.
    rewrite Get_updatePaths. by rewrite HP, lookup_insert_eq.
  - rewrite Get_updatePaths. cbn [fst].
    intros Hn Hf Hchk. unfold addEnabledDisabled, cloneMPI, _checkExists.
    rewrite Get_updatePaths, Hn, Hf. cbn [mfs_fsIDs mfs_checkFsID updatePaths set_fsIDs] in *.
    by rewrite lookup_insert_eq, Hchk.
Qed.

Lemma addEnabledDisabled_err (mi : Mpath) (tid : string) (m : MountedFS Env)
    (x mi' : Mpath) (m' : MountedFS Env) :
  addEnabledDisabled mi tid true m ≠ Returns (Some (ErrMpathNoDisks x), mi', m').
Proof.
  unfold addEnabledDisabled, cloneMPI. destruct (Get m) as [a d].
  unfold _checkExists.
  destruct (a !! mp_Path mi); [done|].
  assert (Hadd : ∀ e mi1 a1 m1,
            _addEnabled mi tid a m = Returns (Some e, mi1, a1, m1) →
            e ≠ ErrMpathNoDisks x).
  { intros e mi1 a1 m1. unfold _addEnabled.
    destruct (ios_AddMpath _ _ _) as [[disks|err] env]; [|by (intros ?; simplify_eq)].
    destruct (nonempty tid && negb MDWrite_never); [|done].
    unfold SetDaemonIDXattr. destruct (negb (nonempty tid)); [done|].
    destruct (loadDaemonIDXattr _ _) as [[id|err] env1]; [|by (intros ?; simplify_eq)].
    destruct (String.eqb id tid); [done|].
    destruct (nonempty id && negb false); [by (intros ?; simplify_eq)|].
    destruct (SetXattr _ _ _ _) as [[err|] env2]; cbn; by (intros ?; simplify_eq). }
  assert (Hres : match _addEnabled mi tid a m with
                 | Returns (Some err, mi0, _, m0) => Returns (Some err, mi0, m0)
                 | Returns (None, mi0, availablePaths, m0) =>
                     Returns (None, mi0,
                              updatePaths availablePaths d
                                (set_fsIDs (<[mp_FsID mi0 := mp_Path mi0]> (mfs_fsIDs m0)) m0))
                 | Panics => Panics
                 end ≠ Returns (Some (ErrMpathNoDisks x), mi', m')).
  { destruct (_addEnabled mi tid a m) as [[[[[e|] mi1] a1] m1]|] eqn:He; [|done|done].
    intros ?. simplify_eq. by eapply Hadd. }
  destruct (mfs_fsIDs m !! mp_FsID mi); [destruct (mfs_checkFsID m); [done|]|]; exact Hres.
Qed.

(** X27: [AddMpath] checks for disks after the mountpath has been published: when
    it returns the no-disks error the mountpath, which was not available
    before, nevertheless is now, and its filesystem id is registered.  The
    callback has not run: the result is the same whatever the callback. *)
Theorem AddMpath_no_disks_still_added (m : MountedFS Env) (mpath tid : string)
    (cb : Env → Env) (mi : Mpath) (m' : MountedFS Env) :
  AddMpath mpath tid cb m = Returns (Some mi, Some (ErrMpathNoDisks mi), m') →
  (Get m).1 !! mp_Path mi = None
  ∧ (Get m').1 !! mp_Path mi = Some mi
  ∧ mfs_fsIDs m' !! mp_FsID mi = Some (mp_Path mi)
  ∧ mp_Disks mi = []
  ∧ ∀ cb2, AddMpath mpath tid cb2 m = Returns (Some mi, Some (ErrMpathNoDisks mi), m').
Proof.
  unfold AddMpath.
  destruct (newMountpath mpath tid (mfs_env m)) as [[[mi0|] [err|]] env] eqn:Hnew; try done.
  destruct (addEnabledDisabled mi0 tid true (set_env env m)) as [[[err mi1] m1]|] eqn:Hadd;
    [|done].
  destruct err as [err|].
  { intros ?. simplify_eq. by apply addEnabledDisabled_err in Hadd. }
  unfold addEnabledDisabled, cloneMPI in Hadd.
  change (Get (set_env env m)) with (Get m) in Hadd.
  destruct (Get m) as [a d] eqn:HG.
  destruct (_checkExists mi0 a (set_env env m)) as [e|] eqn:Hc; [done|].
  destruct (_addEnabled mi0 tid a (set_env env m)) as [[[[[e|] mi2] a2] m2]|] eqn:Ha;
    try done.
  apply _addEnabled_spec in Ha as ([disks ->] & -> & _).
  simplify_eq.
  assert (Hnone : a !! mp_Path mi0 = None).
  { unfold _checkExists in Hc. by destruct (a !! mp_Path mi0). }
  cbn [mp_Disks set_Disks].
  destruct disks as [|disk disks]; [|intros ?; by simplify_eq].
  destruct (negb TestingEnv); [|intros ?; by simplify_eq].
  change (mp_Path (set_Disks [] mi0)) with (mp_Path mi0).
  intros Hret. split_and!.
  - by simplify_eq.
  - destruct (negb (String.eqb (mp_Path mi0) mpath)); simplify_eq; cbn;
      apply lookup_insert_eq.
  - destruct (negb (String.eqb (mp_Path mi0) mpath)); simplify_eq; cbn;
      apply lookup_insert_eq.
  - by simplify_eq.
  - intros cb2. exact Hret.
Qed.

End Membership_properties.

Lemma mfs_12_wf (checkFsID : bool) : mfs_wf (mfs_12 checkFsID).
Proof.
  assert (Hk : MPIx_keyed {[ "/m1" := mpath_1; "/m2" := mpath_2 ]}).
  { intros p mi Hl. apply lookup_insert_Some in Hl as [[<- <-]|[_ Hl]]; [done|].
    apply lookup_singleton_Some in Hl as [<- <-]. done. }
  split_and!; [exact Hk|by intros p mi Hl|].
  cbn. rewrite dom_empty_L. set_solver.
Qed.

Lemma registry_stays_well_formed_witness :
  mfs_wf (Disable "/m1" None (mfs_12 true)).2
  ∧ mfs_wf (Remove "/m1" None (mfs_12 true)).2
  ∧ (∀ r e m', Enable "/m1" (mfs_12 true) = Returns (r, e, m') → mfs_wf m')
  ∧ (∀ r e m', EnableMpath "/m1" "t1" id (mfs_12 true) = Returns (r, e, m') → mfs_wf m').
Proof.
  apply (registry_stays_well_formed (mfs_12 true) "/m1" "t1" id None).
  apply mfs_12_wf.
Defined.

Lemma registry_membership_witness :
  mfs_known (Disable "/m1" None (mfs_12 true)).2 = mfs_known (mfs_12 true)
  ∧ (∀ r e m', EnableMpath "/m1" "t1" id (mfs_12 true) = Returns (r, e, m') →
               mfs_known m' = mfs_known (mfs_12 true))
  ∧ (∀ r e m', Remove "/m1" None (mfs_12 true) = (r, e, m') →
               mfs_known m' = match e with
                              | Some _ => mfs_known (mfs_12 true)
                              | None => mfs_known (mfs_12 true) ∖ {["/m1"]}
                              end).
Proof.
  apply (registry_membership (mfs_12 true) "/m1" "/m1" "t1" id None).
  - reflexivity.
  - apply mfs_12_wf.
Defined.

Lemma Disable_then_EnableMpath_witness :
  ∃ m2, EnableMpath "/m1" "t1" id (Disable "/m1" None (mfs_12 false)).2
        = Returns (Some mpath_1, None, m2)
        ∧ Get m2 = (<["/m1" := mpath_1]> (Get (mfs_12 false)).1, (Get (mfs_12 false)).2)
        ∧ (∃ disks, mpath_1 = set_Disks disks mpath_1)
        ∧ mfs_fsIDs m2 = <[mp_FsID mpath_1 := "/m1"]> (mfs_fsIDs (mfs_12 false)).
Proof.
  apply (Disable_then_EnableMpath (mfs_12 false) "/m1" "/m1" "t1" id None mpath_1 mpath_1
           (<["/m1" := mpath_1]> (Get (Disable "/m1" None (mfs_12 false)).2).1)
           (Disable "/m1" None (mfs_12 false)).2).
  - reflexivity.
  - apply mfs_12_wf.
  - reflexivity.
  - reflexivity.
  - reflexivity.
Defined.

Lemma EnableMpath_after_Disable_refused_witness :
  EnableMpath "/m1" "t1" id (Disable "/m1" None (mfs_12 true)).2
  = Returns (None, Some (ErrFsidShared (mp_FsID mpath_1) mpath_1 "/m1"),
             (Disable "/m1" None (mfs_12 true)).2).
Proof.
  apply (EnableMpath_after_Disable_refused (mfs_12 true) "/m1" "/m1" "t1" id None mpath_1).
  - reflexivity.
  - apply mfs_12_wf.
  - reflexivity.
  - reflexivity.
  - reflexivity.
Defined.

Lemma Disable_twice_witness :
  Disable "/m1" None (Disable "/m1" None (mfs_12 true)).2
  = (None, None, (Disable "/m1" None (mfs_12 true)).2).
Proof.
  apply (Disable_twice (mfs_12 true) "/m1" "/m1" None None mpath_1); reflexivity.
Defined.

Lemma Remove_forgets_witness :
  let m' := (Remove "/m1" None (mfs_12 true)).2 in
  (Get m').1 !! "/m1" = None ∧ (Get m').2 !! "/m1" = None
  ∧ mfs_fsIDs m' !! mp_FsID mpath_1 = None
  ∧ (∀ p, p ≠ "/m1" →
          (Get m').1 !! p = (Get (mfs_12 true)).1 !! p
          ∧ (Get m').2 !! p = (Get (mfs_12 true)).2 !! p)
  ∧ ∃ e m'', Remove "/m1" None m' = (None, Some e, m'').
Proof.
  intros m'.
  apply (Remove_forgets (mfs_12 true) "/m1" "/m1" None None mpath_1 m').
  - reflexivity.
  - apply mfs_12_wf.
  - reflexivity.
Defined.

Lemma addEnabledDisabled_twice_witness :
  let m' := updatePaths {[ "/m1" := mpath_1 ]} ∅
              (set_fsIDs {[ (1, 1) := "/m1" ]} mfs_0) in
  (Get m').1 !! mp_Path mpath_1 = Some mpath_1
  ∧ mfs_fsIDs m' !! mp_FsID mpath_1 = Some (mp_Path mpath_1)
  ∧ NumAvail m' = Returns (S (size (Get mfs_0).1))
  ∧ (mp_Path mpath_1 = mp_Path mpath_1 →
     addEnabledDisabled mpath_1 "t1" true m'
     = Returns (Some (ErrAlreadyExists mpath_1 mpath_1), mpath_1, m'))
  ∧ ((Get m').1 !! mp_Path mpath_1 = None → mp_FsID mpath_1 = mp_FsID mpath_1 →
     mfs_checkFsID m' = true →
     addEnabledDisabled mpath_1 "t1" true m'
     = Returns (Some (ErrFsidShared (mp_FsID mpath_1) mpath_1 (mp_Path mpath_1)),
                mpath_1, m')).
Proof.
  intros m'.
  apply (addEnabledDisabled_twice mfs_0 mpath_1 "t1" mpath_1 m' mpath_1 "t1").
  vm_compute. reflexivity.
Defined.

Lemma AddMpath_no_disks_still_added_witness :
  let m' := updatePaths {[ "/m3" := mpath_3 ]} ∅ (set_fsIDs {[ (3, 0) := "/m3" ]} mfs_0) in
  (Get mfs_0).1 !! mp_Path mpath_3 = None
  ∧ (Get m').1 !! mp_Path mpath_3 = Some mpath_3
  ∧ mfs_fsIDs m' !! mp_FsID mpath_3 = Some (mp_Path mpath_3)
  ∧ mp_Disks mpath_3 = []
  ∧ ∀ cb2, AddMpath (H := collaborators_nodisks) "/m3" "t1" cb2 mfs_0
           = Returns (Some mpath_3, Some (ErrMpathNoDisks mpath_3), m').
Proof.
  intros m'.
  apply (AddMpath_no_disks_still_added (H := collaborators_nodisks) mfs_0 "/m3" "t1" id
           mpath_3 m').
  vm_compute. reflexivity.
Defined.

(** ** Renaming a bucket: the directories after a rename that succeeded *)

Section Rename_success.
Variables (bidFrom : N) (bckFrom bckTo : Bck).



End Rename_success.



(** ** Mountpath registry: a [Get] that no [updatePaths] interleaves with *)

(** X29: in any reachable state in which no writer is between its two stores,
    a [Get] whose two loads follow each other with no store in between
    returns the pair of the last [updatePaths] (the pair of empty maps before
    the first): this is the [Get] of [cloneMPI], whose caller holds
    [mfs.mu]. *)
Theorem Get_between_updates_is_last_epoch (r : Registry) :
  Registry_reachable r → writer r = WIdle → reader r = RIdle →
  ∃ a d,
    reader (Get_load_disabled (available r) (Get_load_available r)) = RReturned a d
    ∧ last (epochs r) = Some (a, d)
    ∧ Registry_reachable (Get_load_disabled (available r) (Get_load_available r)).
Proof.
  intros Hreach Hw Hr.
  pose proof (Registry_inv_reachable r Hreach) as (n & aN & dN & Hlast & Hlen & Hav & Hwr & _).
  rewrite Hw in Hwr. exists aN, dN. split_and!.
  - cbn. by rewrite Hav, Hwr.
  - rewrite last_lookup, Hlen. exact Hlast.
  - eapply reach_step; [eapply reach_step; [exact Hreach|by apply step_load_available]|].
    by apply (step_load_disabled (Get_load_available r) (available r)).
Qed.

Lemma Get_between_updates_is_last_epoch_witness :
  let r := updatePaths_store_disabled m1_disabled
             (updatePaths_store_available m2_available m1_disabled
                (updatePaths_store_disabled ∅
                   (updatePaths_store_available both_available ∅ Registry_init))) in
  ∃ a d,
    reader (Get_load_disabled (available r) (Get_load_available r)) = RReturned a d
    ∧ last (epochs r) = Some (a, d)
    ∧ Registry_reachable (Get_load_disabled (available r) (Get_load_available r)).
Proof.
  intros r.
  apply (Get_between_updates_is_last_epoch r); [|reflexivity|reflexivity].
  repeat (eapply reach_step; [|by constructor]). apply reach_init.
Defined.
